(** * Durable execution engine: step keys, storage, context and engine

    A shallow embedding of the Go package [engine]: the step-key generator,
    the SQLite-backed [Storage], the per-workflow [Context] with its [Step]
    primitive, and [Engine.Execute].  Execution is sequential: one goroutine
    drives a context at a time, so the mutex and the errgroup are not
    represented. *)

From Stdlib Require Import Ascii.
From stdpp Require Import base strings pretty list gmap.

(** ** Step keys *)

(** [fmt.Sprintf("%s:%d", stepID, sequenceNum)]: the step id, a colon, and the
    sequence number in decimal (a leading minus sign for negatives). *)
Definition generateStepKey (stepID : string) (sequenceNum : Z) : string :=
  stepID +:+ ":" +:+ pretty sequenceNum.

(** The separator does not occur in a string. *)
Fixpoint colon_free (s : string) : Prop :=
  match s with
  | EmptyString => True
  | String c s' => c ≠ ":"%char ∧ colon_free s'
  end.

(** ** Errors *)

(** Go [error] values: [errors.New(msg)] and [fmt.Errorf("msg: %w", err)]. *)
Inductive error : Type :=
  | errorString (msg : string)
  | wrapError (msg : string) (err : error).

(** [err.Error()]. *)
Fixpoint Error (e : error) : string :=
  match e with
  | errorString msg => msg
  | wrapError msg err => msg +:+ ": " +:+ Error err
  end.

Fixpoint hasPrefix (s prefix : string) : bool :=
  match prefix, s with
  | EmptyString, _ => true
  | String c prefix', String d s' => bool_decide (c = d) && hasPrefix s' prefix'
  | String _ _, EmptyString => false
  end.

(** [strings.Contains]. *)
Fixpoint Contains (s substr : string) : bool :=
  hasPrefix s substr ||
  match s with
  | EmptyString => false
  | String _ s' => Contains s' substr
  end.

Definition isSQLiteBusy (err : option error) : bool :=
  match err with
  | None => false
  | Some e =>
      let errStr := Error e in
      Contains errStr "SQLITE_BUSY" || Contains errStr "database is locked"
  end.

(** ** Tables *)

Definition bytes : Type := list Byte.byte.

(** A row of table [steps].  The [id] column is the position of the row in
    the table; the timestamp columns are written but never read by the engine
    and are left out. *)
Record StepRow : Type := mkStepRow {
  workflow_id : string;
  step_id : string;
  sequence_num : Z;
  step_key : string;
  status : string;
  output : option bytes;
  error_text : option string
}.

(** Table [workflows] maps its primary key [workflow_id] to [status]; table
    [steps] is kept in insertion order. *)
Record DB : Type := mkDB {
  workflows : gmap string string;
  steps : list StepRow
}.

(** What the engine does that is visible from outside, in order. *)
Inductive event : Type :=
  | EvExec (table : string)
  | EvQuery (table : string)
  | EvBody (workflowID id : string)
  | EvProcedure (workflowID : string)
  | EvPrint (line : string).

(** 64-bit two's complement wrap-around of [atomic.AddInt64]. *)
Definition wrap64 (z : Z) : Z := ((z + 2 ^ 63) `mod` 2 ^ 64 - 2 ^ 63)%Z.

Definition max_int64 : Z := (2 ^ 63 - 1)%Z.

(** ** Statements of storage.go on the tables *)

(** [INSERT OR IGNORE INTO workflows (workflow_id, status) VALUES (?, ?)] *)
Definition insert_or_ignore_workflow (workflowID st : string) (d : DB) : DB :=
  match workflows d !! workflowID with
  | Some _ => d
  | None => mkDB (<[workflowID := st]> (workflows d)) (steps d)
  end.

(** [UPDATE workflows SET status = ? WHERE workflow_id = ?] *)
Definition update_workflow_status (workflowID st : string) (d : DB) : DB :=
  mkDB (alter (λ _, st) workflowID (workflows d)) (steps d).

Definition matches (workflowID stepKey : string) (r : StepRow) : bool :=
  bool_decide (workflow_id r = workflowID) && bool_decide (step_key r = stepKey).

(** [SELECT output, status FROM steps WHERE workflow_id = ? AND step_key = ?],
    first row. *)
Definition select_step (workflowID stepKey : string) (d : DB) : option StepRow :=
  List.find (matches workflowID stepKey) (steps d).

Definition set_in_progress (r : StepRow) : StepRow :=
  mkStepRow (workflow_id r) (step_id r) (sequence_num r) (step_key r)
    "in_progress" (output r) (error_text r).

(** [INSERT INTO steps (...) VALUES (?, ?, ?, ?, 'in_progress')
     ON CONFLICT(step_key) DO UPDATE SET status = 'in_progress'].
    Column [step_key] is UNIQUE over the whole table, so the conflict is with
    a row of any workflow. *)
Definition upsert_in_progress (workflowID stepKey stepID : string)
    (sequenceNum : Z) (d : DB) : DB :=
  if existsb (λ r, bool_decide (step_key r = stepKey)) (steps d)
  then mkDB (workflows d)
         (map (λ r, if bool_decide (step_key r = stepKey)
                    then set_in_progress r else r) (steps d))
  else mkDB (workflows d)
         (steps d ++ [mkStepRow workflowID stepID sequenceNum stepKey
                        "in_progress" None None]).

Definition set_completed (out : bytes) (r : StepRow) : StepRow :=
  mkStepRow (workflow_id r) (step_id r) (sequence_num r) (step_key r)
    "completed" (Some out) (error_text r).

(** [UPDATE steps SET status = 'completed', output = ?
     WHERE workflow_id = ? AND step_key = ?] *)
Definition update_completed (workflowID stepKey : string) (out : bytes)
    (d : DB) : DB :=
  mkDB (workflows d)
    (map (λ r, if matches workflowID stepKey r then set_completed out r else r)
       (steps d)).

Definition set_failed (errMsg : string) (r : StepRow) : StepRow :=
  mkStepRow (workflow_id r) (step_id r) (sequence_num r) (step_key r)
    "failed" (output r) (Some errMsg).

(** [UPDATE steps SET status = 'failed', error = ?
     WHERE workflow_id = ? AND step_key = ?] *)
Definition update_failed (workflowID stepKey errMsg : string) (d : DB) : DB :=
  mkDB (workflows d)
    (map (λ r, if matches workflowID stepKey r then set_failed errMsg r else r)
       (steps d)).

(** The rows of a workflow, in table order. *)
Definition rows_of (workflowID : string) (d : DB) : list StepRow :=
  List.filter (λ r, bool_decide (workflow_id r = workflowID)) (steps d).

(** [SELECT MAX(sequence_num) FROM steps WHERE workflow_id = ?]; NULL ([None])
    when the workflow has no row. *)
Definition select_max_sequence (workflowID : string) (d : DB) : option Z :=
  foldr (λ r acc, Some match acc with
                       | None => sequence_num r
                       | Some m => Z.max (sequence_num r) m
                       end) None (rows_of workflowID d).

(** The place of a row in index [idx_workflow_steps] on (workflow_id,
    sequence_num) among the rows of its workflow: by sequence number, and
    after the earlier rows with the same number. *)
Fixpoint insert_by_sequence (r : StepRow) (l : list StepRow) : list StepRow :=
  match l with
  | [] => [r]
  | x :: l' =>
      if (sequence_num r <=? sequence_num x)%Z then r :: l
      else x :: insert_by_sequence r l'
  end.

(** [SELECT step_id, sequence_num FROM steps WHERE workflow_id = ?].  The
    statement has no ORDER BY; SQLite answers a query on [workflow_id]
    through index [idx_workflow_steps], so the rows come by sequence number,
    and in table order among equal numbers. *)
Definition select_steps (workflowID : string) (d : DB) : list StepRow :=
  foldr insert_by_sequence [] (rows_of workflowID d).

(** [SELECT step_key, output FROM steps
     WHERE workflow_id = ? AND status = 'completed'], in the order of the
    same index. *)
Definition select_completed (workflowID : string) (d : DB) : list StepRow :=
  List.filter (λ r, bool_decide (status r = "completed"))
    (select_steps workflowID d).

(** ** The execution context *)

(** [storage] is the one store of the world; [mu] and [eg] have no
    counterpart in a sequential run. *)
Record Context : Type := mkContext {
  WorkflowID : string;
  sequenceNum : Z;
  completedSteps : gmap string bytes;
  stepIDToSeq : gmap string Z
}.

(** Result types of [Step]: a zero value, [json.Marshal] and
    [json.Unmarshal] at that type. *)
Class Codec (T : Type) : Type := mkCodec {
  zero : T;
  Marshal : T → bytes * option error;
  Unmarshal : bytes → T * option error
}.

(** Step 1 of [Step]: the sequence number of [id], taken from [stepIDToSeq]
    or from the incremented counter, and the context after the lookup. *)
Definition assignSeq (ctx : Context) (id : string) : Z * Context :=
  match stepIDToSeq ctx !! id with
  | Some seqNum => (seqNum, ctx)
  | None =>
      let seqNum := wrap64 (sequenceNum ctx + 1) in
      (seqNum, mkContext (WorkflowID ctx) seqNum (completedSteps ctx)
                 (<[id := seqNum]> (stepIDToSeq ctx)))
  end.

(** [ctx.completedSteps[stepKey] = output] *)
Definition cacheStep (ctx : Context) (stepKey : string) (out : bytes) : Context :=
  mkContext (WorkflowID ctx) (sequenceNum ctx)
    (<[stepKey := out]> (completedSteps ctx)) (stepIDToSeq ctx).

Section engine.

(** The state that the bodies of the steps read and write. *)
Context {U : Type}.

(** The store, the outcomes the SQLite driver will report for the coming
    statements ([None] and an exhausted list are successes), the state of
    the user's code, and the trace so far. *)
Record World : Type := mkWorld {
  db : DB;
  faults : list (option error);
  user : U;
  log : list event
}.

Definition M (A : Type) : Type := World → A * World.

#[export] Instance M_ret : MRet M := λ A a w, (a, w).
#[export] Instance M_bind : MBind M := λ A B k m w,
  let (a, w') := m w in k a w'.

Definition emit (ev : event) : M unit :=
  λ w, (tt, mkWorld (db w) (faults w) (user w) (log w ++ [ev])).

Definition driver : M (option error) :=
  λ w, match faults w with
       | [] => (None, w)
       | f :: fs => (f, mkWorld (db w) fs (user w) (log w))
       end.

Definition getDB : M DB := λ w, (db w, w).

Definition modifyDB (stmt : DB → DB) : M unit :=
  λ w, (tt, mkWorld (stmt (db w)) (faults w) (user w) (log w)).

(** [db.Exec]: the statement takes effect unless the driver reports an
    error. *)
Definition sqlExec (table : string) (stmt : DB → DB) : M (option error) :=
  emit (EvExec table);;
  err ← driver;
  match err with
  | Some e => mret (Some e)
  | None => modifyDB stmt;; mret None
  end.

(** [db.Query] and [db.QueryRow(...).Scan]. *)
Definition sqlQuery {A : Type} (table : string) (q : DB → A) : M (A + error) :=
  emit (EvQuery table);;
  err ← driver;
  match err with
  | Some e => mret (inr e)
  | None => d ← getDB; mret (inl (q d))
  end.

(** The loop of [retryOnBusy] with [remaining] iterations to go; [err] is
    the variable of that name.  The back-off sleep has no effect here. *)
Fixpoint retryLoop (remaining : nat) (fn : M (option error))
    (err : option error) : M (option error) :=
  match remaining with
  | O =>
      mret (Some (match err with
                  | Some e => wrapError "max retries exceeded" e
                  | None => errorString "max retries exceeded: %!w(<nil>)"
                  end))
  | S remaining' =>
      err ← fn;
      match err with
      | None => mret None
      | Some e =>
          if negb (isSQLiteBusy err) then mret err
          else retryLoop remaining' fn err
      end
  end.

Definition retryOnBusy (fn : M (option error)) : M (option error) :=
  let maxRetries := 5%nat in
  retryLoop maxRetries fn None.

(** *** storage.go *)

Definition CreateWorkflow (workflowID : string) : M (option error) :=
  retryOnBusy (sqlExec "workflows" (insert_or_ignore_workflow workflowID "running")).

Definition UpdateWorkflowStatus (workflowID st : string) : M (option error) :=
  retryOnBusy (sqlExec "workflows" (update_workflow_status workflowID st)).

Definition GetStep (workflowID stepKey : string) : M (bytes * bool * option error) :=
  res ← sqlQuery "steps" (select_step workflowID stepKey);
  match res with
  | inr e => mret ([], false, Some (wrapError "failed to get step" e))
  | inl None => mret ([], false, None)
  | inl (Some r) =>
      if bool_decide (status r ≠ "completed") then mret ([], false, None)
      else mret (default [] (output r), true, None)
  end.

Definition MarkStepInProgress (workflowID stepKey stepID : string)
    (sequenceNum : Z) : M (option error) :=
  retryOnBusy
    (sqlExec "steps" (upsert_in_progress workflowID stepKey stepID sequenceNum)).

Definition SaveStep (workflowID stepKey : string) (out : bytes) : M (option error) :=
  retryOnBusy (sqlExec "steps" (update_completed workflowID stepKey out)).

Definition SaveStepError (workflowID stepKey errMsg : string) : M (option error) :=
  retryOnBusy (sqlExec "steps" (update_failed workflowID stepKey errMsg)).

Definition GetMaxSequenceNum (workflowID : string) : M (Z * option error) :=
  res ← sqlQuery "steps" (select_max_sequence workflowID);
  match res with
  | inr e => mret (0%Z, Some (wrapError "failed to get max sequence" e))
  | inl None => mret (0%Z, None)
  | inl (Some maxSeq) => mret (maxSeq, None)
  end.

Definition LoadCompletedSteps (workflowID : string)
    : M (gmap string bytes * option error) :=
  res ← sqlQuery "steps" (select_completed workflowID);
  match res with
  | inr e => mret (∅, Some (wrapError "failed to load steps" e))
  | inl rows =>
      mret (foldl (λ m r, <[step_key r := default [] (output r)]> m) ∅ rows,
            None)
  end.

Definition LoadStepIDMapping (workflowID : string)
    : M (gmap string Z * option error) :=
  res ← sqlQuery "steps" (select_steps workflowID);
  match res with
  | inr e => mret (∅, Some (wrapError "failed to load step ID mapping" e))
  | inl rows =>
      mret (foldl (λ m r, <[step_id r := sequence_num r]> m) ∅ rows, None)
  end.

Definition GetWorkflowStatus (workflowID : string) : M (string * option error) :=
  res ← sqlQuery "workflows" (λ d, workflows d !! workflowID);
  match res with
  | inr e => mret ("", Some (wrapError "failed to get workflow status" e))
  | inl None => mret ("", Some (errorString "workflow not found"))
  | inl (Some st) => mret (st, None)
  end.

(** *** context.go *)

Definition newContext (workflowID : string) : M (Context + error) :=
  '(completedSteps, err) ← LoadCompletedSteps workflowID;
  match err with
  | Some e => mret (inr (wrapError "failed to load completed steps" e))
  | None =>
  '(stepIDToSeq, err) ← LoadStepIDMapping workflowID;
  match err with
  | Some e => mret (inr (wrapError "failed to load step ID mapping" e))
  | None =>
  '(maxSeq, err) ← GetMaxSequenceNum workflowID;
  match err with
  | Some e => mret (inr (wrapError "failed to get max sequence" e))
  | None => mret (inl (mkContext workflowID maxSeq completedSteps stepIDToSeq))
  end end end.

(** The function passed to [Step]: it acts on the user's state only. *)
Definition Body (T : Type) : Type := U → (T * option error) * U.

Definition call {T : Type} (workflowID id : string) (fn : Body T)
    : M (T * option error) :=
  emit (EvBody workflowID id);;
  (λ w, let (r, u) := fn (user w) in
        (r, mkWorld (db w) (faults w) u (log w))) : M (T * option error).

Definition skipped (id : string) : string :=
  "[SKIPPED] " +:+ id +:+ " (already completed)".

(** [Step] updates the context it is given in place; the context after the
    call is returned with the two results. *)
Definition Step {T : Type} `{!Codec T} (ctx : Context) (id : string)
    (fn : Body T) : M (Context * (T * option error)) :=
  (* 1. reuse the sequence number of a step id seen before *)
  let '(seqNum, ctx) := assignSeq ctx id in
  let stepKey := generateStepKey id seqNum in
  (* 2. in-memory cache *)
  match completedSteps ctx !! stepKey with
  | Some cached =>
      let '(result, err) := Unmarshal cached in
      match err with
      | Some e =>
          mret (ctx, (zero, Some (wrapError "failed to unmarshal cached result" e)))
      | None => emit (EvPrint (skipped id));; mret (ctx, (result, None))
      end
  | None =>
  (* 3. database *)
  '(out, found, err) ← GetStep (WorkflowID ctx) stepKey;
  match err with
  | Some e => mret (ctx, (zero, Some (wrapError "failed to check step in database" e)))
  | None =>
  if (found : bool) then
    let '(result, err) := Unmarshal out in
    match err with
    | Some e =>
        mret (ctx, (zero, Some (wrapError "failed to unmarshal database result" e)))
    | None =>
        emit (EvPrint (skipped id));;
        mret (cacheStep ctx stepKey out, (result, None))
    end
  else
  (* 4. in-progress marker *)
  err ← MarkStepInProgress (WorkflowID ctx) stepKey id seqNum;
  match err with
  | Some e => mret (ctx, (zero, Some (wrapError "failed to mark step in progress" e)))
  | None =>
  (* 5. the function *)
  '(result, err) ← call (WorkflowID ctx) id fn;
  match err with
  | Some e =>
      SaveStepError (WorkflowID ctx) stepKey (Error e);;
      mret (ctx, (zero, Some e))
  | None =>
  (* 6. serialize and save *)
  let '(out, err) := Marshal result in
  match err with
  | Some e => mret (ctx, (zero, Some (wrapError "failed to marshal result" e)))
  | None =>
  err ← SaveStep (WorkflowID ctx) stepKey out;
  match err with
  | Some e => mret (ctx, (zero, Some (wrapError "failed to save step" e)))
  | None => mret (cacheStep ctx stepKey out, (result, None))
  end end end end end
  end.

(** *** engine.go *)

(** The workflow function receives the context and runs in the world; the
    engine does not look at the context afterwards. *)
Definition Execute (workflowID : string) (workflowFn : Context → M (option error))
    : M (option error) :=
  err ← CreateWorkflow workflowID;
  match err with
  | Some e => mret (Some (wrapError "failed to create workflow" e))
  | None =>
  '(st, err) ← GetWorkflowStatus workflowID;
  match err with
  | Some e => mret (Some (wrapError "failed to get workflow status" e))
  | None =>
  if bool_decide (st = "completed") then
    emit (EvPrint "Workflow already completed");; mret None
  else
  res ← newContext workflowID;
  match res with
  | inr e => mret (Some (wrapError "failed to create context" e))
  | inl ctx =>
  emit (EvProcedure workflowID);;
  err ← workflowFn ctx;
  match err with
  | Some e =>
      UpdateWorkflowStatus workflowID "failed";;
      mret (Some (wrapError "workflow execution failed" e))
  | None =>
  err ← UpdateWorkflowStatus workflowID "completed";
  match err with
  | Some e => mret (Some (wrapError "failed to mark workflow as completed" e))
  | None => mret None
  end end end end end.

End engine.

Arguments World : clear implicits.
Arguments M : clear implicits.
Arguments Body : clear implicits.

(** ** A result type, step functions and workflow functions of the tests *)

#[export] Instance event_eq_dec : EqDecision event.
Proof. solve_decision. Defined.

(** The insignificant white space of JSON: space, tab, line feed and
    carriage return. *)
Definition is_json_space (c : ascii) : bool :=
  bool_decide (c ∈ [" "%char; "009"%char; "010"%char; "013"%char]).

Fixpoint skip_space (s : string) : string :=
  match s with
  | String c s' => if is_json_space c then skip_space s' else s
  | EmptyString => s
  end.

Definition trim_space (s : string) : string :=
  String.rev (skip_space (String.rev (skip_space s))).

(** [json.Unmarshal] into a Go bool: white space around the value is
    skipped, the two literals are decoded, and [null] leaves the zero
    value.  Any other input is an error; Go's message names the offending
    character or JSON type, here the empty input has its own message and
    one message stands for the others. *)
Definition unmarshal_bool (data : bytes) : bool * option error :=
  let s := trim_space (String.string_of_list_byte data) in
  if bool_decide (s = "true") then (true, None)
  else if bool_decide (s = "false") then (false, None)
  else if bool_decide (s = "null") then (false, None)
  else if bool_decide (s = "") then
    (false, Some (errorString "unexpected end of JSON input"))
  else (false, Some (errorString "invalid character looking for beginning of value")).

#[export] Instance bool_Codec : Codec bool := {|
  zero := false;
  Marshal b := (String.list_byte_of_string (if b then "true" else "false"), None);
  Unmarshal := unmarshal_bool
|}.

(** A step function that counts its runs, as [executionCount++] does in
    the tests, and returns [b]. *)
Definition counted (b : bool) : Body nat bool := λ n, ((b, None), S n).

(** A step function that counts its runs and fails, as in
    TestErrorHandling. *)
Definition failing (msg : string) : Body nat bool :=
  λ n, ((false, Some (errorString msg)), S n).

(** The workflow of TestIdempotency: one step, whose error is returned. *)
Definition oneStep (id : string) (fn : Body nat bool)
    : Context → M nat (option error) :=
  λ ctx, '(_, (_, err)) ← Step ctx id fn; mret err.

(** The first run of TestWorkflowResume: one step, then the simulated
    crash. *)
Definition crashAfterStep (id : string) (fn : Body nat bool)
    : Context → M nat (option error) :=
  λ ctx,
    '(_, (_, err)) ← Step ctx id fn;
    match err with
    | Some e => mret (Some e)
    | None => mret (Some (errorString "simulated crash"))
    end.

Definition emptyWorld : World nat := mkWorld (mkDB ∅ []) [] 0%nat [].

(** Two employees are onboarded on one engine; the second run crashes after
    its first step and is resumed. *)
Definition two_onboardings : M nat (option error * option error * option error) :=
  e1 ← Execute "onboarding-employee-001"
         (oneStep "create-user-record" (counted true));
  e2 ← Execute "onboarding-employee-002"
         (crashAfterStep "create-user-record" (counted true));
  e3 ← Execute "onboarding-employee-002"
         (crashAfterStep "create-user-record" (counted true));
  mret (e1, e2, e3).

(** The two runs of TestWorkflowResume on one workflow: the first run
    crashes after step "step-1", the second calls the step again. *)
Definition resumed_once : M nat (option error * option error) :=
  e1 ← Execute "test-workflow-resume" (crashAfterStep "step-1" (counted true));
  e2 ← Execute "test-workflow-resume" (oneStep "step-1" (counted true));
  mret (e1, e2).

(** A store in which workflow [w] has a marker for step [a] and has
    completed step [b], and a context of that workflow. *)
Definition markerRow : StepRow :=
  mkStepRow "w" "a" 1 "a:1" "in_progress" None None.

Definition completedRow : StepRow :=
  mkStepRow "w" "b" 2 "b:2" "completed"
    (Some (String.list_byte_of_string "true")) None.

Definition resumedWorld : World nat :=
  mkWorld (mkDB {["w" := "failed"]} [markerRow; completedRow]) [] 1%nat [].

Definition resumedContext : Context :=
  mkContext "w" 2
    {["b:2" := String.list_byte_of_string "true"]}
    {["a" := 1%Z; "b" := 2%Z]}.

(** The context obtained by a restart, when [newContext] succeeds. *)
Definition contextOf (res : Context + error) (ctx : Context) : Context :=
  match res with
  | inl ctx' => ctx'
  | inr _ => ctx
  end.

(** One more step in the resumed run, then a restart. *)
Definition afterStep : Context * (bool * option error) * World nat :=
  Step resumedContext "c" (counted true) resumedWorld.

Definition restartedContext : Context :=
  contextOf (newContext "w" afterStep.2).1 resumedContext.

Definition restartedWorld : World nat := (newContext "w" afterStep.2).2.

Definition completedWorld : World nat :=
  mkWorld (mkDB {["w" := "completed"]} [completedRow]) [] 1%nat [].

(** ** Predicates used in the statements *)

(** The columns of a row that no statement ever changes. *)
Definition ident (r : StepRow) : string * string * Z * string :=
  (workflow_id r, step_id r, sequence_num r, step_key r).

(** The UNIQUE constraint on column [step_key]. *)
Definition unique_step_keys (d : DB) : Prop := NoDup (step_key <$> steps d).

(** Every row of the workflow carries the key generated from its step id and
    sequence number. *)
Definition well_keyed (workflowID : string) (d : DB) : Prop :=
  ∀ r, r ∈ steps d → workflow_id r = workflowID →
       step_key r = generateStepKey (step_id r) (sequence_num r).

(** Two states of the tables hold the same steps of the workflow: rows of
    other workflows, and the columns that updates write, may differ. *)
Definition same_steps_of (workflowID : string) (d d' : DB) : Prop :=
  ∀ i : string * string * Z * string,
    i.1.1.1 = workflowID → i ∈ ident <$> steps d ↔ i ∈ ident <$> steps d'.

(** A marker for step [id] with sequence number [n] is stored for the
    workflow. *)
Definition persisted (workflowID id : string) (n : Z) (d : DB) : Prop :=
  ∃ r, r ∈ steps d ∧ workflow_id r = workflowID ∧ step_id r = id ∧
       sequence_num r = n.

(** The context knows the sequence number of every stored step of its
    workflow. *)
Definition covers (ctx : Context) (d : DB) : Prop :=
  ∀ r, r ∈ steps d → workflow_id r = WorkflowID ctx →
       stepIDToSeq ctx !! step_id r = Some (sequence_num r).

(** No sequence number known to the context, and none stored for its
    workflow, exceeds the counter. *)
Definition counter_bounds (ctx : Context) (d : DB) : Prop :=
  (∀ id n, stepIDToSeq ctx !! id = Some n → (n ≤ sequenceNum ctx)%Z) ∧
  (∀ r, r ∈ steps d → workflow_id r = WorkflowID ctx →
        (sequence_num r ≤ sequenceNum ctx)%Z).

(** The next increment of the counter stays within int64. *)
Definition no_wrap (ctx : Context) : Prop :=
  wrap64 (sequenceNum ctx + 1) = (sequenceNum ctx + 1)%Z.

Section predicates.

Context {U : Type}.

(** What a call of [retryOnBusy] around one [db.Exec] can do: the statement
    takes effect exactly when no error comes back, the user's state is not
    touched, and the trace grows by the attempts only. *)
Definition exec_post (table : string) (stmt : DB → DB) (w : World U)
    (r : option error * World U) : Prop :=
  user r.2 = user w ∧
  (∃ k, log r.2 = log w ++ replicate k (EvExec table)) ∧
  ((r.1 = None ∧ db r.2 = stmt (db w)) ∨ (is_Some r.1 ∧ db r.2 = db w)).

(** The result of [GetStep] when the driver reports no error. *)
Definition getStep_result (workflowID stepKey : string) (d : DB) : bytes * bool :=
  match select_step workflowID stepKey d with
  | None => ([], false)
  | Some r =>
      if bool_decide (status r ≠ "completed") then ([], false)
      else (default [] (output r), true)
  end.

(** The tables after a call of [Step] for [stepKey], compared with the
    tables before: nothing written, the marker written, or the marker
    followed by one of the two updates. *)
Definition step_db_post (workflowID stepKey stepID : string) (seqNum : Z)
    (d d' : DB) : Prop :=
  d' = d ∨
  d' = upsert_in_progress workflowID stepKey stepID seqNum d ∨
  (∃ errMsg, d' = update_failed workflowID stepKey errMsg
                    (upsert_in_progress workflowID stepKey stepID seqNum d)) ∨
  (∃ out, d' = update_completed workflowID stepKey out
                 (upsert_in_progress workflowID stepKey stepID seqNum d)).

(** What can happen to a context and the world around it, starting from
    a given moment: a call of [Step] on the context (when [guard] allows
    it), a restart that builds a fresh context for the same workflow from
    the store, or anything else (the engine's writes to table [workflows],
    steps of other workflows) that neither adds nor removes steps of the
    workflow. *)
Inductive later (guard : Context → Prop)
    : Context * World U → Context * World U → Prop :=
  | later_refl cw : later guard cw cw
  | later_Step cw ctx w (T : Type) (C : Codec T) id (fn : Body U T) :
      later guard cw (ctx, w) → guard ctx →
      later guard cw ((Step ctx id fn w).1.1, (Step ctx id fn w).2)
  | later_restart cw ctx w ctx' w' :
      later guard cw (ctx, w) →
      newContext (WorkflowID ctx) w = (inl ctx', w') →
      later guard cw (ctx', w')
  | later_env cw ctx w w' :
      later guard cw (ctx, w) →
      same_steps_of (WorkflowID ctx) (db w) (db w') →
      later guard cw (ctx, w').

End predicates.

(** ** Two workflows that share a step id *)

(** Two onboardings on one engine: the first completes step
    "create-user-record"; in the second the function of that step fails. *)
Definition failed_onboarding : M nat (option error * option error) :=
  e1 ← Execute "onboarding-employee-001"
         (oneStep "create-user-record" (counted true));
  e2 ← Execute "onboarding-employee-002"
         (oneStep "create-user-record" (failing "database unavailable"));
  mret (e1, e2).

(** A run of a workflow that calls [Step] for "create-user-record" and then
    for "send-welcome-email", on a fresh context built from the store as
    [Execute] builds it.  The run returns the step-id map of the context
    after the two calls, that is, the sequence numbers the calls used. *)
Definition numbered_run (workflowID : string) : M nat (option (gmap string Z)) :=
  res ← newContext workflowID;
  match res with
  | inr _ => mret None
  | inl ctx =>
      '(ctx, _) ← Step ctx "create-user-record" (counted true);
      '(ctx, _) ← Step ctx "send-welcome-email" (counted true);
      mret (Some (stepIDToSeq ctx))
  end.

(** The first onboarding stops after its first step; the second one goes
    through the two steps twice, as a run and its resumption do. *)
Definition renumbered_onboarding
    : M nat (option (gmap string Z) * option (gmap string Z)) :=
  Execute "onboarding-employee-001"
    (crashAfterStep "create-user-record" (counted true));;
  m1 ← numbered_run "onboarding-employee-002";
  m2 ← numbered_run "onboarding-employee-002";
  mret (m1, m2).

(** ** Stores that fail, and a result type without encoding *)

(** Two errors of the driver: a lock, which [isSQLiteBusy] recognises, and
    one that it does not. *)
Definition lockedError : error := errorString "database is locked".

Definition diskError : error := errorString "disk I/O error".

(** The world with the given outcomes of the driver to come. *)
Definition withFaults {U : Type} (fs : list (option error)) (w : World U)
    : World U :=
  mkWorld (db w) fs (user w) (log w).

(** A context of workflow [w] that knows the sequence numbers of the stored
    steps but has nothing in its cache. *)
Definition coldContext : Context :=
  mkContext "w" 2 ∅ {["a" := 1%Z; "b" := 2%Z]}.

(** A result type that [json.Marshal] does not support, such as a channel:
    encoding fails, and decoding accepts [null] only. *)
Definition unsupported_Codec : Codec unit := {|
  zero := tt;
  Marshal _ := ([], Some (errorString "json: unsupported type: chan int"));
  Unmarshal data :=
    if bool_decide (String.string_of_list_byte data = "null") then (tt, None)
    else (tt, Some (errorString "json: cannot unmarshal into Go value of type chan int"))
|}.

(** A step function that counts its runs and returns a value of that
    type. *)
Definition countedUnit : Body nat unit := λ n, ((tt, None), S n).

(** Among the stored steps of the workflow, a step id has one sequence
    number. *)
Definition one_number_per_step (workflowID : string) (d : DB) : Prop :=
  ∀ r1 r2, r1 ∈ steps d → r2 ∈ steps d →
           workflow_id r1 = workflowID → workflow_id r2 = workflowID →
           step_id r1 = step_id r2 → sequence_num r1 = sequence_num r2.

(** No two step ids of the context share a sequence number. *)
Definition distinct_sequence_numbers (ctx : Context) : Prop :=
  ∀ id1 id2 n,
    stepIDToSeq ctx !! id1 = Some n → stepIDToSeq ctx !! id2 = Some n →
    id1 = id2.

Section more_predicates.

Context {U : Type}.

(** The context after further calls of [Step] on it, in any worlds. *)
Inductive stepped : Context → Context → Prop :=
  | stepped_refl ctx : stepped ctx ctx
  | stepped_Step ctx ctx' (T : Type) (C : Codec T) id (fn : Body U T)
      (w : World U) :
      stepped ctx ctx' → stepped ctx (Step ctx' id fn w).1.1.

End more_predicates.

(** * Properties *)

(** Run the outermost bind of a computation in [H]; run it to the end. *)
Ltac run_bind H := unfold mbind at 1, M_bind at 1 in H.
Ltac run_ret H :=
  unfold mbind, M_bind, mret, M_ret, emit in H; simpl in H; simplify_eq/=.

Example generateStepKey_create_user :
  generateStepKey "create-user" 1%Z = "create-user:1".
Proof. reflexivity. Qed.

Example generateStepKey_loop :
  generateStepKey "process-2" 13%Z = "process-2:13".
Proof. reflexivity. Qed.

Example generateStepKey_negative :
  generateStepKey "s" (-7)%Z = "s:-7".
Proof. reflexivity. Qed.

(** A step id that contains the separator: the keys of ("a", 11) and of
    ("a:1", 1) differ. *)
Example generateStepKey_separator_in_id :
  generateStepKey "a" 11%Z = "a:11" ∧ generateStepKey "a:1" 1%Z = "a:1:1".
Proof. by vm_compute. Qed.

Section step_key_facts.

Lemma app_nil_l_str (s : string) : "" +:+ s = s.
Proof. reflexivity. Qed.

Lemma app_cons_str (c : ascii) (a s : string) :
  String c a +:+ s = String c (a +:+ s).
Proof. reflexivity. Qed.

Lemma pretty_N_char_not_colon (x : N) : pretty_N_char x ≠ ":"%char.
Proof. unfold pretty_N_char. by repeat case_match. Qed.

Lemma pretty_N_go_colon_free (x : N) (s : string) :
  colon_free s → colon_free (pretty_N_go x s).
Proof.
  revert s. induction (N.lt_wf_0 x) as [x _ IH]; intros s Hs.
  destruct (decide (x = 0)%N) as [->|Hx].
  - by rewrite pretty_N_go_0.
  - rewrite pretty_N_go_step by lia.
    apply IH; [apply N.div_lt; lia|].
    split; [apply pretty_N_char_not_colon | done].
Qed.

Lemma pretty_N_colon_free (x : N) : colon_free (pretty x).
Proof.
  unfold pretty, pretty_N. case_decide; [by compute|].
  by apply pretty_N_go_colon_free.
Qed.

Lemma pretty_Z_colon_free (z : Z) : colon_free (pretty z).
Proof.
  destruct z as [|p|p]; unfold pretty, pretty_Z.
  - by compute.
  - apply pretty_N_colon_free.
  - rewrite app_cons_str, app_nil_l_str.
    split; [done | apply pretty_N_colon_free].
Qed.

Lemma colon_free_app_colon (a t : string) : ¬ colon_free (a +:+ ":" +:+ t).
Proof.
  induction a as [|c a IH]; rewrite ?app_cons_str, ?app_nil_l_str; simpl.
  - by intros [? _].
  - intros [_ ?]. auto.
Qed.

(** A string that ends in a colon followed by a colon-free suffix splits in
    only one way: the separator is the last colon. *)
Lemma split_last_colon (a b t u : string) :
  colon_free t → colon_free u →
  a +:+ ":" +:+ t = b +:+ ":" +:+ u → a = b ∧ t = u.
Proof.
  intros Ht Hu. revert b.
  induction a as [|c a IH]; intros [|d b];
    rewrite ?app_cons_str, ?app_nil_l_str; intros Heq; simplify_eq.
  - done.
  - by apply colon_free_app_colon in Ht.
  - by apply colon_free_app_colon in Hu.
  - destruct (IH b) as [-> ->]; done.
Qed.

(** Equal keys come from equal step ids and equal sequence numbers. *)
Lemma generateStepKey_eq_inv (stepID1 stepID2 : string) (seq1 seq2 : Z) :
  generateStepKey stepID1 seq1 = generateStepKey stepID2 seq2 →
  stepID1 = stepID2 ∧ seq1 = seq2.
Proof.
  unfold generateStepKey. intros Heq.
  apply split_last_colon in Heq as [-> Hp]; auto using pretty_Z_colon_free.
  split; [done | by apply (inj pretty)].
Qed.

End step_key_facts.

(** C3. [generateStepKey] is injective on pairs of a step id and a sequence
    number, whatever characters the step ids contain (the separator
    included): equal keys come from equal step ids and equal sequence
    numbers. *)
Theorem generateStepKey_inj (stepID1 stepID2 : string) (seq1 seq2 : Z) :
  generateStepKey stepID1 seq1 = generateStepKey stepID2 seq2 →
  stepID1 = stepID2 ∧ seq1 = seq2.
Proof. apply generateStepKey_eq_inv. Qed.

Lemma generateStepKey_inj_witness :
  "a:1" = "a:1" ∧ 12%Z = 12%Z.
Proof. apply (generateStepKey_inj "a:1" "a:1" 12%Z 12%Z). reflexivity. Defined.

(** ** The driver and the retry loop *)

Section storage_facts.

Context {U : Type}.
Implicit Types (w : World U) (d : DB) (u : U) (l : list event).

Lemma sqlExec_healthy table stmt d u l :
  sqlExec table stmt (mkWorld d [] u l)
  = (None, mkWorld (stmt d) [] u (l ++ [EvExec table])).
Proof. reflexivity. Qed.

Lemma retryOnBusy_healthy table stmt d u l :
  retryOnBusy (sqlExec table stmt) (mkWorld d [] u l)
  = (None, mkWorld (stmt d) [] u (l ++ [EvExec table])).
Proof. reflexivity. Qed.

Lemma sqlQuery_healthy {A} table (q : DB → A) d u l :
  sqlQuery table q (mkWorld d [] u l)
  = (inl (q d), mkWorld d [] u (l ++ [EvQuery table])).
Proof. reflexivity. Qed.

Lemma sqlExec_cases table stmt w :
  (∃ fs, (sqlExec table stmt w).1 = None ∧
     (sqlExec table stmt w).2
     = mkWorld (stmt (db w)) fs (user w) (log w ++ [EvExec table])) ∨
  (∃ fs e, (sqlExec table stmt w).1 = Some e ∧
     (sqlExec table stmt w).2
     = mkWorld (db w) fs (user w) (log w ++ [EvExec table])).
Proof.
  destruct w as [d fs u l]. destruct fs as [|[e|] fs].
  - left. by exists [].
  - right. by exists fs, e.
  - left. by exists fs.
Qed.

Lemma retryLoop_post n table stmt err w :
  exec_post table stmt w (retryLoop n (sqlExec table stmt) err w).
Proof.
  revert err w. induction n as [|n IH]; intros err w.
  - split_and!; [done | by exists 0%nat; rewrite app_nil_r | right].
    split; [by destruct err | done].
  - simpl. unfold mbind, M_bind.
    destruct (sqlExec_cases table stmt w) as [(fs & He & Hw)|(fs & e & He & Hw)];
      destruct (sqlExec table stmt w) as [err' w1]; simpl in *; subst.
    + split_and!; [done | by exists 1%nat | by left].
    + destruct (negb _).
      * split_and!; [done | by exists 1%nat | right; eauto].
      * destruct (IH (Some e) (mkWorld (db w) fs (user w) (log w ++ [EvExec table])))
          as (Hu & [k Hl] & Hd).
        split_and!; [done | | done].
        exists (S k). rewrite Hl. simpl. by rewrite <- app_assoc.
Qed.

Lemma retryOnBusy_post table stmt w :
  exec_post table stmt w (retryOnBusy (sqlExec table stmt) w).
Proof. apply retryLoop_post. Qed.

Lemma sqlQuery_cases {A} table (q : DB → A) w :
  ∃ fs, (sqlQuery table q w).2
        = mkWorld (db w) fs (user w) (log w ++ [EvQuery table]) ∧
        ((sqlQuery table q w).1 = inl (q (db w)) ∨
         ∃ e, (sqlQuery table q w).1 = inr e).
Proof.
  destruct w as [d fs u l]. destruct fs as [|[e|] fs].
  - exists []. eauto.
  - exists fs. split; [done | right; by exists e].
  - exists fs. eauto.
Qed.

End storage_facts.

(** ** One call of [Step], whatever the driver reports *)

Section step_facts.

Context {U : Type}.
Implicit Types (w : World U) (d : DB) (u : U) (l : list event) (ctx : Context).


Lemma assignSeq_WorkflowID ctx id :
  WorkflowID (assignSeq ctx id).2 = WorkflowID ctx.
Proof. unfold assignSeq. by destruct (stepIDToSeq ctx !! id). Qed.

Lemma assignSeq_completedSteps ctx id :
  completedSteps (assignSeq ctx id).2 = completedSteps ctx.
Proof. unfold assignSeq. by destruct (stepIDToSeq ctx !! id). Qed.

Lemma assignSeq_lookup ctx id :
  stepIDToSeq (assignSeq ctx id).2 !! id = Some (assignSeq ctx id).1.
Proof.
  unfold assignSeq. destruct (stepIDToSeq ctx !! id) eqn:E; simpl; [done|].
  by rewrite lookup_insert_eq.
Qed.

Lemma assignSeq_keeps ctx id id' n :
  stepIDToSeq ctx !! id' = Some n →
  stepIDToSeq (assignSeq ctx id).2 !! id' = Some n.
Proof.
  intros H. unfold assignSeq. destruct (stepIDToSeq ctx !! id) eqn:E; simpl; [done|].
  rewrite lookup_insert_ne; [done | congruence].
Qed.

Lemma GetStep_post workflowID stepKey w :
  db (GetStep workflowID stepKey w).2 = db w ∧
  user (GetStep workflowID stepKey w).2 = user w ∧
  log (GetStep workflowID stepKey w).2 = log w ++ [EvQuery "steps"] ∧
  ((∃ e, (GetStep workflowID stepKey w).1 = ([], false, Some e)) ∨
   (GetStep workflowID stepKey w).1
   = (getStep_result workflowID stepKey (db w), None)).
Proof.
  unfold GetStep, mbind, M_bind, getStep_result.
  destruct (sqlQuery_cases "steps" (select_step workflowID stepKey) w)
    as (fs & Hw & [Hr|[e Hr]]);
    destruct (sqlQuery _ _ w) as [res w1]; simpl in *; subst.
  - destruct (select_step _ _ _) as [r|]; [|by eauto].
    destruct (bool_decide _); by eauto.
  - split_and!; try done. left. by eexists.
Qed.

Lemma call_post {T} workflowID id (fn : Body U T) w :
  call workflowID id fn w
  = ((fn (user w)).1,
     mkWorld (db w) (faults w) (fn (user w)).2 (log w ++ [EvBody workflowID id])).
Proof. unfold call, mbind, M_bind. simpl. by destruct (fn (user w)). Qed.

Lemma step_db_post_same workflowID stepKey stepID seqNum d :
  step_db_post workflowID stepKey stepID seqNum d d.
Proof. by left. Qed.

Lemma step_db_post_marked workflowID stepKey stepID seqNum d :
  step_db_post workflowID stepKey stepID seqNum d
    (upsert_in_progress workflowID stepKey stepID seqNum d).
Proof. right; by left. Qed.

Lemma step_db_post_failed workflowID stepKey stepID seqNum errMsg d :
  step_db_post workflowID stepKey stepID seqNum d
    (update_failed workflowID stepKey errMsg
       (upsert_in_progress workflowID stepKey stepID seqNum d)).
Proof. right; right; left. by eexists. Qed.

Lemma step_db_post_completed workflowID stepKey stepID seqNum out d :
  step_db_post workflowID stepKey stepID seqNum d
    (update_completed workflowID stepKey out
       (upsert_in_progress workflowID stepKey stepID seqNum d)).
Proof. right; right; right. by eexists. Qed.

(** The context and the tables after any call of [Step]. *)
Lemma Step_post {T} `{!Codec T} ctx id (fn : Body U T) w :
  ((Step ctx id fn w).1.1 = (assignSeq ctx id).2 ∨
   ∃ out, (Step ctx id fn w).1.1
          = cacheStep (assignSeq ctx id).2
              (generateStepKey id (assignSeq ctx id).1) out) ∧
  step_db_post (WorkflowID ctx) (generateStepKey id (assignSeq ctx id).1) id
    (assignSeq ctx id).1 (db w) (db (Step ctx id fn w).2).
Proof.
  destruct (Step ctx id fn w) as [[ctx' res] w'] eqn:HS. simpl.
  unfold Step in HS. pose proof (assignSeq_WorkflowID ctx id) as Hwid.
  destruct (assignSeq ctx id) as [seqNum ctx1]; simpl in *.
  set (stepKey := generateStepKey id seqNum) in *.
  destruct (completedSteps ctx1 !! stepKey) as [cached|].
  { destruct (Unmarshal cached) as [result [e|]]; run_ret HS;
      (split; [by left | apply step_db_post_same]). }
  run_bind HS.
  destruct (GetStep_post (WorkflowID ctx1) stepKey w) as (Hd & _ & _ & Hr).
  destruct (GetStep _ _ w) as [[[out found] err] w1]; simpl in *.
  rewrite <- Hd, <- Hwid.
  destruct err as [e|];
    [run_ret HS; split; [by left | apply step_db_post_same]|].
  destruct found.
  { destruct (Unmarshal out) as [result [e|]]; run_ret HS;
      (split; [eauto | apply step_db_post_same]). }
  run_bind HS. unfold MarkStepInProgress in HS.
  destruct (retryOnBusy_post "steps"
              (upsert_in_progress (WorkflowID ctx1) stepKey id seqNum) w1)
    as (_ & _ & Hm).
  destruct (retryOnBusy _ w1) as [err w2]; simpl in *.
  destruct Hm as [[-> Hm]|[[e ->] Hm]];
    [|run_ret HS; split; [by left | rewrite Hm; apply step_db_post_same]].
  run_bind HS. rewrite call_post in HS.
  destruct (fn (user w2)) as [[result err] u']; simpl in HS.
  set (w3 := mkWorld _ _ _ _) in HS.
  assert (db w3 = db w2) as Hd3 by done. clearbody w3.
  destruct err as [e|].
  { run_bind HS. unfold SaveStepError in HS.
    destruct (retryOnBusy_post "steps"
                (update_failed (WorkflowID ctx1) stepKey (Error e)) w3)
      as (_ & _ & Hs).
    destruct (retryOnBusy _ w3) as [err w4]; run_ret HS.
    split; [by left|].
    destruct Hs as [[_ ->]|[_ ->]]; rewrite Hd3, Hm.
    - apply step_db_post_failed.
    - apply step_db_post_marked. }
  destruct (Marshal result) as [out' [e|]].
  { run_ret HS. split; [by left|]. rewrite Hd3, Hm. apply step_db_post_marked. }
  run_bind HS. unfold SaveStep in HS.
  destruct (retryOnBusy_post "steps"
              (update_completed (WorkflowID ctx1) stepKey out') w3)
    as (_ & _ & Hs).
  destruct (retryOnBusy _ w3) as [err w4]; simpl in *.
  destruct Hs as [[-> Hs]|[[e ->] Hs]]; run_ret HS; rewrite Hs, Hd3, Hm.
  - split; [eauto|]. apply step_db_post_completed.
  - split; [by left|]. apply step_db_post_marked.
Qed.

End step_facts.

(** ** The tables under the statements of [Step] *)

Section table_facts.

Implicit Types (d : DB) (r : StepRow).

Lemma ident_set_in_progress r : ident (set_in_progress r) = ident r.
Proof. done. Qed.

Lemma upsert_in_progress_idents workflowID stepKey stepID seqNum d :
  ident <$> steps (upsert_in_progress workflowID stepKey stepID seqNum d)
  = ident <$> steps d ∨
  ident <$> steps (upsert_in_progress workflowID stepKey stepID seqNum d)
  = (ident <$> steps d) ++ [(workflowID, stepID, seqNum, stepKey)].
Proof.
  unfold upsert_in_progress. destruct (existsb _ _); simpl.
  - left. rewrite <- list_fmap_compose. apply list_fmap_ext.
    intros _ r _. simpl. by destruct (bool_decide _).
  - right. by rewrite fmap_app.
Qed.

Lemma update_completed_idents workflowID stepKey out d :
  ident <$> steps (update_completed workflowID stepKey out d)
  = ident <$> steps d.
Proof.
  unfold update_completed; simpl. rewrite <- list_fmap_compose.
  apply list_fmap_ext. intros _ r _. simpl. by destruct (matches _ _ _).
Qed.

Lemma update_failed_idents workflowID stepKey errMsg d :
  ident <$> steps (update_failed workflowID stepKey errMsg d)
  = ident <$> steps d.
Proof.
  unfold update_failed; simpl. rewrite <- list_fmap_compose.
  apply list_fmap_ext. intros _ r _. simpl. by destruct (matches _ _ _).
Qed.

(** A call of [Step] leaves the identifying columns of all rows as they
    are and adds at most the row of its own marker. *)
Lemma step_db_post_idents workflowID stepKey stepID seqNum d d' :
  step_db_post workflowID stepKey stepID seqNum d d' →
  ident <$> steps d' = ident <$> steps d ∨
  ident <$> steps d'
  = (ident <$> steps d) ++ [(workflowID, stepID, seqNum, stepKey)].
Proof.
  intros [->|[->|[[errMsg ->]|[out ->]]]];
    rewrite ?update_failed_idents, ?update_completed_idents;
    auto using upsert_in_progress_idents.
Qed.

Lemma elem_of_idents r d : r ∈ steps d → ident r ∈ ident <$> steps d.
Proof. apply list_elem_of_fmap_2. Qed.

Lemma idents_elem_of i d :
  i ∈ ident <$> steps d → ∃ r, r ∈ steps d ∧ ident r = i.
Proof. intros (r & -> & Hr)%list_elem_of_fmap. eauto. Qed.

Lemma step_keys_idents d : step_key <$> steps d = snd <$> (ident <$> steps d).
Proof. rewrite <- list_fmap_compose. by apply list_fmap_ext. Qed.

(** The upsert keeps the UNIQUE constraint: it appends a row only when no
    row has the key. *)
Lemma upsert_in_progress_unique workflowID stepKey stepID seqNum d :
  unique_step_keys d →
  unique_step_keys (upsert_in_progress workflowID stepKey stepID seqNum d).
Proof.
  unfold unique_step_keys, upsert_in_progress. intros Hnd.
  destruct (existsb _ _) eqn:Hex; simpl.
  - replace (step_key <$> _) with (step_key <$> steps d); [done|].
    rewrite <- list_fmap_compose. apply list_fmap_ext.
    intros _ r _. simpl. by destruct (bool_decide _).
  - rewrite fmap_app. apply NoDup_app. split_and!; [done | | apply NoDup_singleton].
    intros k (r & -> & Hin)%list_elem_of_fmap Hk%list_elem_of_singleton.
    assert (existsb (λ r, bool_decide (step_key r = stepKey)) (steps d) = true)
      as Htrue; [|congruence].
    apply existsb_exists. exists r.
    split; [by apply list_elem_of_In | by apply bool_decide_eq_true].
Qed.

(** Every call of [Step] keeps the UNIQUE constraint. *)
Lemma step_db_post_unique workflowID stepKey stepID seqNum d d' :
  step_db_post workflowID stepKey stepID seqNum d d' →
  unique_step_keys d → unique_step_keys d'.
Proof.
  intros Hpost Hnd.
  pose proof (upsert_in_progress_unique workflowID stepKey stepID seqNum d Hnd)
    as Hup.
  unfold unique_step_keys in *.
  destruct Hpost as [->|[->|[[errMsg ->]|[out ->]]]]; [done | done | |].
  - by rewrite step_keys_idents, update_failed_idents, <- step_keys_idents.
  - by rewrite step_keys_idents, update_completed_idents, <- step_keys_idents.
Qed.

Lemma same_steps_of_refl workflowID d d' :
  steps d' = steps d → same_steps_of workflowID d d'.
Proof. intros E i _. by rewrite E. Qed.

(** What holds of the identifying columns of the workflow's rows carries
    over. *)
Lemma same_steps_of_transfer workflowID d d'
    (P : string * string * Z * string → Prop) :
  same_steps_of workflowID d d' →
  (∀ r, r ∈ steps d → workflow_id r = workflowID → P (ident r)) →
  ∀ r, r ∈ steps d' → workflow_id r = workflowID → P (ident r).
Proof.
  intros Hs HP r' Hin Hw.
  apply elem_of_idents, (Hs (ident r') Hw), idents_elem_of in Hin
    as (r & Hr & Heq).
  rewrite <- Heq. apply HP; [done|].
  unfold ident in Heq. by simplify_eq.
Qed.

Lemma same_steps_of_persisted workflowID d d' id n :
  same_steps_of workflowID d d' →
  persisted workflowID id n d → persisted workflowID id n d'.
Proof.
  intros Hs (r & Hr & Hw & Hi & Hn).
  apply elem_of_idents, (Hs (ident r) Hw), idents_elem_of in Hr
    as (r' & Hr' & Heq).
  exists r'. unfold ident in Heq. by simplify_eq.
Qed.

(** The statements of a step of one workflow leave the steps of every other
    workflow in place. *)
Lemma step_db_post_other workflowID workflowID' stepKey stepID seqNum d d' :
  workflowID' ≠ workflowID →
  step_db_post workflowID' stepKey stepID seqNum d d' →
  same_steps_of workflowID d d'.
Proof.
  intros Hne [E|E]%step_db_post_idents i Hi; rewrite E; [done|].
  rewrite elem_of_app, list_elem_of_singleton. split; [by left|].
  intros [?| ->]; [done|]. by destruct Hne.
Qed.

End table_facts.

(** ** Building a context from the store *)

Section context_facts.

Context {U : Type}.
Implicit Types (w : World U) (d : DB) (r : StepRow) (ctx : Context).

Lemma elem_of_rows_of r workflowID d :
  r ∈ rows_of workflowID d ↔ r ∈ steps d ∧ workflow_id r = workflowID.
Proof.
  unfold rows_of. rewrite !list_elem_of_In, filter_In.
  by rewrite bool_decide_eq_true.
Qed.

Lemma elem_of_insert_by_sequence r x (l : list StepRow) :
  r ∈ insert_by_sequence x l ↔ r = x ∨ r ∈ l.
Proof.
  induction l as [|y l IH]; simpl.
  - rewrite list_elem_of_singleton, elem_of_nil. tauto.
  - destruct (sequence_num x <=? sequence_num y)%Z.
    + by rewrite elem_of_cons.
    + rewrite !elem_of_cons, IH. tauto.
Qed.

Lemma elem_of_select_steps r workflowID d :
  r ∈ select_steps workflowID d ↔ r ∈ steps d ∧ workflow_id r = workflowID.
Proof.
  unfold select_steps. rewrite <- elem_of_rows_of.
  induction (rows_of workflowID d) as [|x l IH]; simpl; [done|].
  by rewrite elem_of_insert_by_sequence, IH, elem_of_cons.
Qed.

Lemma select_steps_rows_of r workflowID d :
  r ∈ select_steps workflowID d ↔ r ∈ rows_of workflowID d.
Proof. by rewrite elem_of_select_steps, elem_of_rows_of. Qed.

Lemma LoadCompletedSteps_post workflowID w :
  db (LoadCompletedSteps workflowID w).2 = db w ∧
  user (LoadCompletedSteps workflowID w).2 = user w ∧
  log (LoadCompletedSteps workflowID w).2 = log w ++ [EvQuery "steps"] ∧
  ((LoadCompletedSteps workflowID w).1
   = (foldl (λ m r, <[step_key r := default [] (output r)]> m) ∅
        (select_completed workflowID (db w)), None) ∨
   ∃ e, (LoadCompletedSteps workflowID w).1 = (∅, Some e)).
Proof.
  unfold LoadCompletedSteps, mbind, M_bind.
  destruct (sqlQuery_cases "steps" (select_completed workflowID) w)
    as (fs & Hw & Hr).
  destruct (sqlQuery _ _ w) as [res w1]; simpl in *; subst.
  destruct Hr as [->|[e ->]]; simpl; split_and!; eauto.
Qed.

Lemma LoadStepIDMapping_post workflowID w :
  db (LoadStepIDMapping workflowID w).2 = db w ∧
  user (LoadStepIDMapping workflowID w).2 = user w ∧
  log (LoadStepIDMapping workflowID w).2 = log w ++ [EvQuery "steps"] ∧
  ((LoadStepIDMapping workflowID w).1
   = (foldl (λ m r, <[step_id r := sequence_num r]> m) ∅
        (select_steps workflowID (db w)), None) ∨
   ∃ e, (LoadStepIDMapping workflowID w).1 = (∅, Some e)).
Proof.
  unfold LoadStepIDMapping, mbind, M_bind.
  destruct (sqlQuery_cases "steps" (select_steps workflowID) w)
    as (fs & Hw & Hr).
  destruct (sqlQuery _ _ w) as [res w1]; simpl in *; subst.
  destruct Hr as [->|[e ->]]; simpl; split_and!; eauto.
Qed.

Lemma GetMaxSequenceNum_post workflowID w :
  db (GetMaxSequenceNum workflowID w).2 = db w ∧
  user (GetMaxSequenceNum workflowID w).2 = user w ∧
  log (GetMaxSequenceNum workflowID w).2 = log w ++ [EvQuery "steps"] ∧
  ((GetMaxSequenceNum workflowID w).1
   = (default 0%Z (select_max_sequence workflowID (db w)), None) ∨
   ∃ e, (GetMaxSequenceNum workflowID w).1 = (0%Z, Some e)).
Proof.
  unfold GetMaxSequenceNum, mbind, M_bind.
  destruct (sqlQuery_cases "steps" (select_max_sequence workflowID) w)
    as (fs & Hw & Hr).
  destruct (sqlQuery _ _ w) as [res w1]; simpl in *; subst.
  destruct Hr as [->|[e ->]]; simpl; [|split_and!; eauto].
  destruct (select_max_sequence workflowID (db w)); simpl; split_and!; eauto.
Qed.

(** A context comes out of [newContext] only when the three queries went
    through, and then it holds what they returned. *)
Lemma newContext_inl workflowID w ctx0 w0 :
  newContext workflowID w = (inl ctx0, w0) →
  db w0 = db w ∧ user w0 = user w ∧
  ctx0 = mkContext workflowID
           (default 0%Z (select_max_sequence workflowID (db w)))
           (foldl (λ m r, <[step_key r := default [] (output r)]> m) ∅
              (select_completed workflowID (db w)))
           (foldl (λ m r, <[step_id r := sequence_num r]> m) ∅
              (select_steps workflowID (db w))).
Proof.
  unfold newContext. intros HN. run_bind HN.
  destruct (LoadCompletedSteps_post workflowID w) as (Hd1 & Hu1 & _ & Hr1).
  destruct (LoadCompletedSteps workflowID w) as [[cs err1] w1]; simpl in *.
  destruct Hr1 as [?|[e ?]]; simplify_eq.
  run_bind HN.
  destruct (LoadStepIDMapping_post workflowID w1) as (Hd2 & Hu2 & _ & Hr2).
  destruct (LoadStepIDMapping workflowID w1) as [[ms err2] w2]; simpl in *.
  destruct Hr2 as [?|[e ?]]; simplify_eq.
  run_bind HN.
  destruct (GetMaxSequenceNum_post workflowID w2) as (Hd3 & Hu3 & _ & Hr3).
  destruct (GetMaxSequenceNum workflowID w2) as [[mx err3] w3]; simpl in *.
  destruct Hr3 as [?|[e ?]]; simplify_eq.
  run_ret HN. rewrite Hd3, Hd2, Hd1, Hu3, Hu2, Hu1. done.
Qed.

Lemma load_mapping_lookup (l : list StepRow) (m0 : gmap string Z) id n :
  foldl (λ m r, <[step_id r := sequence_num r]> m) m0 l !! id = Some n →
  m0 !! id = Some n ∨ ∃ r, r ∈ l ∧ step_id r = id ∧ sequence_num r = n.
Proof.
  revert m0. induction l as [|x l IH]; intros m0 H; simpl in *; [by left|].
  apply IH in H as [H|(r & Hr & ? & ?)].
  - destruct (decide (step_id x = id)) as [<-|Hne].
    + rewrite lookup_insert_eq in H. simplify_eq.
      right. exists x. split; [left | done].
    + rewrite lookup_insert_ne in H by done. by left.
  - right. exists r. split; [by right | done].
Qed.

Lemma load_mapping_covers (l : list StepRow) (m0 : gmap string Z) r :
  (∀ r1 r2, r1 ∈ l → r2 ∈ l → step_id r1 = step_id r2 →
            sequence_num r1 = sequence_num r2) →
  r ∈ l →
  foldl (λ m r, <[step_id r := sequence_num r]> m) m0 l !! step_id r
  = Some (sequence_num r).
Proof.
  revert m0 r. induction l as [|x l IH] using rev_ind; intros m0 r Hf Hr.
  - by apply elem_of_nil in Hr.
  - rewrite foldl_app. simpl.
    destruct (decide (step_id x = step_id r)) as [Heq|Hne].
    + rewrite Heq, lookup_insert_eq. f_equal.
      apply Hf; [apply elem_of_app; right; by left | done | done].
    + rewrite lookup_insert_ne by done.
      apply IH; [intros; apply Hf; try done; apply elem_of_app; by left|].
      apply elem_of_app in Hr as [?|Hr]; [done|].
      apply list_elem_of_singleton in Hr. congruence.
Qed.

Lemma covers_functional ctx d r1 r2 :
  covers ctx d → r1 ∈ steps d → r2 ∈ steps d →
  workflow_id r1 = WorkflowID ctx → workflow_id r2 = WorkflowID ctx →
  step_id r1 = step_id r2 → sequence_num r1 = sequence_num r2.
Proof.
  intros Hc H1 H2 Hw1 Hw2 Hid.
  pose proof (Hc r1 H1 Hw1) as E1. pose proof (Hc r2 H2 Hw2) as E2.
  rewrite Hid in E1. congruence.
Qed.

(** A restart keeps what the previous context of the workflow knew about
    the stored steps. *)
Lemma newContext_covers ctx w ctx' w' :
  covers ctx (db w) →
  newContext (WorkflowID ctx) w = (inl ctx', w') →
  WorkflowID ctx' = WorkflowID ctx ∧ db w' = db w ∧ covers ctx' (db w').
Proof.
  intros Hc (Hd & _ & ->)%newContext_inl. split_and!; [done..|].
  rewrite Hd. intros r Hr Hw. simpl in *.
  apply load_mapping_covers; [|by apply elem_of_select_steps].
  intros r1 r2 [??]%elem_of_select_steps [??]%elem_of_select_steps.
  by apply (covers_functional ctx (db w)).
Qed.

(** A call of [Step] keeps the context in step with the store: the only
    row it can add is the marker for the sequence number it has just
    looked up or assigned. *)
Lemma Step_covers {T} `{!Codec T} ctx id (fn : Body U T) w :
  covers ctx (db w) →
  WorkflowID (Step ctx id fn w).1.1 = WorkflowID ctx ∧
  covers (Step ctx id fn w).1.1 (db (Step ctx id fn w).2) ∧
  stepIDToSeq (Step ctx id fn w).1.1 = stepIDToSeq (assignSeq ctx id).2 ∧
  sequenceNum (Step ctx id fn w).1.1 = sequenceNum (assignSeq ctx id).2.
Proof.
  intros Hc. destruct (Step_post ctx id fn w) as [Hctx Hdb].
  apply step_db_post_idents in Hdb.
  assert (WorkflowID (Step ctx id fn w).1.1 = WorkflowID ctx ∧
          stepIDToSeq (Step ctx id fn w).1.1 = stepIDToSeq (assignSeq ctx id).2 ∧
          sequenceNum (Step ctx id fn w).1.1 = sequenceNum (assignSeq ctx id).2)
    as (HW & HM & HS).
  { destruct Hctx as [->|[out ->]]; simpl; by rewrite assignSeq_WorkflowID. }
  split_and!; [done | | done..].
  intros r Hr Hw. rewrite HM. rewrite HW in Hw.
  apply elem_of_idents in Hr.
  assert (ident r ∈ ident <$> steps (db w) ∨
          ident r = (WorkflowID ctx, id, (assignSeq ctx id).1,
                     generateStepKey id (assignSeq ctx id).1)) as [Hin|Heq].
  { destruct Hdb as [E|E]; rewrite E in Hr; [by left|].
    apply elem_of_app in Hr as [?|Hr]; [by left|].
    right. by apply list_elem_of_singleton in Hr. }
  - apply idents_elem_of in Hin as (r0 & Hr0 & Hi).
    unfold ident in Hi. simplify_eq.
    replace (step_id r) with (step_id r0) by congruence.
    replace (sequence_num r) with (sequence_num r0) by congruence.
    apply assignSeq_keeps, Hc; [done | congruence].
  - unfold ident in Heq. simplify_eq.
    replace (sequence_num r) with (assignSeq ctx (step_id r)).1 by done.
    apply assignSeq_lookup.
Qed.

(** A context built from a store in which no step id of the workflow has
    two sequence numbers agrees with that store; the empty store is one. *)
Lemma newContext_covers_fresh workflowID w ctx0 w0 :
  (∀ r1 r2, r1 ∈ rows_of workflowID (db w) → r2 ∈ rows_of workflowID (db w) →
            step_id r1 = step_id r2 → sequence_num r1 = sequence_num r2) →
  newContext workflowID w = (inl ctx0, w0) →
  covers ctx0 (db w0).
Proof.
  intros Hf (Hd & _ & ->)%newContext_inl. rewrite Hd.
  intros r Hr Hw. simpl in *.
  apply load_mapping_covers; [|by apply elem_of_select_steps].
  intros r1 r2 H1%elem_of_select_steps H2%elem_of_select_steps.
  apply Hf; by apply elem_of_rows_of.
Qed.

Lemma Step_unique_step_keys {T} `{!Codec T} ctx id (fn : Body U T) w :
  unique_step_keys (db w) → unique_step_keys (db (Step ctx id fn w).2).
Proof.
  destruct (Step_post ctx id fn w) as [_ Hdb]. by eapply step_db_post_unique.
Qed.

(** A step of another workflow neither adds nor removes steps of this
    one. *)
Lemma Step_other_workflow {T} `{!Codec T} ctx id (fn : Body U T) w workflowID :
  WorkflowID ctx ≠ workflowID →
  same_steps_of workflowID (db w) (db (Step ctx id fn w).2).
Proof.
  intros Hne. destruct (Step_post ctx id fn w) as [_ Hdb].
  by eapply step_db_post_other.
Qed.

Lemma Step_persisted {T} `{!Codec T} ctx id (fn : Body U T) w workflowID id' n :
  persisted workflowID id' n (db w) →
  persisted workflowID id' n (db (Step ctx id fn w).2).
Proof.
  intros (r & Hr & Hw & Hi & Hn).
  destruct (Step_post ctx id fn w) as [_ Hdb].
  apply step_db_post_idents in Hdb. apply elem_of_idents in Hr.
  assert (ident r ∈ ident <$> steps (db (Step ctx id fn w).2)) as Hin.
  { destruct Hdb as [E|E]; rewrite E; [done | apply elem_of_app; by left]. }
  apply idents_elem_of in Hin as (r' & Hr' & Hi').
  exists r'. unfold ident in Hi'. simplify_eq. done.
Qed.

End context_facts.

(** X25. A stored sequence number is found again.  Take a context that
    agrees with the store on the steps of its workflow, and a step id for
    which the workflow has a row with sequence number [n] in table [steps].
    Then at every later moment (after any calls of [Step] on the context,
    after restarts that build a fresh context for the workflow from the
    store, and after any activity that leaves table [steps] alone) a call
    of [Step] with that id looks up the same number [n], and the row is
    still stored.  Nothing is said of a step whose marker went to a row of
    another workflow: the workflow has no row for it. *)
Theorem sequence_number_stable {U : Type} (ctx ctx' : Context)
    (w w' : World U) (id : string) (n : Z) :
  covers ctx (db w) →
  persisted (WorkflowID ctx) id n (db w) →
  later (λ _, True) (ctx, w) (ctx', w') →
  WorkflowID ctx' = WorkflowID ctx ∧
  (assignSeq ctx' id).1 = n ∧
  persisted (WorkflowID ctx') id n (db w').
Proof.
  intros Hc Hp Hl.
  cut (WorkflowID ctx' = WorkflowID ctx ∧ covers ctx' (db w') ∧
       persisted (WorkflowID ctx) id n (db w')).
  { intros (HW & Hc' & Hp'). rewrite HW. split_and!; [done | | done].
    destruct Hp' as (r & Hr & Hw & <- & <-).
    unfold assignSeq. rewrite (Hc' r Hr); [done | congruence]. }
  remember (ctx, w) as cw eqn:E0. remember (ctx', w') as cw' eqn:E1.
  revert ctx' w' E1.
  induction Hl as [cw|cw c1 w1 T C id1 fn _ IH _
                  |cw c1 w1 c2 w2 _ IH HN|cw c1 w1 w2 _ IH Hs];
    intros ctx' w' E1; subst cw.
  - by simplify_eq.
  - destruct (IH eq_refl c1 w1 eq_refl) as (HW & Hc1 & Hp1).
    destruct (Step_covers c1 id1 fn w1 Hc1) as (HW' & Hc' & _).
    simplify_eq. split_and!; [congruence | done |].
    by apply Step_persisted.
  - destruct (IH eq_refl c1 w1 eq_refl) as (HW & Hc1 & Hp1).
    destruct (newContext_covers c1 w1 c2 w2 Hc1 HN) as (HW' & Hd & Hc').
    simplify_eq. split_and!; [congruence | done |]. by rewrite Hd.
  - destruct (IH eq_refl c1 w1 eq_refl) as (HW & Hc1 & Hp1).
    simplify_eq. split_and!; [done | |].
    + intros r Hr Hw.
      by apply (same_steps_of_transfer _ _ _
                  (λ i, stepIDToSeq ctx' !! i.1.1.2 = Some i.1.2) Hs).
    + rewrite HW in Hs. by apply (same_steps_of_persisted _ _ _ _ _ Hs).
Qed.

(** ** The sequence counter *)

Section counter_facts.

Context {U : Type}.
Implicit Types (w : World U) (d : DB) (r : StepRow) (ctx : Context).

(** An int64 counter below the largest int64 is incremented without
    wrap-around. *)
Lemma no_wrap_below_max ctx :
  (- 2 ^ 63 ≤ sequenceNum ctx < max_int64)%Z → no_wrap ctx.
Proof.
  unfold no_wrap, wrap64, max_int64. intros Hr.
  rewrite Z.mod_small by lia. lia.
Qed.

Lemma select_max_sequence_None workflowID d :
  select_max_sequence workflowID d = None ↔ rows_of workflowID d = [].
Proof.
  unfold select_max_sequence. by destruct (rows_of workflowID d).
Qed.

Lemma select_max_sequence_upper workflowID d m r :
  select_max_sequence workflowID d = Some m →
  r ∈ rows_of workflowID d → (sequence_num r ≤ m)%Z.
Proof.
  unfold select_max_sequence. revert m.
  induction (rows_of workflowID d) as [|x l IH]; intros m Hm Hr; simpl in *.
  - by apply elem_of_nil in Hr.
  - apply elem_of_cons in Hr as [->|Hr].
    + destruct (foldr _ _ _); simplify_eq; lia.
    + destruct (foldr _ _ _) as [m'|] eqn:E; simplify_eq.
      * specialize (IH m' eq_refl Hr). lia.
      * destruct l; [by apply elem_of_nil in Hr | done].
Qed.

Lemma select_max_sequence_attained workflowID d m :
  select_max_sequence workflowID d = Some m →
  ∃ r, r ∈ rows_of workflowID d ∧ sequence_num r = m.
Proof.
  unfold select_max_sequence. revert m.
  induction (rows_of workflowID d) as [|x l IH]; intros m Hm; simpl in *;
    [done|].
  destruct (foldr _ _ _) as [m'|] eqn:E; simplify_eq.
  - destruct (Z.max_spec (sequence_num x) m') as [[_ Heq]|[_ Heq]]; rewrite Heq.
    + destruct (IH m' eq_refl) as (r & Hr & ?). exists r. split; [by right|done].
    + exists x. split; [by left | done].
  - exists x. split; [by left | done].
Qed.

Lemma newContext_counter_bounds workflowID w ctx0 w0 :
  newContext workflowID w = (inl ctx0, w0) →
  WorkflowID ctx0 = workflowID ∧ db w0 = db w ∧ counter_bounds ctx0 (db w0).
Proof.
  intros (Hd & _ & ->)%newContext_inl. split_and!; [done..|].
  rewrite Hd. unfold counter_bounds; simpl.
  assert (∀ r, r ∈ rows_of workflowID (db w) →
               (sequence_num r ≤ default 0 (select_max_sequence workflowID (db w)))%Z)
    as Hub.
  { intros r Hr.
    destruct (select_max_sequence workflowID (db w)) as [m|] eqn:E; simpl.
    - by eapply select_max_sequence_upper.
    - apply select_max_sequence_None in E. rewrite E in Hr.
      by apply elem_of_nil in Hr. }
  split.
  - intros id n [Hl|(r & Hr & _ & <-)]%load_mapping_lookup; [done|].
    by apply Hub, select_steps_rows_of.
  - intros r Hr Hw. apply Hub. by apply elem_of_rows_of.
Qed.

Lemma Step_context_fields {T} `{!Codec T} ctx id (fn : Body U T) w :
  WorkflowID (Step ctx id fn w).1.1 = WorkflowID ctx ∧
  stepIDToSeq (Step ctx id fn w).1.1 = stepIDToSeq (assignSeq ctx id).2 ∧
  sequenceNum (Step ctx id fn w).1.1 = sequenceNum (assignSeq ctx id).2.
Proof.
  destruct (Step_post ctx id fn w) as [[->|[out ->]] _]; simpl;
    by rewrite assignSeq_WorkflowID.
Qed.

Lemma assignSeq_counter_bounds ctx id d :
  counter_bounds ctx d → no_wrap ctx →
  counter_bounds (assignSeq ctx id).2 d ∧
  ((assignSeq ctx id).1 ≤ sequenceNum (assignSeq ctx id).2)%Z.
Proof.
  intros [Hm Hr] Hnw. unfold assignSeq.
  destruct (stepIDToSeq ctx !! id) as [n|] eqn:E; simpl.
  - split; [done | by apply (Hm id)].
  - rewrite Hnw. split; [split|lia]; simpl.
    + intros id' n. destruct (decide (id = id')) as [->|Hne].
      * rewrite lookup_insert_eq. intros [= <-]. lia.
      * rewrite lookup_insert_ne by done. intros H%Hm. lia.
    + intros r Hin Hw. specialize (Hr r Hin Hw). lia.
Qed.

Lemma Step_counter_bounds {T} `{!Codec T} ctx id (fn : Body U T) w :
  counter_bounds ctx (db w) → no_wrap ctx →
  counter_bounds (Step ctx id fn w).1.1 (db (Step ctx id fn w).2).
Proof.
  intros Hb Hnw.
  destruct (assignSeq_counter_bounds ctx id (db w) Hb Hnw) as [[Hm Hr] Hle].
  destruct (Step_context_fields ctx id fn w) as (HW & HM & HS).
  destruct (Step_post ctx id fn w) as [_ Hdb%step_db_post_idents].
  unfold counter_bounds. rewrite HW, HM, HS. split; [done|].
  intros r Hin%elem_of_idents Hw.
  assert (ident r ∈ ident <$> steps (db w) ∨
          sequence_num r = (assignSeq ctx id).1) as [Hin' | ->].
  { destruct Hdb as [E|E]; rewrite E in Hin; [by left|].
    apply elem_of_app in Hin as [?|Hin]; [by left|].
    right. apply list_elem_of_singleton in Hin.
    unfold ident in Hin. by simplify_eq. }
  - apply idents_elem_of in Hin' as (r0 & Hr0 & Hi).
    unfold ident in Hi. simplify_eq.
    replace (sequence_num r) with (sequence_num r0) by congruence.
    apply Hr; [done|]. rewrite assignSeq_WorkflowID. congruence.
  - done.
Qed.

Lemma Step_well_keyed {T} `{!Codec T} ctx id (fn : Body U T) w :
  well_keyed (WorkflowID ctx) (db w) →
  well_keyed (WorkflowID ctx) (db (Step ctx id fn w).2).
Proof.
  intros Hk r Hin%elem_of_idents Hw.
  destruct (Step_post ctx id fn w) as [_ Hdb%step_db_post_idents].
  assert (ident r ∈ ident <$> steps (db w) ∨
          ident r = (WorkflowID ctx, id, (assignSeq ctx id).1,
                     generateStepKey id (assignSeq ctx id).1)) as [Hin'|Heq].
  { destruct Hdb as [E|E]; rewrite E in Hin; [by left|].
    apply elem_of_app in Hin as [?|Hin]; [by left|].
    right. by apply list_elem_of_singleton in Hin. }
  - apply idents_elem_of in Hin' as (r0 & Hr0 & Hi).
    unfold ident in Hi. simplify_eq.
    replace (step_key r) with (step_key r0) by congruence.
    replace (step_id r) with (step_id r0) by congruence.
    replace (sequence_num r) with (sequence_num r0) by congruence.
    apply Hk; [done | congruence].
  - unfold ident in Heq. injection Heq as _ Hi Hn Hkey. congruence.
Qed.

Lemma later_counter_bounds ctx w ctx' w' :
  counter_bounds ctx (db w) → well_keyed (WorkflowID ctx) (db w) →
  later no_wrap (ctx, w) (ctx', w') →
  WorkflowID ctx' = WorkflowID ctx ∧ counter_bounds ctx' (db w') ∧
  well_keyed (WorkflowID ctx) (db w').
Proof.
  intros Hb Hk Hl.
  remember (ctx, w) as cw eqn:E0. remember (ctx', w') as cw' eqn:E1.
  revert ctx' w' E1.
  induction Hl as [cw|cw c1 w1 T C id1 fn _ IH Hnw
                  |cw c1 w1 c2 w2 _ IH HN|cw c1 w1 w2 _ IH Hs];
    intros ctx' w' E1; subst cw.
  - by simplify_eq.
  - destruct (IH eq_refl c1 w1 eq_refl) as (HW & Hb1 & Hk1).
    destruct (Step_context_fields c1 id1 fn w1) as (HW' & _).
    simplify_eq. split_and!; [congruence | |].
    + by apply Step_counter_bounds.
    + rewrite <- HW. apply Step_well_keyed. by rewrite HW.
  - destruct (IH eq_refl c1 w1 eq_refl) as (HW & Hb1 & Hk1).
    destruct (newContext_counter_bounds _ _ _ _ HN) as (HW' & Hd & Hb').
    simplify_eq. split_and!; [congruence | done |]. by rewrite Hd.
  - destruct (IH eq_refl c1 w1 eq_refl) as (HW & [Hm Hr] & Hk1).
    simplify_eq. split_and!; [done | split; [done|] |].
    + intros r Hin Hw.
      by apply (same_steps_of_transfer _ _ _
                  (λ i, (i.1.2 ≤ sequenceNum ctx')%Z) Hs).
    + rewrite <- HW. rewrite <- HW in Hk1. intros r Hin Hw.
      by apply (same_steps_of_transfer _ _ _
                  (λ i, i.2 = generateStepKey i.1.1.2 i.1.2) Hs).
Qed.

End counter_facts.

(** C5. The counter is seeded with the largest stored sequence number and
    hands out fresh numbers.  For a workflow without step records
    [GetMaxSequenceNum] returns 0.  A context built by [newContext] starts
    its counter at the maximum of the sequence numbers stored for the
    workflow (0 when there is none).  At every later moment of that context
    (and of the contexts that replace it after a restart), as long as the
    counter has not run through the int64 range, the number assigned to a
    step id the context has not seen is strictly greater than every sequence
    number stored for the workflow, and the key generated from it is the key
    of no stored record of the workflow. *)
Theorem new_sequence_numbers_fresh {U : Type} (workflowID : string)
    (w w0 w' : World U) (ctx0 ctx' : Context) (id : string) :
  well_keyed workflowID (db w) →
  newContext workflowID w = (inl ctx0, w0) →
  later no_wrap (ctx0, w0) (ctx', w') →
  stepIDToSeq ctx' !! id = None →
  no_wrap ctx' →
  (rows_of workflowID (db w) = [] →
   (GetMaxSequenceNum workflowID w).1.1 = 0%Z ∧
   (faults w = [] → (GetMaxSequenceNum workflowID w).1.2 = None) ∧
   sequenceNum ctx0 = 0%Z) ∧
  (∀ r, r ∈ rows_of workflowID (db w) → (sequence_num r ≤ sequenceNum ctx0)%Z) ∧
  (rows_of workflowID (db w) ≠ [] →
   ∃ r, r ∈ rows_of workflowID (db w) ∧ sequence_num r = sequenceNum ctx0) ∧
  (assignSeq ctx' id).1 = (sequenceNum ctx' + 1)%Z ∧
  ∀ r, r ∈ steps (db w') → workflow_id r = workflowID →
       (sequence_num r < (assignSeq ctx' id).1)%Z ∧
       step_key r ≠ generateStepKey id (assignSeq ctx' id).1.
Proof.
  intros Hk HN Hl Hnew Hnw.
  destruct (newContext_counter_bounds _ _ _ _ HN) as (HW0 & Hd0 & Hb0).
  pose proof HN as (_ & _ & Hctx0)%newContext_inl.
  assert (sequenceNum ctx0 = default 0%Z (select_max_sequence workflowID (db w)))
    as Hseed by (by rewrite Hctx0).
  split_and!.
  - intros Hnone. apply select_max_sequence_None in Hnone. split_and!.
    + destruct (GetMaxSequenceNum_post workflowID w) as (_ & _ & _ & [->|[e ->]]);
        [|done].
      by rewrite Hnone.
    + intros Hf. destruct w as [d fs u l]; simpl in *; subst fs.
      unfold GetMaxSequenceNum, mbind, M_bind. rewrite sqlQuery_healthy.
      by rewrite Hnone.
    + by rewrite Hseed, Hnone.
  - intros r Hr. apply elem_of_rows_of in Hr as [Hr Hw].
    destruct Hb0 as [_ Hb0]. apply Hb0; [by rewrite Hd0 | congruence].
  - intros Hne. rewrite Hseed.
    destruct (select_max_sequence workflowID (db w)) as [m|] eqn:E.
    + by apply select_max_sequence_attained.
    + by apply select_max_sequence_None in E.
  - unfold assignSeq. by rewrite Hnew.
  - rewrite <- Hd0, <- HW0 in Hk.
    destruct (later_counter_bounds _ _ _ _ Hb0 Hk Hl) as (HW & [_ Hr] & Hk').
    assert ((assignSeq ctx' id).1 = (sequenceNum ctx' + 1)%Z) as ->.
    { unfold assignSeq. by rewrite Hnew. }
    intros r Hin Hw.
    assert (sequence_num r ≤ sequenceNum ctx')%Z as Hle by (apply Hr; congruence).
    split; [lia|].
    rewrite (Hk' r Hin) by congruence. intros [_ Heq]%generateStepKey_eq_inv. lia.
Qed.

(** ** [Step] on a store that answers *)

Section step_runs.

Context {U : Type} {T : Type} `{!Codec T}.
Implicit Types (w : World U) (d : DB) (u : U) (l : list event)
  (r : StepRow) (ctx : Context) (fn : Body U T).

(** The cached result is served without touching the world, apart from
    the line printed. *)
Lemma Step_cached ctx id fn w cached :
  completedSteps ctx !! generateStepKey id (assignSeq ctx id).1 = Some cached →
  Step ctx id fn w
  = match Unmarshal cached with
    | (_, Some e) =>
        (((assignSeq ctx id).2,
          (zero, Some (wrapError "failed to unmarshal cached result" e))), w)
    | (result, None) =>
        (((assignSeq ctx id).2, (result, None)),
         mkWorld (db w) (faults w) (user w) (log w ++ [EvPrint (skipped id)]))
    end.
Proof.
  intros Hc. unfold Step.
  rewrite <- (assignSeq_completedSteps ctx id) in Hc.
  destruct (assignSeq ctx id) as [seqNum ctx1]; simpl in *. rewrite Hc.
  by destruct (Unmarshal cached) as [result [e|]].
Qed.

(** With no cached output, no completed record and a driver that reports
    no error, the marker is written and the function runs. *)
Lemma Step_runs ctx id fn d u l :
  completedSteps ctx !! generateStepKey id (assignSeq ctx id).1 = None →
  (getStep_result (WorkflowID ctx)
     (generateStepKey id (assignSeq ctx id).1) d).2 = false →
  Step ctx id fn (mkWorld d [] u l)
  = let seqNum := (assignSeq ctx id).1 in
    let ctx1 := (assignSeq ctx id).2 in
    let stepKey := generateStepKey id seqNum in
    let d1 := upsert_in_progress (WorkflowID ctx) stepKey id seqNum d in
    let l1 := ((l ++ [EvQuery "steps"]) ++ [EvExec "steps"])
              ++ [EvBody (WorkflowID ctx) id] in
    match fn u with
    | ((_, Some e), u') =>
        ((ctx1, (zero, Some e)),
         mkWorld (update_failed (WorkflowID ctx) stepKey (Error e) d1) [] u'
           (l1 ++ [EvExec "steps"]))
    | ((result, None), u') =>
        match Marshal result with
        | (_, Some e) =>
            ((ctx1, (zero, Some (wrapError "failed to marshal result" e))),
             mkWorld d1 [] u' l1)
        | (out, None) =>
            ((cacheStep ctx1 stepKey out, (result, None)),
             mkWorld (update_completed (WorkflowID ctx) stepKey out d1) [] u'
               (l1 ++ [EvExec "steps"]))
        end
    end.
Proof.
  intros Hc Hg. unfold Step.
  rewrite <- (assignSeq_completedSteps ctx id) in Hc.
  rewrite <- (assignSeq_WorkflowID ctx id) in *.
  destruct (assignSeq ctx id) as [seqNum ctx1]; simpl in *. rewrite Hc.
  unfold mbind at 1, M_bind at 1.
  assert (GetStep (WorkflowID ctx1) (generateStepKey id seqNum)
            (mkWorld d [] u l)
          = (([], false, None), mkWorld d [] u (l ++ [EvQuery "steps"])))
    as ->.
  { unfold GetStep, mbind, M_bind. rewrite sqlQuery_healthy.
    unfold getStep_result in Hg.
    destruct (select_step _ _ d) as [r|]; [|done].
    by destruct (bool_decide _). }
  unfold mbind at 1, M_bind at 1, MarkStepInProgress.
  rewrite retryOnBusy_healthy.
  unfold mbind at 1, M_bind at 1. rewrite call_post. simpl.
  destruct (fn u) as [[result [e|]] u']; simpl.
  - unfold mbind at 1, M_bind at 1, SaveStepError.
    by rewrite retryOnBusy_healthy.
  - destruct (Marshal result) as [out [e|]]; [done|].
    unfold mbind at 1, M_bind at 1, SaveStep.
    by rewrite retryOnBusy_healthy.
Qed.

End step_runs.

Section row_facts.

Implicit Types (d : DB) (r : StepRow).

Lemma select_step_Some workflowID stepKey d r :
  select_step workflowID stepKey d = Some r →
  r ∈ steps d ∧ workflow_id r = workflowID ∧ step_key r = stepKey.
Proof.
  unfold select_step. intros [Hin Hm]%find_some.
  apply list_elem_of_In in Hin. unfold matches in Hm.
  apply andb_true_iff in Hm as [?%bool_decide_eq_true ?%bool_decide_eq_true].
  done.
Qed.

Lemma select_step_None workflowID stepKey d r :
  select_step workflowID stepKey d = None → r ∈ steps d →
  ¬ (workflow_id r = workflowID ∧ step_key r = stepKey).
Proof.
  unfold select_step. intros Hn Hin%list_elem_of_In [Hw Hk].
  pose proof (find_none _ _ Hn r Hin) as Hm. unfold matches in Hm.
  rewrite !bool_decide_eq_true_2 in Hm by done. done.
Qed.

(** Under the UNIQUE constraint the row selected for a key is the only
    row with that key. *)
Lemma select_step_unique workflowID stepKey d r :
  unique_step_keys d → r ∈ steps d →
  workflow_id r = workflowID → step_key r = stepKey →
  select_step workflowID stepKey d = Some r.
Proof.
  unfold unique_step_keys, select_step. intros Hnd Hin Hw Hk.
  induction (steps d) as [|x l IH]; [by apply elem_of_nil in Hin|].
  rewrite fmap_cons in Hnd. apply NoDup_cons in Hnd as [Hx Hnd]. simpl.
  apply elem_of_cons in Hin as [->|Hin].
  - unfold matches. by rewrite !bool_decide_eq_true_2.
  - destruct (matches workflowID stepKey x) eqn:Hm; [|by apply IH].
    exfalso. apply Hx. unfold matches in Hm.
    apply andb_true_iff in Hm as [_ ->%bool_decide_eq_true].
    rewrite <- Hk. by apply list_elem_of_fmap_2.
Qed.

Lemma update_completed_absent workflowID stepKey out d :
  (∀ r, r ∈ steps d → ¬ (workflow_id r = workflowID ∧ step_key r = stepKey)) →
  update_completed workflowID stepKey out d = d.
Proof.
  intros Hno. destruct d as [ws rows]. unfold update_completed; simpl in *.
  f_equal. rewrite <- (map_id rows) at 2. apply map_ext_in.
  intros r Hin%list_elem_of_In. unfold matches.
  destruct (decide (workflow_id r = workflowID)) as [Hw|Hw];
    [|by rewrite (bool_decide_eq_false_2 _ Hw)].
  destruct (decide (step_key r = stepKey)) as [Hk|Hk];
    [by destruct (Hno r Hin)|].
  by rewrite (bool_decide_eq_false_2 _ Hk), andb_false_r.
Qed.

Lemma update_failed_absent workflowID stepKey errMsg d :
  (∀ r, r ∈ steps d → ¬ (workflow_id r = workflowID ∧ step_key r = stepKey)) →
  update_failed workflowID stepKey errMsg d = d.
Proof.
  intros Hno. destruct d as [ws rows]. unfold update_failed; simpl in *.
  f_equal. rewrite <- (map_id rows) at 2. apply map_ext_in.
  intros r Hin%list_elem_of_In. unfold matches.
  destruct (decide (workflow_id r = workflowID)) as [Hw|Hw];
    [|by rewrite (bool_decide_eq_false_2 _ Hw)].
  destruct (decide (step_key r = stepKey)) as [Hk|Hk];
    [by destruct (Hno r Hin)|].
  by rewrite (bool_decide_eq_false_2 _ Hk), andb_false_r.
Qed.

(** After the marker is written for a key that no other workflow holds,
    the workflow has a row with that key. *)
Lemma upsert_in_progress_owned workflowID stepKey stepID seqNum d :
  (∀ r, r ∈ steps d → step_key r = stepKey → workflow_id r = workflowID) →
  (∃ r, r ∈ steps (upsert_in_progress workflowID stepKey stepID seqNum d) ∧
        workflow_id r = workflowID ∧ step_key r = stepKey) ∧
  (∀ r, r ∈ steps (upsert_in_progress workflowID stepKey stepID seqNum d) →
        step_key r = stepKey → workflow_id r = workflowID).
Proof.
  intros Hown. unfold upsert_in_progress.
  destruct (existsb _ _) eqn:Hex; simpl.
  - apply existsb_exists in Hex as (r & Hin%list_elem_of_In & Hk%bool_decide_eq_true).
    split.
    + exists (set_in_progress r). split_and!; [|simpl; by apply Hown|done].
      apply (list_elem_of_fmap_2' _ _ r); [done|].
      by rewrite (bool_decide_eq_true_2 _ Hk).
    + intros r' (r0 & -> & Hin0)%list_elem_of_fmap Hk'.
      destruct (bool_decide (step_key r0 = stepKey)) eqn:E; simpl in *;
        by apply Hown.
  - split.
    + eexists. split; [apply elem_of_app; right; by left | done].
    + intros r [Hin|Hin%list_elem_of_singleton]%elem_of_app Hk;
        [by apply Hown | by subst].
Qed.

Lemma update_failed_rows workflowID stepKey errMsg d r :
  r ∈ steps (update_failed workflowID stepKey errMsg d) →
  workflow_id r = workflowID → step_key r = stepKey →
  status r = "failed" ∧ error_text r = Some errMsg.
Proof.
  unfold update_failed; simpl.
  intros (r0 & -> & Hin)%list_elem_of_fmap Hw Hk.
  destruct (matches workflowID stepKey r0) eqn:Hm; [done|].
  unfold matches in Hm. by rewrite !bool_decide_eq_true_2 in Hm.
Qed.

Lemma update_failed_keeps workflowID stepKey errMsg d r :
  r ∈ steps d → workflow_id r = workflowID → step_key r = stepKey →
  set_failed errMsg r ∈ steps (update_failed workflowID stepKey errMsg d).
Proof.
  intros Hin Hw Hk. unfold update_failed; simpl.
  apply list_elem_of_fmap. exists r. split; [|done].
  unfold matches. by rewrite !bool_decide_eq_true_2.
Qed.

End row_facts.

(** C8. A memo hit has no effect.  When the cache of the context holds the
    output for the key of the step, [Step] leaves the tables, the pending
    driver outcomes (so no statement was sent to the store, neither a read
    nor a write) and the user's state as they were, adds at most the printed
    line to the trace, does not depend on the function it was given, and
    returns what [Unmarshal] makes of the cached bytes. *)
Theorem Step_memo_hit_no_effect {U T : Type} `{!Codec T} (ctx : Context)
    (id : string) (fn : Body U T) (w : World U) (cached : bytes) :
  completedSteps ctx !! generateStepKey id (assignSeq ctx id).1 = Some cached →
  db (Step ctx id fn w).2 = db w ∧
  faults (Step ctx id fn w).2 = faults w ∧
  user (Step ctx id fn w).2 = user w ∧
  (log (Step ctx id fn w).2 = log w ∨
   log (Step ctx id fn w).2 = log w ++ [EvPrint (skipped id)]) ∧
  completedSteps (Step ctx id fn w).1.1 = completedSteps ctx ∧
  (Step ctx id fn w).1.2
  = match Unmarshal cached with
    | (_, Some e) =>
        (zero, Some (wrapError "failed to unmarshal cached result" e))
    | (result, None) => (result, None)
    end ∧
  ∀ fn' : Body U T, Step ctx id fn' w = Step ctx id fn w.
Proof.
  intros Hc. split_and!; [..|intros fn'; by rewrite !(Step_cached _ _ _ _ cached)];
    rewrite (Step_cached _ _ _ _ cached) by done;
    destruct (Unmarshal cached) as [result [e|]]; simpl;
    rewrite ?assignSeq_completedSteps; auto.
Qed.

(** C6. Only completed records are memo hits.  On a store that answers and
    honours the UNIQUE constraint, [GetStep] returns without error and
    without changing the tables; it reports a hit exactly when the workflow
    has a record with that key whose status is completed, and the hit
    carries that record's output.  When it reports no hit (the record is
    absent, in progress or failed) and the cache has no entry either, [Step]
    for that key writes the marker and runs the function. *)
Theorem GetStep_hit_iff_completed {U : Type} (workflowID stepKey : string)
    (w : World U) :
  faults w = [] →
  unique_step_keys (db w) →
  ∃ (out : bytes) (found : bool),
    (GetStep workflowID stepKey w).1 = (out, found, None) ∧
    db (GetStep workflowID stepKey w).2 = db w ∧
    (found = true ↔
     ∃ r, r ∈ steps (db w) ∧ workflow_id r = workflowID ∧
          step_key r = stepKey ∧ status r = "completed") ∧
    (∀ r, r ∈ steps (db w) → workflow_id r = workflowID →
          step_key r = stepKey → status r = "completed" →
          found = true ∧ out = default [] (output r)) ∧
    (found = false →
     ∀ (T : Type) (C : Codec T) (ctx : Context) (id : string) (fn : Body U T),
       WorkflowID ctx = workflowID →
       generateStepKey id (assignSeq ctx id).1 = stepKey →
       completedSteps ctx !! stepKey = None →
       user (Step ctx id fn w).2 = (fn (user w)).2 ∧
       ∃ l', log (Step ctx id fn w).2
             = log w ++ [EvQuery "steps"; EvExec "steps"; EvBody workflowID id]
               ++ l').
Proof.
  intros Hf Hu. destruct w as [d fs u l]; simpl in *; subst fs.
  exists (getStep_result workflowID stepKey d).1,
         (getStep_result workflowID stepKey d).2.
  assert (GetStep workflowID stepKey (mkWorld d [] u l)
          = ((getStep_result workflowID stepKey d, None),
             mkWorld d [] u (l ++ [EvQuery "steps"]))) as HG.
  { unfold GetStep, mbind, M_bind, getStep_result. rewrite sqlQuery_healthy.
    destruct (select_step _ _ d) as [r|]; [|done].
    by destruct (bool_decide _). }
  assert (∀ r, r ∈ steps d → workflow_id r = workflowID →
               step_key r = stepKey → status r = "completed" →
               getStep_result workflowID stepKey d
               = (default [] (output r), true)) as Hhit.
  { intros r Hin Hw Hk Hs. unfold getStep_result.
    rewrite (select_step_unique _ _ _ r) by done.
    rewrite bool_decide_eq_false_2; [done|]. by intros []. }
  split_and!.
  - rewrite HG. by destruct (getStep_result _ _ _).
  - by rewrite HG.
  - split.
    + unfold getStep_result.
      destruct (select_step workflowID stepKey d) as [r|] eqn:E; [|done].
      apply select_step_Some in E as (Hin & Hw & Hk).
      destruct (decide (status r = "completed")) as [Hs|Hs]; [by eauto|].
      by rewrite bool_decide_eq_true_2.
    + intros (r & Hin & Hw & Hk & Hs). by rewrite (Hhit r).
  - intros r Hin Hw Hk Hs. by rewrite (Hhit r).
  - intros Hnf T C ctx id fn HW HK Hc. subst workflowID stepKey.
    rewrite Step_runs by done. simpl.
    destruct (fn u) as [[result [e|]] u']; simpl.
    + split; [done|]. exists [EvExec "steps"]. by rewrite <- !app_assoc.
    + destruct (Marshal result) as [out [e|]]; simpl; (split; [done|]).
      * exists []. by rewrite <- !app_assoc.
      * exists [EvExec "steps"]. by rewrite <- !app_assoc.
Qed.

(** X26. A failing function fails the step when the key is the workflow's
    own.  On a store that answers, when the cache has no entry for the
    step's key and every row of table [steps] that holds the key belongs to
    the workflow of the context and is not completed, a function that
    returns an error [e] makes [Step] return the zero value together with
    [e] itself, and leaves the workflow with a record under the key, every
    such record having status failed and error text [e.Error()]. *)
Theorem Step_body_error {U T : Type} `{!Codec T} (ctx : Context) (id : string)
    (fn : Body U T) (w : World U) (result : T) (e : error) (u' : U) :
  let stepKey := generateStepKey id (assignSeq ctx id).1 in
  faults w = [] →
  completedSteps ctx !! stepKey = None →
  (∀ r, r ∈ steps (db w) → step_key r = stepKey →
        workflow_id r = WorkflowID ctx ∧ status r ≠ "completed") →
  fn (user w) = ((result, Some e), u') →
  (Step ctx id fn w).1.2 = (zero, Some e) ∧
  user (Step ctx id fn w).2 = u' ∧
  (∃ r, r ∈ steps (db (Step ctx id fn w).2) ∧
        workflow_id r = WorkflowID ctx ∧ step_key r = stepKey) ∧
  (∀ r, r ∈ steps (db (Step ctx id fn w).2) →
        workflow_id r = WorkflowID ctx → step_key r = stepKey →
        status r = "failed" ∧ error_text r = Some (Error e)).
Proof.
  intros stepKey Hf Hc Hown Hfn.
  destruct w as [d fs u l]; simpl in *; subst fs.
  assert ((getStep_result (WorkflowID ctx) stepKey d).2 = false) as Hg.
  { unfold getStep_result.
    destruct (select_step _ _ d) as [r|] eqn:E; [|done].
    apply select_step_Some in E as (Hin & _ & Hk).
    destruct (Hown r Hin Hk) as [_ Hs]. by rewrite bool_decide_eq_true_2. }
  rewrite Step_runs by done. rewrite Hfn. simpl.
  fold stepKey. set (seqNum := (assignSeq ctx id).1).
  destruct (upsert_in_progress_owned (WorkflowID ctx) stepKey id seqNum d)
    as [(r & Hin & Hw & Hk) _]; [intros r Hin Hk; by apply Hown|].
  split_and!; [done | done | |].
  - exists (set_failed (Error e) r). split; [|done].
    by apply update_failed_keeps.
  - intros r'. apply update_failed_rows.
Qed.

(** C10. The completion write only updates.  When the workflow has no record
    with the given key, [SaveStep] leaves the tables as they are, whatever
    the driver reports, and returns no error on a store that answers; so
    does [SaveStepError].  No record of the step appears: a completion is
    stored only for a key whose marker was inserted before. *)
Theorem SaveStep_absent_unchanged {U : Type} (workflowID stepKey : string)
    (out : bytes) (errMsg : string) (w : World U) :
  (∀ r, r ∈ steps (db w) →
        ¬ (workflow_id r = workflowID ∧ step_key r = stepKey)) →
  db (SaveStep workflowID stepKey out w).2 = db w ∧
  (faults w = [] → (SaveStep workflowID stepKey out w).1 = None) ∧
  db (SaveStepError workflowID stepKey errMsg w).2 = db w ∧
  (faults w = [] → (SaveStepError workflowID stepKey errMsg w).1 = None) ∧
  (∀ r, r ∈ steps (db (SaveStep workflowID stepKey out w).2) →
        ¬ (workflow_id r = workflowID ∧ step_key r = stepKey)).
Proof.
  intros Hno.
  assert (db (SaveStep workflowID stepKey out w).2 = db w) as HS.
  { unfold SaveStep.
    destruct (retryOnBusy_post "steps"
                (update_completed workflowID stepKey out) w) as (_ & _ & Hd).
    destruct Hd as [[_ ->]|[_ ->]]; [|done].
    by apply update_completed_absent. }
  split_and!.
  - done.
  - intros Hf. destruct w as [d fs u l]; simpl in *; subst fs. done.
  - unfold SaveStepError.
    destruct (retryOnBusy_post "steps"
                (update_failed workflowID stepKey errMsg) w) as (_ & _ & Hd).
    destruct Hd as [[_ ->]|[_ ->]]; [|done].
    by apply update_failed_absent.
  - intros Hf. destruct w as [d fs u l]; simpl in *; subst fs. done.
  - by rewrite HS.
Qed.

(** ** The engine *)

Section engine_facts.

Context {U : Type}.
Implicit Types (w : World U) (d : DB).

Lemma insert_or_ignore_existing workflowID st st' d :
  workflows d !! workflowID = Some st' →
  insert_or_ignore_workflow workflowID st d = d.
Proof. intros H. unfold insert_or_ignore_workflow. by rewrite H. Qed.

Lemma GetWorkflowStatus_post workflowID w :
  db (GetWorkflowStatus workflowID w).2 = db w ∧
  user (GetWorkflowStatus workflowID w).2 = user w ∧
  log (GetWorkflowStatus workflowID w).2 = log w ++ [EvQuery "workflows"] ∧
  ((∃ e, (GetWorkflowStatus workflowID w).1 = ("", Some e)) ∨
   ∃ st, workflows (db w) !! workflowID = Some st ∧
         (GetWorkflowStatus workflowID w).1 = (st, None)).
Proof.
  unfold GetWorkflowStatus, mbind, M_bind.
  destruct (sqlQuery_cases "workflows" (λ d, workflows d !! workflowID) w)
    as (fs & Hw & Hr).
  destruct (sqlQuery _ _ w) as [res w1]; simpl in *; subst.
  destruct Hr as [->|[e ->]]; simpl; [|split_and!; eauto].
  destruct (workflows (db w) !! workflowID); simpl; split_and!; eauto.
Qed.

(** [Execute] on a completed workflow, step by step: the upsert, the
    status query, the printed line. *)
Lemma Execute_completed workflowID (workflowFn : Context → M U (option error)) w :
  workflows (db w) !! workflowID = Some "completed" →
  ∃ k l',
    db (Execute workflowID workflowFn w).2 = db w ∧
    user (Execute workflowID workflowFn w).2 = user w ∧
    log (Execute workflowID workflowFn w).2
    = (log w ++ replicate k (EvExec "workflows")) ++ l' ∧
    (l' = [] ∨ l' = [EvQuery "workflows"] ∨
     l' = [EvQuery "workflows"; EvPrint "Workflow already completed"]).
Proof.
  intros Hst.
  destruct (Execute workflowID workflowFn w) as [res w'] eqn:HE.
  unfold Execute in HE. run_bind HE. unfold CreateWorkflow in HE.
  destruct (retryOnBusy_post "workflows"
              (insert_or_ignore_workflow workflowID "running") w)
    as (Hu1 & [k Hl1] & Hd1).
  rewrite (insert_or_ignore_existing _ _ _ _ Hst) in Hd1.
  destruct (retryOnBusy _ w) as [err w1]; simpl in *.
  exists k.
  destruct Hd1 as [[-> Hd1]|[[e ->] Hd1]].
  2:{ run_ret HE. exists []. rewrite app_nil_r. split_and!; auto. }
  run_bind HE.
  destruct (GetWorkflowStatus_post workflowID w1) as (Hd2 & Hu2 & Hl2 & Hr2).
  destruct (GetWorkflowStatus workflowID w1) as [[st err2] w2]; simpl in *.
  destruct Hr2 as [[e ?]|(st' & Hst' & ?)]; simplify_eq.
  { run_ret HE. exists [EvQuery "workflows"].
    rewrite Hd2, Hd1, Hu2, Hu1, Hl2, Hl1. split_and!; auto. }
  rewrite Hd1, Hst in Hst'. simplify_eq.
  rewrite bool_decide_eq_true_2 in HE by done. run_ret HE.
  exists [EvQuery "workflows"; EvPrint "Workflow already completed"].
  rewrite Hd2, Hd1, Hu2, Hu1, Hl2, Hl1.
  split_and!; auto. by rewrite <- !app_assoc.
Qed.

Lemma Execute_completed_any_procedure workflowID
    (workflowFn workflowFn' : Context → M U (option error)) w :
  workflows (db w) !! workflowID = Some "completed" →
  Execute workflowID workflowFn' w = Execute workflowID workflowFn w.
Proof.
  intros Hst.
  destruct (Execute workflowID workflowFn' w) as [res' w'] eqn:HE'.
  destruct (Execute workflowID workflowFn w) as [res w0] eqn:HE.
  unfold Execute in HE, HE'. run_bind HE. run_bind HE'.
  unfold CreateWorkflow in HE, HE'.
  destruct (retryOnBusy_post "workflows"
              (insert_or_ignore_workflow workflowID "running") w)
    as (_ & _ & Hd1).
  rewrite (insert_or_ignore_existing _ _ _ _ Hst) in Hd1.
  destruct (retryOnBusy _ w) as [err w1]; simpl in *.
  destruct Hd1 as [[-> Hd1]|[[e ->] Hd1]]; [|by run_ret HE; run_ret HE'].
  run_bind HE. run_bind HE'.
  destruct (GetWorkflowStatus_post workflowID w1) as (_ & _ & _ & Hr2).
  destruct (GetWorkflowStatus workflowID w1) as [[st err2] w2]; simpl in *.
  destruct Hr2 as [[e ?]|(st' & Hst' & ?)]; simplify_eq;
    [by run_ret HE; run_ret HE'|].
  rewrite Hd1, Hst in Hst'. simplify_eq.
  rewrite bool_decide_eq_true_2 in HE, HE' by done.
  by run_ret HE; run_ret HE'.
Qed.

Lemma Execute_completed_healthy workflowID
    (workflowFn : Context → M U (option error)) d u l :
  workflows d !! workflowID = Some "completed" →
  Execute workflowID workflowFn (mkWorld d [] u l)
  = (None, mkWorld d [] u
             (l ++ [EvExec "workflows"; EvQuery "workflows";
                    EvPrint "Workflow already completed"])).
Proof.
  intros Hst. unfold Execute.
  unfold mbind at 1, M_bind at 1, CreateWorkflow.
  rewrite retryOnBusy_healthy, (insert_or_ignore_existing _ _ _ _ Hst).
  unfold mbind at 1, M_bind at 1, GetWorkflowStatus.
  unfold mbind at 1, M_bind at 1. rewrite sqlQuery_healthy. simpl.
  rewrite Hst. simpl. unfold mbind, M_bind, mret, M_ret, emit; simpl.
  by rewrite <- !app_assoc.
Qed.

End engine_facts.

(** C2. A completed workflow is terminal.  When the stored status of the
    workflow is completed, [Execute] does not call the workflow function:
    its outcome is the same for every function, the trace gains only the
    upsert, the status query and the printed line (no procedure and no step
    function), the user's state and the tables, the status with them, stay
    as they were, and on a store that answers the result is success. *)
Theorem Execute_completed_is_noop {U : Type} (workflowID : string)
    (workflowFn : Context → M U (option error)) (w : World U) :
  workflows (db w) !! workflowID = Some "completed" →
  (∀ workflowFn' : Context → M U (option error),
     Execute workflowID workflowFn' w = Execute workflowID workflowFn w) ∧
  db (Execute workflowID workflowFn w).2 = db w ∧
  workflows (db (Execute workflowID workflowFn w).2) !! workflowID
  = Some "completed" ∧
  user (Execute workflowID workflowFn w).2 = user w ∧
  (∃ l', log (Execute workflowID workflowFn w).2 = log w ++ l' ∧
         ∀ ev, ev ∈ l' →
               ev = EvExec "workflows" ∨ ev = EvQuery "workflows" ∨
               ev = EvPrint "Workflow already completed") ∧
  (faults w = [] →
   (Execute workflowID workflowFn w).1 = None ∧
   log (Execute workflowID workflowFn w).2
   = log w ++ [EvExec "workflows"; EvQuery "workflows";
               EvPrint "Workflow already completed"]).
Proof.
  intros Hst.
  destruct (Execute_completed workflowID workflowFn w Hst)
    as (k & l' & Hd & Hu & Hl & Hl').
  split_and!.
  - intros fn'. by apply Execute_completed_any_procedure.
  - done.
  - by rewrite Hd.
  - done.
  - exists (replicate k (EvExec "workflows") ++ l').
    split; [by rewrite Hl, app_assoc|].
    intros ev [Hin|Hin]%elem_of_app.
    + apply elem_of_replicate in Hin as [-> _]. by left.
    + destruct Hl' as [-> | [-> | ->]].
      * by apply elem_of_nil in Hin.
      * apply list_elem_of_singleton in Hin. auto.
      * apply elem_of_cons in Hin as [->|Hin%list_elem_of_singleton]; auto.
  - intros Hf. destruct w as [d fs u l]; simpl in *; subst fs.
    by rewrite Execute_completed_healthy.
Qed.

(** ** Memoization inside a context and across a restart *)

Section memo_facts.

Context {U : Type}.
Implicit Types (w : World U) (ctx : Context).

(** A call of [Step] keeps every cached output, and when it returns without
    error the output for its own key is cached. *)
Lemma Step_cache_post {T} `{!Codec T} ctx id (fn : Body U T) w :
  (∀ k out, completedSteps ctx !! k = Some out →
            completedSteps (Step ctx id fn w).1.1 !! k = Some out) ∧
  ((Step ctx id fn w).1.2.2 = None →
   is_Some (completedSteps (Step ctx id fn w).1.1
              !! generateStepKey id (assignSeq ctx id).1)).
Proof.
  destruct (Step ctx id fn w) as [[ctx' res] w'] eqn:HS. simpl.
  unfold Step in HS. pose proof (assignSeq_completedSteps ctx id) as Hcs.
  destruct (assignSeq ctx id) as [seqNum ctx1]; simpl in *.
  set (stepKey := generateStepKey id seqNum) in *. rewrite <- Hcs.
  assert (∀ out', completedSteps ctx1 !! stepKey = None →
            ∀ k out, completedSteps ctx1 !! k = Some out →
                     completedSteps (cacheStep ctx1 stepKey out') !! k = Some out)
    as Hkeep.
  { intros out' Hmiss k out Hk. simpl.
    rewrite lookup_insert_ne; [done | congruence]. }
  assert (∀ out', is_Some (completedSteps (cacheStep ctx1 stepKey out') !! stepKey))
    as Hnew.
  { intros out'. simpl. rewrite lookup_insert_eq. by eexists. }
  destruct (completedSteps ctx1 !! stepKey) as [cached|] eqn:Hcache.
  { destruct (Unmarshal cached) as [result [e|]]; run_ret HS;
      (split; [done | intros; by rewrite ?Hcache]). }
  specialize (λ out', Hkeep out' eq_refl).
  run_bind HS.
  destruct (GetStep _ _ w) as [[[out found] err] w1]; simpl in *.
  destruct err as [e|]; [by run_ret HS|].
  destruct found.
  { destruct (Unmarshal out) as [result [e|]]; run_ret HS; [done|].
    split; [apply Hkeep | intros; apply Hnew]. }
  run_bind HS.
  destruct (MarkStepInProgress _ _ _ _ w1) as [[e|] w2]; simpl in *;
    [by run_ret HS|].
  run_bind HS. rewrite call_post in HS.
  destruct (fn (user w2)) as [[result err] u']; simpl in HS.
  set (w3 := mkWorld _ _ _ _) in HS. clearbody w3.
  destruct err as [e|].
  { run_bind HS. destruct (SaveStepError _ _ _ w3) as [err w4]. by run_ret HS. }
  destruct (Marshal result) as [out' [e|]]; [by run_ret HS|].
  run_bind HS. destruct (SaveStep _ _ _ w3) as [[e|] w4]; run_ret HS; [done|].
  split; [apply Hkeep | intros; apply Hnew].
Qed.

(** The steps that a context has served or completed stay memoized in it:
    once the step id has its sequence number and the output for its key is
    cached, both remain so after any further call of [Step]. *)
Lemma Step_keeps_memo {T} `{!Codec T} ctx id' (fn : Body U T) w id n out :
  stepIDToSeq ctx !! id = Some n →
  completedSteps ctx !! generateStepKey id n = Some out →
  stepIDToSeq (Step ctx id' fn w).1.1 !! id = Some n ∧
  completedSteps (Step ctx id' fn w).1.1 !! generateStepKey id n = Some out.
Proof.
  intros Hn Hc. split.
  - destruct (Step_context_fields ctx id' fn w) as (_ & -> & _).
    by apply assignSeq_keeps.
  - by apply Step_cache_post.
Qed.

(** After a successful call, a second call with the same step id on the
    resulting context is a memo hit: it returns without running the
    function and without touching the store. *)
Lemma Step_twice {T} `{!Codec T} ctx id (fn fn' : Body U T) w w' :
  (Step ctx id fn w).1.2.2 = None →
  db (Step (Step ctx id fn w).1.1 id fn' w').2 = db w' ∧
  user (Step (Step ctx id fn w).1.1 id fn' w').2 = user w' ∧
  faults (Step (Step ctx id fn w).1.1 id fn' w').2 = faults w'.
Proof.
  intros Hok.
  destruct (Step_cache_post ctx id fn w) as [_ Hc]. specialize (Hc Hok).
  destruct Hc as [out Hout].
  destruct (Step_context_fields ctx id fn w) as (_ & HM & _).
  assert ((assignSeq (Step ctx id fn w).1.1 id).1 = (assignSeq ctx id).1) as Hn.
  { unfold assignSeq at 1. by rewrite HM, assignSeq_lookup. }
  rewrite <- Hn in Hout.
  rewrite (Step_cached _ _ _ _ out Hout).
  by destruct (Unmarshal out) as [result [e|]].
Qed.

Lemma load_completed_lookup (l : list StepRow) (m0 : gmap string bytes) k :
  is_Some (m0 !! k) ∨ (∃ r, r ∈ l ∧ step_key r = k) →
  is_Some (foldl (λ m r, <[step_key r := default [] (output r)]> m) m0 l !! k).
Proof.
  revert m0. induction l as [|x l IH]; intros m0 H; simpl.
  - destruct H as [?|(r & Hr & _)]; [done | by apply elem_of_nil in Hr].
  - apply IH. destruct (decide (step_key x = k)) as [<-|Hne].
    + left. rewrite lookup_insert_eq. by eexists.
    + destruct H as [H|(r & Hr & Hk)].
      * left. by rewrite lookup_insert_ne.
      * apply elem_of_cons in Hr as [->|Hr]; [done|]. right. eauto.
Qed.

(** A restart finds again every step of the workflow whose completed
    record is in the store: the fresh context gives the step id its stored
    sequence number and caches an output for its key, so the next call of
    [Step] with that id is a memo hit. *)
Lemma newContext_memo {T} `{!Codec T} ctx w ctx' w' r (fn : Body U T) w'' :
  covers ctx (db w) →
  well_keyed (WorkflowID ctx) (db w) →
  newContext (WorkflowID ctx) w = (inl ctx', w') →
  r ∈ steps (db w) → workflow_id r = WorkflowID ctx →
  status r = "completed" →
  db (Step ctx' (step_id r) fn w'').2 = db w'' ∧
  user (Step ctx' (step_id r) fn w'').2 = user w'' ∧
  faults (Step ctx' (step_id r) fn w'').2 = faults w''.
Proof.
  intros Hc Hk HN Hr Hw Hs.
  destruct (newContext_covers ctx w ctx' w' Hc HN) as (HW & Hd & Hc').
  assert ((assignSeq ctx' (step_id r)).1 = sequence_num r) as Hn.
  { unfold assignSeq. rewrite (Hc' r); [done | by rewrite Hd | congruence]. }
  assert (is_Some (completedSteps ctx' !! step_key r)) as [out Hout].
  { apply newContext_inl in HN as (_ & _ & ->). simpl.
    apply load_completed_lookup. right. exists r. split; [|done].
    unfold select_completed.
    apply list_elem_of_In, filter_In. split.
    - by apply list_elem_of_In, elem_of_select_steps.
    - by apply bool_decide_eq_true. }
  rewrite (Hk r Hr Hw), <- Hn in Hout.
  rewrite (Step_cached _ _ _ _ out Hout).
  by destruct (Unmarshal out) as [result [e|]].
Qed.

End memo_facts.

(** ** Runs on concrete stores *)

(** C1. Memoization is lost when two workflows use the same step id.  The
    first onboarding completes step "create-user-record" under key
    "create-user-record:1".  The second workflow computes the same key; its
    marker lands on the first workflow's record (the conflict target is
    [step_key] alone), its completion write matches no row, and [Step]
    still returns the result.  After the crash the resumed run finds
    nothing stored for the workflow and runs the function again: the
    function of workflow "onboarding-employee-002" has returned successfully
    twice, and the first workflow's completed record is back to in
    progress. *)
Theorem memoization_lost_across_workflows :
  (two_onboardings emptyWorld).1
  = (None,
     Some (wrapError "workflow execution failed" (errorString "simulated crash")),
     Some (wrapError "workflow execution failed" (errorString "simulated crash"))) ∧
  length (filter (λ ev, ev = EvBody "onboarding-employee-002" "create-user-record")
            (log (two_onboardings emptyWorld).2)) = 2%nat ∧
  user (two_onboardings emptyWorld).2 = 3%nat ∧
  steps (db (two_onboardings emptyWorld).2)
  = [mkStepRow "onboarding-employee-001" "create-user-record" 1
       "create-user-record:1" "in_progress"
       (Some (String.list_byte_of_string "true")) None].
Proof. by vm_compute. Qed.

Example resume_replays_from_store :
  (resumed_once emptyWorld).1
  = (Some (wrapError "workflow execution failed" (errorString "simulated crash")),
     None) ∧
  user (resumed_once emptyWorld).2 = 1%nat ∧
  length (filter (λ ev, ev = EvBody "test-workflow-resume" "step-1")
            (log (resumed_once emptyWorld).2)) = 1%nat ∧
  workflows (db (resumed_once emptyWorld).2) !! "test-workflow-resume"
  = Some "completed".
Proof. by vm_compute. Qed.

Example Execute_first_run :
  steps (db (Execute "w" (oneStep "a" (counted true)) emptyWorld).2)
  = [mkStepRow "w" "a" 1 "a:1" "completed"
       (Some (String.list_byte_of_string "true")) None] ∧
  workflows (db (Execute "w" (oneStep "a" (counted true)) emptyWorld).2) !! "w"
  = Some "completed".
Proof. by vm_compute. Qed.

Example Execute_failing_step :
  (Execute "w" (oneStep "a" (failing "intentional failure")) emptyWorld).1
  = Some (wrapError "workflow execution failed"
            (errorString "intentional failure")) ∧
  steps (db (Execute "w" (oneStep "a" (failing "intentional failure"))
               emptyWorld).2)
  = [mkStepRow "w" "a" 1 "a:1" "failed" None (Some "intentional failure")].
Proof. by vm_compute. Qed.

Example assignSeq_new_step :
  (assignSeq resumedContext "c").1 = 3%Z ∧
  stepIDToSeq (assignSeq resumedContext "c").2 !! "c" = Some 3%Z ∧
  sequenceNum (assignSeq resumedContext "c").2 = 3%Z.
Proof. by vm_compute. Qed.

Example assignSeq_known_step :
  assignSeq resumedContext "a" = (1%Z, resumedContext).
Proof. reflexivity. Qed.

Example assignSeq_wraps_around :
  (assignSeq (mkContext "w" max_int64 ∅ ∅) "a").1 = (- 2 ^ 63)%Z.
Proof. reflexivity. Qed.

Example isSQLiteBusy_locked :
  isSQLiteBusy (Some (wrapError "exec" (errorString "database is locked (5)")))
  = true ∧
  isSQLiteBusy (Some (errorString "no such table: steps")) = false ∧
  isSQLiteBusy None = false.
Proof. by vm_compute. Qed.

Example retryOnBusy_gives_up :
  (CreateWorkflow "w"
     (mkWorld (mkDB ∅ []) (replicate 5 (Some (errorString "database is locked")))
        0%nat [])).1
  = Some (wrapError "max retries exceeded" (errorString "database is locked")).
Proof. by vm_compute. Qed.

Example retryOnBusy_recovers :
  (CreateWorkflow "w"
     (mkWorld (mkDB ∅ []) [Some (errorString "SQLITE_BUSY"); None]
        0%nat [])).1 = None.
Proof. by vm_compute. Qed.

Lemma Execute_completed_is_noop_witness :
  workflows (db completedWorld) !! "w" = Some "completed" ∧
  (Execute "w" (oneStep "b" (counted true)) completedWorld).1 = None ∧
  user (Execute "w" (oneStep "b" (counted true)) completedWorld).2 = 1%nat.
Proof.
  assert (workflows (db completedWorld) !! "w" = Some "completed") as H
    by reflexivity.
  destruct (Execute_completed_is_noop "w" (oneStep "b" (counted true))
              completedWorld H) as (_ & _ & _ & Hu & _ & Hok).
  split; [exact H|]. split; [apply Hok; reflexivity | exact Hu].
Defined.

Lemma sequence_number_stable_witness :
  covers resumedContext (db resumedWorld) ∧
  persisted "w" "a" 1 (db resumedWorld) ∧
  WorkflowID restartedContext = "w" ∧
  (assignSeq restartedContext "a").1 = 1%Z ∧
  persisted "w" "a" 1 (db restartedWorld).
Proof.
  assert (covers resumedContext (db resumedWorld)) as Hc.
  { intros r Hr _. simpl in Hr.
    apply elem_of_cons in Hr as [->|Hr]; [reflexivity|].
    apply list_elem_of_singleton in Hr as ->. reflexivity. }
  assert (persisted "w" "a" 1 (db resumedWorld)) as Hp.
  { exists markerRow. split; [left | done]. }
  split; [exact Hc|]. split; [exact Hp|].
  apply (sequence_number_stable resumedContext restartedContext resumedWorld
           restartedWorld "a" 1 Hc Hp).
  apply (later_restart _ _ afterStep.1.1 afterStep.2); [|by vm_compute].
  apply (later_Step _ _ resumedContext resumedWorld bool _ "c" (counted true));
    [apply later_refl | exact I].
Defined.

Lemma new_sequence_numbers_fresh_witness :
  well_keyed "w" (db resumedWorld) ∧
  no_wrap resumedContext ∧
  (∀ r, r ∈ rows_of "w" (db resumedWorld) → (sequence_num r ≤ 2)%Z) ∧
  (assignSeq (Step resumedContext "c" (counted true)
                (newContext "w" resumedWorld).2).1.1 "d").1 = (3 + 1)%Z ∧
  ∀ r, r ∈ steps (db (Step resumedContext "c" (counted true)
                        (newContext "w" resumedWorld).2).2) →
       workflow_id r = "w" →
       (sequence_num r
        < (assignSeq (Step resumedContext "c" (counted true)
                        (newContext "w" resumedWorld).2).1.1 "d").1)%Z ∧
       step_key r
       ≠ generateStepKey "d"
           (assignSeq (Step resumedContext "c" (counted true)
                         (newContext "w" resumedWorld).2).1.1 "d").1.
Proof.
  assert (well_keyed "w" (db resumedWorld)) as Hk.
  { intros r Hr _. simpl in Hr.
    apply elem_of_cons in Hr as [->|Hr]; [reflexivity|].
    apply list_elem_of_singleton in Hr as ->. reflexivity. }
  assert (no_wrap resumedContext) as Hnw by reflexivity.
  assert (newContext "w" resumedWorld
          = (inl resumedContext, (newContext "w" resumedWorld).2)) as HN
    by (by vm_compute).
  assert (later no_wrap (resumedContext, (newContext "w" resumedWorld).2)
            ((Step resumedContext "c" (counted true)
                (newContext "w" resumedWorld).2).1.1,
             (Step resumedContext "c" (counted true)
                (newContext "w" resumedWorld).2).2)) as Hl.
  { apply (later_Step _ _ resumedContext _ bool _ "c" (counted true));
      [apply later_refl | exact Hnw]. }
  destruct (new_sequence_numbers_fresh "w" resumedWorld _ _ resumedContext _ "d"
              Hk HN Hl eq_refl eq_refl) as (_ & Hmax & _ & Hn & Hfresh).
  split; [exact Hk|]. split; [exact Hnw|].
  split; [exact Hmax|]. split; [exact Hn | exact Hfresh].
Defined.

Lemma GetStep_hit_iff_completed_witness :
  faults resumedWorld = [] ∧
  unique_step_keys (db resumedWorld) ∧
  ∃ (out : bytes) (found : bool),
    (GetStep "w" "b:2" resumedWorld).1 = (out, found, None) ∧
    (found = true ↔
     ∃ r, r ∈ steps (db resumedWorld) ∧ workflow_id r = "w" ∧
          step_key r = "b:2" ∧ status r = "completed").
Proof.
  assert (unique_step_keys (db resumedWorld)) as Hu.
  { unfold unique_step_keys. simpl. apply (bool_decide_unpack _). by vm_compute. }
  destruct (GetStep_hit_iff_completed "w" "b:2" resumedWorld eq_refl Hu)
    as (out & found & Hres & _ & Hiff & _).
  split; [reflexivity|]. split; [exact Hu|]. exists out, found. by split.
Defined.

Lemma Step_body_error_witness :
  faults resumedWorld = [] ∧
  completedSteps resumedContext !! "a:1" = None ∧
  (Step resumedContext "a" (failing "boom") resumedWorld).1.2
  = (false, Some (errorString "boom")) ∧
  ∀ r, r ∈ steps (db (Step resumedContext "a" (failing "boom") resumedWorld).2) →
       workflow_id r = "w" → step_key r = "a:1" →
       status r = "failed" ∧ error_text r = Some "boom".
Proof.
  assert (∀ r, r ∈ steps (db resumedWorld) → step_key r = "a:1" →
               workflow_id r = WorkflowID resumedContext ∧
               status r ≠ "completed") as Hown.
  { intros r Hr Hkey. simpl in Hr.
    apply elem_of_cons in Hr as [->|Hr]; [done|].
    apply list_elem_of_singleton in Hr as ->. discriminate Hkey. }
  destruct (Step_body_error resumedContext "a" (failing "boom") resumedWorld
              false (errorString "boom") 2%nat eq_refl eq_refl Hown eq_refl)
    as (Hres & _ & _ & Hrows).
  split; [reflexivity|]. split; [reflexivity|]. split; [exact Hres | exact Hrows].
Defined.

Lemma Step_memo_hit_no_effect_witness :
  completedSteps resumedContext !! "b:2"
  = Some (String.list_byte_of_string "true") ∧
  db (Step resumedContext "b" (counted false) resumedWorld).2 = db resumedWorld ∧
  user (Step resumedContext "b" (counted false) resumedWorld).2 = 1%nat ∧
  (Step resumedContext "b" (counted false) resumedWorld).1.2 = (true, None).
Proof.
  destruct (Step_memo_hit_no_effect resumedContext "b" (counted false)
              resumedWorld (String.list_byte_of_string "true") eq_refl)
    as (Hd & _ & Hu & _ & _ & Hres & _).
  split; [reflexivity|]. split; [exact Hd|]. split; [exact Hu | exact Hres].
Defined.

Lemma SaveStep_absent_unchanged_witness :
  (∀ r, r ∈ steps (db resumedWorld) →
        ¬ (workflow_id r = "w" ∧ step_key r = "c:3")) ∧
  db (SaveStep "w" "c:3" (String.list_byte_of_string "true") resumedWorld).2
  = db resumedWorld ∧
  (SaveStep "w" "c:3" (String.list_byte_of_string "true") resumedWorld).1 = None ∧
  db (SaveStepError "w" "c:3" "boom" resumedWorld).2 = db resumedWorld.
Proof.
  assert (∀ r, r ∈ steps (db resumedWorld) →
               ¬ (workflow_id r = "w" ∧ step_key r = "c:3")) as Hno.
  { intros r Hr [_ Hkey]. simpl in Hr.
    apply elem_of_cons in Hr as [->|Hr]; [discriminate Hkey|].
    apply list_elem_of_singleton in Hr as ->. discriminate Hkey. }
  destruct (SaveStep_absent_unchanged "w" "c:3"
              (String.list_byte_of_string "true") "boom" resumedWorld Hno)
    as (Hd & Hok & Hd' & _).
  split; [exact Hno|]. split; [exact Hd|]. split; [exact (Hok eq_refl) | exact Hd'].
Defined.

(** * Further properties of the code *)

(** ** Busy errors and the retry loop *)

Section busy_facts.

Context {U : Type}.
Implicit Types (w : World U) (e : error) (s : string).

Lemma app_assoc_str (a b c : string) : (a +:+ b) +:+ c = a +:+ b +:+ c.
Proof.
  induction a as [|x a IH]; rewrite ?app_cons_str, ?app_nil_l_str; [done|].
  by rewrite IH.
Qed.

Lemma hasPrefix_spec s prefix :
  hasPrefix s prefix = true ↔ ∃ b, s = prefix +:+ b.
Proof.
  revert s. induction prefix as [|c p IH]; intros [|d s]; simpl.
  - split; [intros _; by exists "" | done].
  - split; [intros _; by exists (String d s) | done].
  - split; [done | intros [b Hb]; by rewrite app_cons_str in Hb].
  - rewrite andb_true_iff, bool_decide_eq_true, IH. split.
    + intros [-> [b ->]]. exists b. by rewrite app_cons_str.
    + intros [b Hb]. rewrite app_cons_str in Hb. simplify_eq. eauto.
Qed.

Lemma Contains_eq s substr :
  Contains s substr
  = hasPrefix s substr ||
    match s with
    | EmptyString => false
    | String _ s' => Contains s' substr
    end.
Proof. by destruct s. Qed.

Lemma Contains_spec s substr :
  Contains s substr = true ↔ ∃ a b, s = a +:+ substr +:+ b.
Proof.
  induction s as [|c s IH]; rewrite Contains_eq, orb_true_iff, hasPrefix_spec.
  - split.
    + intros [[b Hb]|?]; [|done]. exists "", b. by rewrite app_nil_l_str.
    + intros (a & b & Hab). left. destruct a as [|x a];
        [by exists b | by rewrite app_cons_str in Hab].
  - rewrite IH. split.
    + intros [[b Hb]|(a & b & ->)].
      * exists "", b. by rewrite app_nil_l_str.
      * exists (String c a), b. by rewrite app_cons_str.
    + intros (a & b & Hab). destruct a as [|x a].
      * left. by exists b.
      * right. rewrite app_cons_str in Hab. simplify_eq. eauto.
Qed.

Lemma retryLoop_busy_step n table stmt err0 w e fs :
  faults w = Some e :: fs → isSQLiteBusy (Some e) = true →
  retryLoop (S n) (sqlExec table stmt) err0 w
  = retryLoop n (sqlExec table stmt) (Some e)
      (mkWorld (db w) fs (user w) (log w ++ [EvExec table])).
Proof.
  intros Hf Hb. destruct w as [d fs' u l]; simpl in Hf; subst fs'.
  cbn [retryLoop db user log]. unfold mbind at 1, M_bind at 1.
  assert (sqlExec table stmt (mkWorld d (Some e :: fs) u l)
          = (Some e, mkWorld d fs u (l ++ [EvExec table]))) as -> by done.
  by rewrite Hb.
Qed.

(** A run of busy answers uses up one iteration each and leaves the store
    alone. *)
Lemma retryLoop_busy_run es n table stmt err0 w e fs :
  faults w = (Some <$> es ++ [e]) ++ fs →
  Forall (λ e, isSQLiteBusy (Some e) = true) (es ++ [e]) →
  retryLoop (length es + 1 + n) (sqlExec table stmt) err0 w
  = retryLoop n (sqlExec table stmt) (Some e)
      (mkWorld (db w) fs (user w)
         (log w ++ replicate (length es + 1) (EvExec table))).
Proof.
  revert err0 w. induction es as [|x es IH]; intros err0 w Hf Hb;
    simpl in Hf, Hb; apply Forall_cons in Hb as [Hx Hb].
  - change (length (@nil error) + 1 + n)%nat with (S n).
    by apply retryLoop_busy_step.
  - change (length (x :: es) + 1 + n)%nat with (S (length es + 1 + n)).
    rewrite (retryLoop_busy_step _ _ _ _ w x ((Some <$> es ++ [e]) ++ fs))
      by done.
    rewrite IH by done. cbn [db user log length Nat.add replicate].
    by rewrite <- app_assoc.
Qed.

End busy_facts.

(** X1. [isSQLiteBusy] holds of an error exactly when its message contains
    "SQLITE_BUSY" or "database is locked" somewhere; no error is not busy. *)
Theorem isSQLiteBusy_iff (e : error) :
  isSQLiteBusy None = false ∧
  (isSQLiteBusy (Some e) = true ↔
   ∃ a b, Error e = a +:+ "SQLITE_BUSY" +:+ b ∨
          Error e = a +:+ "database is locked" +:+ b).
Proof.
  split; [done|]. simpl. rewrite orb_true_iff, !Contains_spec. split.
  - intros [(a & b & H)|(a & b & H)]; exists a, b; auto.
  - intros (a & b & [H|H]); [left | right]; eauto.
Qed.

(** X2. Wrapping keeps an error busy: the message of [fmt.Errorf("msg: %w",
    err)] ends with the message of [err], so a busy error stays busy under
    any number of wrappers, the "max retries exceeded" wrapper of
    [retryOnBusy] included. *)
Theorem isSQLiteBusy_wrapped (msg : string) (e : error) :
  isSQLiteBusy (Some e) = true →
  isSQLiteBusy (Some (wrapError msg e)) = true ∧
  isSQLiteBusy (Some (wrapError "max retries exceeded" e)) = true.
Proof.
  assert (∀ m, isSQLiteBusy (Some e) = true →
               isSQLiteBusy (Some (wrapError m e)) = true) as H.
  { intros m. simpl. rewrite !orb_true_iff, !Contains_spec.
    intros [(a & b & ->)|(a & b & ->)]; [left | right];
      exists (m +:+ ": " +:+ a), b; by rewrite !app_assoc_str. }
  intros Hb. split; by apply H.
Qed.

(** X3. An error that is not busy ends the retry loop at once: after fewer
    than five busy answers, a driver error that is not busy is returned as
    it is (not wrapped), the statement has not taken effect, and the later
    driver outcomes are not consumed. *)
Theorem retryOnBusy_error_not_busy {U : Type} (table : string) (stmt : DB → DB)
    (w : World U) (es : list error) (e : error) (fs : list (option error)) :
  faults w = (Some <$> es) ++ Some e :: fs →
  Forall (λ e, isSQLiteBusy (Some e) = true) es →
  (length es < 5)%nat →
  isSQLiteBusy (Some e) = false →
  retryOnBusy (sqlExec table stmt) w
  = (Some e,
     mkWorld (db w) fs (user w)
       (log w ++ replicate (S (length es)) (EvExec table))).
Proof.
  intros Hf Hb Hlen Hnb. unfold retryOnBusy. cbv zeta.
  assert (∀ n err0 (w' : World U), faults w' = Some e :: fs →
            retryLoop (S n) (sqlExec table stmt) err0 w'
            = (Some e, mkWorld (db w') fs (user w') (log w' ++ [EvExec table])))
    as Hstop.
  { intros n err0 [d fs' u l] Hf'; simpl in Hf'; subst fs'.
    cbn [retryLoop db user log]. unfold mbind at 1, M_bind at 1.
    assert (sqlExec table stmt (mkWorld d (Some e :: fs) u l)
            = (Some e, mkWorld d fs u (l ++ [EvExec table]))) as -> by done.
    by rewrite Hnb. }
  destruct es as [|x es _] using rev_ind.
  - simpl in Hf. rewrite (Hstop 4%nat None w Hf). by destruct w.
  - rewrite length_app in *. simpl in Hlen. cbn [length].
    replace 5%nat with (length es + 1 + S (3 - length es))%nat by lia.
    rewrite (retryLoop_busy_run es _ _ _ _ w x (Some e :: fs)) by done.
    rewrite Hstop by done. cbn [db user log].
    rewrite <- app_assoc. do 3 f_equal.
    replace (S (length es + 1)) with ((length es + 1) + 1)%nat by lia.
    by rewrite (replicate_add (length es + 1) 1).
Qed.

(** X4. Five busy answers exhaust the retry loop: [retryOnBusy] makes
    exactly five attempts, returns the last busy error wrapped as "max
    retries exceeded", and the statement has not taken effect. *)
Theorem retryOnBusy_exhausted {U : Type} (table : string) (stmt : DB → DB)
    (w : World U) (es : list error) (e : error) (fs : list (option error)) :
  faults w = (Some <$> es ++ [e]) ++ fs →
  Forall (λ e, isSQLiteBusy (Some e) = true) (es ++ [e]) →
  length es = 4%nat →
  retryOnBusy (sqlExec table stmt) w
  = (Some (wrapError "max retries exceeded" e),
     mkWorld (db w) fs (user w) (log w ++ replicate 5 (EvExec table))).
Proof.
  intros Hf Hb Hlen. unfold retryOnBusy. cbv zeta.
  replace 5%nat with (length es + 1 + 0)%nat at 1 by lia.
  rewrite (retryLoop_busy_run es _ _ _ _ w e fs) by done.
  simpl. by rewrite Hlen.
Qed.

(** X5. A busy store is retried: after fewer than five busy answers, an
    answer without error makes [retryOnBusy] return nil, and the statement
    has taken effect exactly once. *)
Theorem retryOnBusy_recovers_after_busy {U : Type} (table : string)
    (stmt : DB → DB) (w : World U) (es : list error)
    (fs : list (option error)) :
  faults w = (Some <$> es) ++ fs →
  Forall (λ e, isSQLiteBusy (Some e) = true) es →
  (length es < 5)%nat →
  fs = [] ∨ head fs = Some None →
  retryOnBusy (sqlExec table stmt) w
  = (None,
     mkWorld (stmt (db w)) (tail fs) (user w)
       (log w ++ replicate (S (length es)) (EvExec table))).
Proof.
  intros Hf Hb Hlen Hok. unfold retryOnBusy. cbv zeta.
  assert (∀ n err0 (w' : World U), faults w' = fs →
            retryLoop (S n) (sqlExec table stmt) err0 w'
            = (None, mkWorld (stmt (db w')) (tail fs) (user w')
                       (log w' ++ [EvExec table]))) as Hdone.
  { intros n err0 [d fs' u l] Hf'; simpl in Hf'; subst fs'.
    cbn [retryLoop db user log]. unfold mbind at 1, M_bind at 1.
    destruct Hok as [->|Hh]; [done|].
    destruct fs as [|[?|] fs']; by simplify_eq/=. }
  destruct es as [|x es _] using rev_ind.
  - simpl in Hf. rewrite (Hdone 4%nat None w Hf). by destruct w.
  - rewrite length_app in *. simpl in Hlen. cbn [length].
    replace 5%nat with (length es + 1 + S (3 - length es))%nat by lia.
    rewrite (retryLoop_busy_run es _ _ _ _ w x fs) by done.
    rewrite Hdone by done. cbn [db user log].
    rewrite <- app_assoc. do 3 f_equal.
    replace (S (length es + 1)) with ((length es + 1) + 1)%nat by lia.
    by rewrite (replicate_add (length es + 1) 1).
Qed.

(** ** Table [workflows] *)

(** X6. [CreateWorkflow] inserts only if absent.  Whatever the driver
    reports, it leaves table [steps], the user's state and every existing
    workflow record (the record of its own workflow included) as they were;
    when it returns nil the workflow has a record, with status running if it
    is new; and it returns nil on a store that answers. *)
Theorem CreateWorkflow_insert_if_absent {U : Type} (workflowID : string)
    (w : World U) :
  steps (db (CreateWorkflow workflowID w).2) = steps (db w) ∧
  user (CreateWorkflow workflowID w).2 = user w ∧
  (∀ workflowID' st, workflows (db w) !! workflowID' = Some st →
     workflows (db (CreateWorkflow workflowID w).2) !! workflowID' = Some st) ∧
  (∀ workflowID', workflowID' ≠ workflowID →
     workflows (db (CreateWorkflow workflowID w).2) !! workflowID'
     = workflows (db w) !! workflowID') ∧
  ((CreateWorkflow workflowID w).1 = None →
   workflows (db (CreateWorkflow workflowID w).2) !! workflowID
   = Some (default "running" (workflows (db w) !! workflowID))) ∧
  (faults w = [] → (CreateWorkflow workflowID w).1 = None).
Proof.
  unfold CreateWorkflow.
  destruct (retryOnBusy_post "workflows"
              (insert_or_ignore_workflow workflowID "running") w)
    as (Hu & _ & Hd).
  assert (∀ d, steps (insert_or_ignore_workflow workflowID "running" d) = steps d)
    as Hsteps.
  { intros d. unfold insert_or_ignore_workflow.
    by destruct (workflows d !! workflowID). }
  assert (∀ d workflowID' st, workflows d !! workflowID' = Some st →
            workflows (insert_or_ignore_workflow workflowID "running" d)
              !! workflowID' = Some st) as Hkeep.
  { intros d wid' st H. unfold insert_or_ignore_workflow.
    destruct (workflows d !! workflowID) eqn:E; [done|]. simpl.
    rewrite lookup_insert_ne; [done | congruence]. }
  assert (∀ d workflowID', workflowID' ≠ workflowID →
            workflows (insert_or_ignore_workflow workflowID "running" d)
              !! workflowID' = workflows d !! workflowID') as Hother.
  { intros d wid' Hne. unfold insert_or_ignore_workflow.
    destruct (workflows d !! workflowID) eqn:E; [done|]. simpl.
    by rewrite lookup_insert_ne. }
  assert (∀ d, workflows (insert_or_ignore_workflow workflowID "running" d)
                 !! workflowID
               = Some (default "running" (workflows d !! workflowID))) as Hown.
  { intros d. unfold insert_or_ignore_workflow.
    destruct (workflows d !! workflowID) eqn:E; simpl; [done|].
    by rewrite lookup_insert_eq. }
  split_and!.
  - destruct Hd as [[_ ->]|[_ ->]]; auto.
  - done.
  - intros wid' st H. destruct Hd as [[_ ->]|[_ ->]]; auto.
  - intros wid' Hne. destruct Hd as [[_ ->]|[_ ->]]; auto.
  - intros Hnil. destruct Hd as [[_ ->]|[[e He] _]]; [auto | congruence].
  - intros Hf. destruct w as [d fs u l]; simpl in *; subst fs. done.
Qed.

(** X7. [UpdateWorkflowStatus] overwrites and never creates.  Whatever the
    driver reports, it leaves table [steps], the user's state and the other
    workflows as they were, and a workflow without a record still has none;
    when it returns nil a workflow that has a record has the new status; on
    a store that answers it returns nil, for an unknown workflow too. *)
Theorem UpdateWorkflowStatus_overwrites {U : Type} (workflowID st : string)
    (w : World U) :
  steps (db (UpdateWorkflowStatus workflowID st w).2) = steps (db w) ∧
  user (UpdateWorkflowStatus workflowID st w).2 = user w ∧
  (∀ workflowID', workflowID' ≠ workflowID →
     workflows (db (UpdateWorkflowStatus workflowID st w).2) !! workflowID'
     = workflows (db w) !! workflowID') ∧
  (workflows (db w) !! workflowID = None →
   workflows (db (UpdateWorkflowStatus workflowID st w).2) !! workflowID = None) ∧
  ((UpdateWorkflowStatus workflowID st w).1 = None →
   is_Some (workflows (db w) !! workflowID) →
   workflows (db (UpdateWorkflowStatus workflowID st w).2) !! workflowID
   = Some st) ∧
  (faults w = [] → (UpdateWorkflowStatus workflowID st w).1 = None).
Proof.
  unfold UpdateWorkflowStatus.
  destruct (retryOnBusy_post "workflows"
              (update_workflow_status workflowID st) w) as (Hu & _ & Hd).
  split_and!.
  - by destruct Hd as [[_ ->]|[_ ->]].
  - done.
  - intros wid' Hne. destruct Hd as [[_ ->]|[_ ->]]; [|done].
    simpl. by rewrite lookup_alter_ne.
  - intros Hnone. destruct Hd as [[_ ->]|[_ ->]]; [|done].
    simpl. by rewrite lookup_alter_eq, Hnone.
  - intros Hnil [st' Hst]. destruct Hd as [[_ ->]|[[e He] _]]; [|congruence].
    simpl. by rewrite lookup_alter_eq, Hst.
  - intros Hf. destruct w as [d fs u l]; simpl in *; subst fs. done.
Qed.

(** X8. The status that was written is the status that is read.  On a store
    that answers, [GetWorkflowStatus] after [CreateWorkflow] returns the
    status the workflow had, or running if it was new; after
    [UpdateWorkflowStatus] on a workflow that has a record it returns the
    new status; for a workflow without a record it returns the error
    "workflow not found", also after an [UpdateWorkflowStatus] for it. *)
Theorem GetWorkflowStatus_reads_back {U : Type} (workflowID st : string)
    (w : World U) :
  faults w = [] →
  (GetWorkflowStatus workflowID (CreateWorkflow workflowID w).2).1
  = (default "running" (workflows (db w) !! workflowID), None) ∧
  (is_Some (workflows (db w) !! workflowID) →
   (GetWorkflowStatus workflowID (UpdateWorkflowStatus workflowID st w).2).1
   = (st, None)) ∧
  (workflows (db w) !! workflowID = None →
   (GetWorkflowStatus workflowID w).1
   = ("", Some (errorString "workflow not found")) ∧
   (GetWorkflowStatus workflowID (UpdateWorkflowStatus workflowID st w).2).1
   = ("", Some (errorString "workflow not found"))).
Proof.
  intros Hf. destruct w as [d fs u l]; simpl in *; subst fs.
  assert (∀ d' l', (GetWorkflowStatus workflowID (mkWorld d' [] u l')).1
                   = match workflows d' !! workflowID with
                     | Some s => (s, None)
                     | None => ("", Some (errorString "workflow not found"))
                     end) as HG.
  { intros d' l'. unfold GetWorkflowStatus, mbind, M_bind.
    rewrite sqlQuery_healthy. simpl. by destruct (workflows d' !! workflowID). }
  unfold CreateWorkflow, UpdateWorkflowStatus. rewrite !retryOnBusy_healthy.
  simpl. rewrite !HG. split_and!.
  - unfold insert_or_ignore_workflow.
    destruct (workflows d !! workflowID) eqn:E; simpl; [by rewrite E|].
    by rewrite lookup_insert_eq.
  - intros [st' Hst]. simpl. by rewrite lookup_alter_eq, Hst.
  - intros Hnone. simpl. by rewrite lookup_alter_eq, Hnone.
Qed.

(** ** The life cycle of a workflow *)

Section lifecycle_facts.

Context {U : Type}.
Implicit Types (w : World U) (d : DB) (u : U) (l : list event).

Lemma newContext_healthy workflowID d u l :
  newContext workflowID (mkWorld d [] u l)
  = (inl (mkContext workflowID
            (default 0%Z (select_max_sequence workflowID d))
            (foldl (λ m r, <[step_key r := default [] (output r)]> m) ∅
               (select_completed workflowID d))
            (foldl (λ m r, <[step_id r := sequence_num r]> m) ∅
               (select_steps workflowID d))),
     mkWorld d [] u
       (l ++ [EvQuery "steps"; EvQuery "steps"; EvQuery "steps"])).
Proof.
  unfold newContext.
  unfold mbind at 1, M_bind at 1, LoadCompletedSteps.
  unfold mbind at 1, M_bind at 1. rewrite sqlQuery_healthy. simpl.
  unfold mret at 1, M_ret at 1.
  unfold mbind at 1, M_bind at 1, LoadStepIDMapping.
  unfold mbind at 1, M_bind at 1. rewrite sqlQuery_healthy. simpl.
  unfold mret at 1, M_ret at 1.
  unfold mbind at 1, M_bind at 1, GetMaxSequenceNum.
  unfold mbind at 1, M_bind at 1. rewrite sqlQuery_healthy. simpl.
  rewrite <- !app_assoc. simpl.
  by destruct (select_max_sequence workflowID d).
Qed.

(** [Execute] on a store that answers, for a workflow that is not
    completed, up to the call of the workflow function and after it. *)
Lemma Execute_runs workflowID (workflowFn : Context → M U (option error)) d u l :
  workflows d !! workflowID ≠ Some "completed" →
  Execute workflowID workflowFn (mkWorld d [] u l)
  = let d1 := insert_or_ignore_workflow workflowID "running" d in
    let ctx := mkContext workflowID
                 (default 0%Z (select_max_sequence workflowID d1))
                 (foldl (λ m r, <[step_key r := default [] (output r)]> m) ∅
                    (select_completed workflowID d1))
                 (foldl (λ m r, <[step_id r := sequence_num r]> m) ∅
                    (select_steps workflowID d1)) in
    let w1 := mkWorld d1 [] u
                (l ++ [EvExec "workflows"; EvQuery "workflows";
                       EvQuery "steps"; EvQuery "steps"; EvQuery "steps";
                       EvProcedure workflowID]) in
    match (workflowFn ctx w1).1 with
    | Some e =>
        (Some (wrapError "workflow execution failed" e),
         (UpdateWorkflowStatus workflowID "failed" (workflowFn ctx w1).2).2)
    | None =>
        match (UpdateWorkflowStatus workflowID "completed"
                 (workflowFn ctx w1).2).1 with
        | Some e =>
            (Some (wrapError "failed to mark workflow as completed" e),
             (UpdateWorkflowStatus workflowID "completed"
                (workflowFn ctx w1).2).2)
        | None =>
            (None,
             (UpdateWorkflowStatus workflowID "completed"
                (workflowFn ctx w1).2).2)
        end
    end.
Proof.
  intros Hst. cbv zeta.
  set (d1 := insert_or_ignore_workflow workflowID "running" d).
  set (ctx := mkContext _ _ _ _). set (w1 := mkWorld d1 [] u _).
  destruct (workflowFn ctx w1) as [err w2] eqn:Efn.
  unfold Execute.
  unfold mbind at 1, M_bind at 1, CreateWorkflow. rewrite retryOnBusy_healthy.
  fold d1.
  assert (∃ st, workflows d1 !! workflowID = Some st ∧ st ≠ "completed")
    as (st & Hst1 & Hne).
  { unfold d1, insert_or_ignore_workflow.
    destruct (workflows d !! workflowID) as [st|] eqn:E; simpl.
    - exists st. split; [done | congruence].
    - exists "running". by rewrite lookup_insert_eq. }
  unfold mbind at 1, M_bind at 1, GetWorkflowStatus.
  unfold mbind at 1, M_bind at 1. rewrite sqlQuery_healthy. simpl.
  rewrite Hst1. unfold mret at 1, M_ret at 1.
  rewrite bool_decide_eq_false_2 by done.
  unfold mbind at 1, M_bind at 1. rewrite newContext_healthy.
  unfold mbind at 1, M_bind at 1, emit.
  unfold mbind at 1, M_bind at 1.
  match goal with
  | |- context [workflowFn ?c ?w0] =>
      assert (workflowFn c w0 = (err, w2)) as ->
        by (rewrite <- Efn; unfold w1; simpl; by rewrite <- !app_assoc)
  end.
  destruct err as [e|]; simpl.
  - unfold mbind, M_bind, mret, M_ret.
    by destruct (UpdateWorkflowStatus workflowID "failed" w2).
  - unfold mbind, M_bind, mret, M_ret.
    by destruct (UpdateWorkflowStatus workflowID "completed" w2) as [[e|] w3].
Qed.

End lifecycle_facts.

(** X9. The life cycle of a workflow.  On a store that answers, for a
    workflow that is new, running or failed, [Execute] creates the record
    if needed, builds the context that [newContext] returns and calls the
    workflow function once.  If the function leaves the store answering and
    table [workflows] alone, then: when it returns nil, [Execute] returns
    nil and the status is completed; when it returns an error, [Execute]
    returns that error wrapped as "workflow execution failed" and the status
    is failed.  Table [steps] and the user's state are as the function left
    them. *)
Theorem Execute_lifecycle {U : Type} (workflowID : string)
    (workflowFn : Context → M U (option error)) (w : World U) :
  faults w = [] →
  workflows (db w) !! workflowID ≠ Some "completed" →
  (∀ ctx (w1 : World U), faults w1 = [] →
     faults (workflowFn ctx w1).2 = [] ∧
     workflows (db (workflowFn ctx w1).2) = workflows (db w1)) →
  ∃ ctx (w1 : World U),
    (newContext workflowID w).1 = inl ctx ∧
    steps (db w1) = steps (db w) ∧ user w1 = user w ∧ faults w1 = [] ∧
    is_Some (workflows (db w1) !! workflowID) ∧
    log w1 = log w ++ [EvExec "workflows"; EvQuery "workflows";
                       EvQuery "steps"; EvQuery "steps"; EvQuery "steps";
                       EvProcedure workflowID] ∧
    steps (db (Execute workflowID workflowFn w).2)
    = steps (db (workflowFn ctx w1).2) ∧
    user (Execute workflowID workflowFn w).2 = user (workflowFn ctx w1).2 ∧
    match (workflowFn ctx w1).1 with
    | None =>
        (Execute workflowID workflowFn w).1 = None ∧
        workflows (db (Execute workflowID workflowFn w).2) !! workflowID
        = Some "completed"
    | Some e =>
        (Execute workflowID workflowFn w).1
        = Some (wrapError "workflow execution failed" e) ∧
        workflows (db (Execute workflowID workflowFn w).2) !! workflowID
        = Some "failed"
    end.
Proof.
  intros Hf Hst Hfn. destruct w as [d fs u l]; simpl in *; subst fs.
  rewrite Execute_runs by done. cbv zeta.
  set (d1 := insert_or_ignore_workflow workflowID "running" d).
  assert (steps d1 = steps d) as Hsteps.
  { unfold d1, insert_or_ignore_workflow. by destruct (workflows d !! workflowID). }
  assert (is_Some (workflows d1 !! workflowID)) as Hrec.
  { unfold d1, insert_or_ignore_workflow.
    destruct (workflows d !! workflowID) eqn:E; simpl; [by rewrite E|].
    rewrite lookup_insert_eq. by eexists. }
  assert (rows_of workflowID d1 = rows_of workflowID d) as Hrows
    by (unfold rows_of; by rewrite Hsteps).
  assert (select_steps workflowID d1 = select_steps workflowID d)
    as Hsel by (unfold select_steps; by rewrite Hrows).
  assert (select_completed workflowID d1 = select_completed workflowID d)
    as Hcompl by (unfold select_completed; by rewrite Hsel).
  assert (select_max_sequence workflowID d1 = select_max_sequence workflowID d)
    as Hmax by (unfold select_max_sequence; by rewrite Hrows).
  rewrite Hsel, Hcompl, Hmax.
  set (ctx := mkContext _ _ _ _). set (w1 := mkWorld d1 [] u _).
  exists ctx, w1. rewrite newContext_healthy.
  do 6 (split; [done|]).
  destruct (Hfn ctx w1 eq_refl) as [Hf2 Hw2].
  destruct (workflowFn ctx w1) as [err w2] eqn:Efn. simpl in *.
  destruct w2 as [d2 fs2 u2 l2]; simpl in *; subst fs2.
  destruct Hrec as [st1 Hst1].
  unfold UpdateWorkflowStatus. rewrite !retryOnBusy_healthy.
  destruct err as [e|]; simpl;
    (do 3 (split; [done|])); by rewrite lookup_alter_eq, Hw2, Hst1.
Qed.

(** ** The paths through [Step] *)

Section step_paths.

Context {U : Type} {T : Type} `{!Codec T}.
Implicit Types (w : World U) (d : DB) (u : U) (l : list event)
  (r : StepRow) (ctx : Context) (fn : Body U T).

(** With no cached output, a completed record and a driver that reports no
    error, the stored output is decoded and cached. *)
Lemma Step_found ctx id fn d u l out :
  completedSteps ctx !! generateStepKey id (assignSeq ctx id).1 = None →
  getStep_result (WorkflowID ctx)
    (generateStepKey id (assignSeq ctx id).1) d = (out, true) →
  Step ctx id fn (mkWorld d [] u l)
  = match Unmarshal out with
    | (_, Some e) =>
        (((assignSeq ctx id).2,
          (zero, Some (wrapError "failed to unmarshal database result" e))),
         mkWorld d [] u (l ++ [EvQuery "steps"]))
    | (result, None) =>
        ((cacheStep (assignSeq ctx id).2
            (generateStepKey id (assignSeq ctx id).1) out, (result, None)),
         mkWorld d [] u ((l ++ [EvQuery "steps"]) ++ [EvPrint (skipped id)]))
    end.
Proof.
  intros Hc Hg. unfold Step.
  rewrite <- (assignSeq_completedSteps ctx id) in Hc.
  rewrite <- (assignSeq_WorkflowID ctx id) in *.
  destruct (assignSeq ctx id) as [seqNum ctx1]; simpl in *. rewrite Hc.
  unfold mbind at 1, M_bind at 1.
  assert (GetStep (WorkflowID ctx1) (generateStepKey id seqNum)
            (mkWorld d [] u l)
          = ((out, true, None), mkWorld d [] u (l ++ [EvQuery "steps"])))
    as ->.
  { unfold GetStep, mbind, M_bind. rewrite sqlQuery_healthy.
    unfold getStep_result in Hg.
    destruct (select_step _ _ d) as [r|]; [|done].
    destruct (bool_decide _); by simplify_eq. }
  by destruct (Unmarshal out) as [result [e|]].
Qed.

Lemma getStep_result_completed workflowID stepKey d r :
  unique_step_keys d → r ∈ steps d →
  workflow_id r = workflowID → step_key r = stepKey →
  status r = "completed" →
  getStep_result workflowID stepKey d = (default [] (output r), true).
Proof.
  intros Hu Hin Hw Hk Hs. unfold getStep_result.
  rewrite (select_step_unique _ _ _ r) by done.
  rewrite bool_decide_eq_false_2; [done|]. by intros [].
Qed.

Lemma getStep_result_not_completed workflowID stepKey d :
  (∀ r, r ∈ steps d → step_key r = stepKey →
        workflow_id r = workflowID ∧ status r ≠ "completed") →
  (getStep_result workflowID stepKey d).2 = false.
Proof.
  intros Hown. unfold getStep_result.
  destruct (select_step _ _ d) as [r|] eqn:E; [|done].
  apply select_step_Some in E as (Hin & _ & Hk).
  destruct (Hown r Hin Hk) as [_ Hs]. by rewrite bool_decide_eq_true_2.
Qed.

Lemma update_completed_rows workflowID stepKey out d r :
  r ∈ steps (update_completed workflowID stepKey out d) →
  workflow_id r = workflowID → step_key r = stepKey →
  status r = "completed" ∧ output r = Some out.
Proof.
  unfold update_completed; simpl.
  intros (r0 & -> & Hin)%list_elem_of_fmap Hw Hk.
  destruct (matches workflowID stepKey r0) eqn:Hm; [done|].
  unfold matches in Hm. by rewrite !bool_decide_eq_true_2 in Hm.
Qed.

Lemma update_completed_keeps workflowID stepKey out d r :
  r ∈ steps d → workflow_id r = workflowID → step_key r = stepKey →
  set_completed out r ∈ steps (update_completed workflowID stepKey out d).
Proof.
  intros Hin Hw Hk. unfold update_completed; simpl.
  apply list_elem_of_fmap. exists r. split; [|done].
  unfold matches. by rewrite !bool_decide_eq_true_2.
Qed.

(** After the completion write every row selected for the key is completed
    with the written output. *)
Lemma getStep_result_update_completed workflowID stepKey out d :
  (∃ r, r ∈ steps d ∧ workflow_id r = workflowID ∧ step_key r = stepKey) →
  getStep_result workflowID stepKey (update_completed workflowID stepKey out d)
  = (out, true).
Proof.
  intros (r & Hin & Hw & Hk). unfold getStep_result.
  destruct (select_step _ _ _) as [r'|] eqn:E.
  - apply select_step_Some in E as (Hin' & Hw' & Hk').
    destruct (update_completed_rows _ _ _ _ _ Hin' Hw' Hk') as [-> ->]. done.
  - exfalso. eapply (select_step_None _ _ _ (set_completed out r)); [done| |done].
    by apply update_completed_keeps.
Qed.

End step_paths.


(** X11. A step completed in an earlier run is served from the store.  On a
    store that answers and honours the UNIQUE constraint, when the cache of
    the context has no entry for the key but the workflow has a completed
    record for it, [Step] does not run the function and writes nothing: the
    tables and the user's state are unchanged and only the query is sent.
    If [Unmarshal] decodes the stored output, [Step] returns the decoded
    result and caches the output; if it fails, [Step] returns the zero value
    with the error wrapped as "failed to unmarshal database result" and
    caches nothing. *)
Theorem Step_served_from_store {U T : Type} `{!Codec T} (ctx : Context)
    (id : string) (fn : Body U T) (w : World U) (r : StepRow) :
  let stepKey := generateStepKey id (assignSeq ctx id).1 in
  faults w = [] →
  unique_step_keys (db w) →
  completedSteps ctx !! stepKey = None →
  r ∈ steps (db w) → workflow_id r = WorkflowID ctx → step_key r = stepKey →
  status r = "completed" →
  db (Step ctx id fn w).2 = db w ∧
  user (Step ctx id fn w).2 = user w ∧
  faults (Step ctx id fn w).2 = [] ∧
  match Unmarshal (default [] (output r)) with
  | (result, None) =>
      (Step ctx id fn w).1.2 = (result, None) ∧
      completedSteps (Step ctx id fn w).1.1 !! stepKey
      = Some (default [] (output r)) ∧
      log (Step ctx id fn w).2
      = log w ++ [EvQuery "steps"; EvPrint (skipped id)]
  | (_, Some e) =>
      (Step ctx id fn w).1.2
      = (zero, Some (wrapError "failed to unmarshal database result" e)) ∧
      completedSteps (Step ctx id fn w).1.1 !! stepKey = None ∧
      log (Step ctx id fn w).2 = log w ++ [EvQuery "steps"]
  end.
Proof.
  intros stepKey Hf Hu Hc Hin Hw Hk Hs.
  destruct w as [d fs u l]; simpl in *; subst fs.
  rewrite (Step_found _ _ _ _ _ _ (default [] (output r)))
    by (done || by apply getStep_result_completed).
  destruct (Unmarshal (default [] (output r))) as [result [e|]]; simpl.
  - split_and!; try done. by rewrite assignSeq_completedSteps.
  - split_and!; try done; [by rewrite lookup_insert_eq|].
    by rewrite <- app_assoc.
Qed.

(** X12. A result that cannot be encoded leaves the step in progress.  On a
    store that answers, when the step is not served from memo and its key
    is held by no other workflow's record, a function that returns a result
    for which [Marshal] fails has run (its effect on the user's state is
    there), [Step] returns the zero value with the error wrapped as "failed
    to marshal result", the cache is not extended, and the record of the
    step stays in progress: nothing memoizes this run. *)
Theorem Step_marshal_failure {U T : Type} `{!Codec T} (ctx : Context)
    (id : string) (fn : Body U T) (w : World U) (result : T) (out : bytes)
    (e : error) (u' : U) :
  let stepKey := generateStepKey id (assignSeq ctx id).1 in
  faults w = [] →
  completedSteps ctx !! stepKey = None →
  (∀ r, r ∈ steps (db w) → step_key r = stepKey →
        workflow_id r = WorkflowID ctx ∧ status r ≠ "completed") →
  fn (user w) = ((result, None), u') →
  Marshal result = (out, Some e) →
  (Step ctx id fn w).1.2 = (zero, Some (wrapError "failed to marshal result" e)) ∧
  user (Step ctx id fn w).2 = u' ∧
  completedSteps (Step ctx id fn w).1.1 = completedSteps ctx ∧
  (∃ r, r ∈ steps (db (Step ctx id fn w).2) ∧
        workflow_id r = WorkflowID ctx ∧ step_key r = stepKey) ∧
  (∀ r, r ∈ steps (db (Step ctx id fn w).2) → step_key r = stepKey →
        status r = "in_progress") ∧
  (GetStep (WorkflowID ctx) stepKey (Step ctx id fn w).2).1 = ([], false, None).
Proof.
  intros stepKey Hf Hc Hown Hfn Hm.
  destruct w as [d fs u l]; simpl in *; subst fs.
  rewrite Step_runs by (done || by apply getStep_result_not_completed).
  rewrite Hfn. simpl. rewrite Hm. simpl.
  fold stepKey. set (seqNum := (assignSeq ctx id).1).
  destruct (upsert_in_progress_owned (WorkflowID ctx) stepKey id seqNum d)
    as [Hex Hown']; [intros r Hin Hk; by apply Hown|].
  assert (∀ r, r ∈ steps (upsert_in_progress (WorkflowID ctx) stepKey id seqNum d) →
               step_key r = stepKey → status r = "in_progress") as Hip.
  { unfold upsert_in_progress. destruct (existsb _ _) eqn:Hnone; simpl.
    - intros r (r0 & -> & Hin0)%list_elem_of_fmap.
      destruct (bool_decide (step_key r0 = stepKey)) eqn:E; [done|].
      by intros ?%(bool_decide_eq_false_1 _ E).
    - intros r [Hin|Hin%list_elem_of_singleton]%elem_of_app Hk; [|by subst].
      destruct (Hown r Hin Hk) as [_ _].
      assert (existsb (λ r, bool_decide (step_key r = stepKey)) (steps d) = true)
        as Htrue; [|congruence].
      apply existsb_exists. exists r.
      split; [by apply list_elem_of_In | by apply bool_decide_eq_true]. }
  split_and!; [done | done | by rewrite assignSeq_completedSteps | done | done |].
  unfold GetStep, mbind, M_bind. rewrite sqlQuery_healthy. simpl.
  destruct (select_step _ _ _) as [r'|] eqn:E; [|done].
  apply select_step_Some in E as (Hin' & _ & Hk').
  rewrite bool_decide_eq_true_2; [done|]. by rewrite (Hip r' Hin' Hk').
Qed.

Section step_order.

Context {U : Type} {T : Type} `{!Codec T}.
Implicit Types (w : World U) (d : DB) (ctx : Context) (fn : Body U T).

Lemma upsert_in_progress_has_key workflowID stepKey stepID seqNum d :
  ∃ r, r ∈ steps (upsert_in_progress workflowID stepKey stepID seqNum d) ∧
       step_key r = stepKey.
Proof.
  unfold upsert_in_progress. destruct (existsb _ _) eqn:Hex; simpl.
  - apply existsb_exists in Hex
      as (r & Hin%list_elem_of_In & Hk%bool_decide_eq_true).
    exists (set_in_progress r). split; [|done].
    apply (list_elem_of_fmap_2' _ _ r); [done|].
    by rewrite (bool_decide_eq_true_2 _ Hk).
  - eexists. split; [apply elem_of_app; right; by left | done].
Qed.

Lemma has_key_idents d d' stepKey :
  ident <$> steps d' = ident <$> steps d →
  (∃ r, r ∈ steps d ∧ step_key r = stepKey) →
  ∃ r, r ∈ steps d' ∧ step_key r = stepKey.
Proof.
  intros E (r & Hin%elem_of_idents & Hk). rewrite <- E in Hin.
  apply idents_elem_of in Hin as (r' & Hin' & Hi).
  exists r'. split; [done|]. unfold ident in Hi. by simplify_eq.
Qed.

(** What one call of [Step] adds to the trace, and whether the function ran:
    either it did not, and then neither the tables nor the user's state
    changed; or it ran once, after the marker for the key was written. *)
Lemma Step_order ctx id fn w :
  ∃ l', log (Step ctx id fn w).2 = log w ++ l' ∧
    ((user (Step ctx id fn w).2 = user w ∧
      db (Step ctx id fn w).2 = db w ∧
      Forall (λ ev, ev = EvQuery "steps" ∨ ev = EvExec "steps" ∨
                    ev = EvPrint (skipped id)) l') ∨
     (user (Step ctx id fn w).2 = (fn (user w)).2 ∧
      completedSteps ctx !! generateStepKey id (assignSeq ctx id).1 = None ∧
      (∃ r, r ∈ steps (db (Step ctx id fn w).2) ∧
            step_key r = generateStepKey id (assignSeq ctx id).1) ∧
      ∃ k k', l' = EvQuery "steps" :: replicate k (EvExec "steps")
                   ++ EvBody (WorkflowID ctx) id
                   :: replicate k' (EvExec "steps"))).
Proof.
  destruct (Step ctx id fn w) as [[ctx' res] w'] eqn:HS. simpl.
  unfold Step in HS. pose proof (assignSeq_WorkflowID ctx id) as Hwid.
  pose proof (assignSeq_completedSteps ctx id) as Hcs.
  destruct (assignSeq ctx id) as [seqNum ctx1]; simpl in *.
  set (stepKey := generateStepKey id seqNum) in *.
  set (P := λ ev, ev = EvQuery "steps" ∨ ev = EvExec "steps" ∨
                  ev = EvPrint (skipped id)).
  assert (P (EvQuery "steps")) as HPq by (left; done).
  assert (P (EvExec "steps")) as HPe by (right; left; done).
  assert (P (EvPrint (skipped id))) as HPp by (right; right; done).
  destruct (completedSteps ctx1 !! stepKey) as [cached|] eqn:Hcache.
  { destruct (Unmarshal cached) as [result [e|]]; run_ret HS.
    - exists []. rewrite app_nil_r. split; [done|]. left.
      split_and!; [done..|constructor].
    - exists [EvPrint (skipped id)]. split; [done|]. left.
      split_and!; [done..|by repeat constructor]. }
  run_bind HS.
  destruct (GetStep_post (WorkflowID ctx1) stepKey w) as (Hd & Hu & Hl & _).
  destruct (GetStep _ _ w) as [[[out found] err] w1]; simpl in *.
  destruct err as [e|].
  { run_ret HS. exists [EvQuery "steps"]. split; [done|]. left.
    split_and!; [done..|by repeat constructor]. }
  destruct found.
  { destruct (Unmarshal out) as [result [e|]]; run_ret HS.
    - exists [EvQuery "steps"]. split; [done|]. left.
      split_and!; [done..|by repeat constructor].
    - exists [EvQuery "steps"; EvPrint (skipped id)].
      rewrite Hl, <- app_assoc. split; [done|]. left.
      split_and!; [done..|by repeat constructor]. }
  run_bind HS. unfold MarkStepInProgress in HS.
  destruct (retryOnBusy_post "steps"
              (upsert_in_progress (WorkflowID ctx1) stepKey id seqNum) w1)
    as (Hu2 & [k Hl2] & Hm).
  destruct (retryOnBusy _ w1) as [err w2]; simpl in *.
  destruct Hm as [[-> Hm]|[[e ->] Hm]].
  2:{ run_ret HS. exists (EvQuery "steps" :: replicate k (EvExec "steps")).
      rewrite Hl2, Hl, <- app_assoc. split; [done|]. left.
      split_and!; [congruence | congruence |].
      constructor; [done|]. by apply Forall_replicate. }
  run_bind HS. rewrite call_post in HS.
  destruct (fn (user w2)) as [[result err] u'] eqn:Hfn; simpl in HS.
  set (w3 := mkWorld _ _ _ _) in HS.
  assert (db w3 = db w2 ∧ user w3 = u' ∧
          log w3 = log w2 ++ [EvBody (WorkflowID ctx1) id]) as (Hd3 & Hu3 & Hl3)
    by done.
  clearbody w3.
  assert (∃ r, r ∈ steps (db w2) ∧ step_key r = stepKey) as Hmark.
  { rewrite Hm. apply upsert_in_progress_has_key. }
  assert (u' = (fn (user w)).2) as Hran by (by rewrite <- Hu, <- Hu2, Hfn).
  assert (∀ (w4 : World U) k', user w4 = user w3 →
            log w4 = log w3 ++ replicate k' (EvExec "steps") →
            (∃ r, r ∈ steps (db w4) ∧ step_key r = stepKey) →
            ∃ l', log w4 = log w ++ l' ∧
              ((user w4 = user w ∧ db w4 = db w ∧ Forall P l') ∨
               (user w4 = (fn (user w)).2 ∧
                completedSteps ctx !! stepKey = None ∧
                (∃ r, r ∈ steps (db w4) ∧ step_key r = stepKey) ∧
                ∃ k k', l' = EvQuery "steps" :: replicate k (EvExec "steps")
                             ++ EvBody (WorkflowID ctx) id
                             :: replicate k' (EvExec "steps")))) as Hfin.
  { intros w4 k' Hu4 Hl4 Hr4.
    exists (EvQuery "steps" :: replicate k (EvExec "steps")
            ++ EvBody (WorkflowID ctx) id :: replicate k' (EvExec "steps")).
    split.
    - rewrite Hl4, Hl3, Hl2, Hl, Hwid. by rewrite <- !app_assoc.
    - right. split_and!; [congruence | by rewrite <- Hcs | done | eauto]. }
  destruct err as [e|].
  { run_bind HS. unfold SaveStepError in HS.
    destruct (retryOnBusy_post "steps"
                (update_failed (WorkflowID ctx1) stepKey (Error e)) w3)
      as (Hu4 & [k' Hl4] & Hs).
    destruct (retryOnBusy _ w3) as [err w4]; run_ret HS.
    apply (Hfin _ k'); [done | done |].
    destruct Hs as [[_ ->]|[_ ->]]; rewrite Hd3; [|done].
    eapply has_key_idents; [apply update_failed_idents | done]. }
  destruct (Marshal result) as [out' [e|]].
  { run_ret HS. apply (Hfin _ 0%nat); [done | by rewrite app_nil_r |].
    by rewrite Hd3. }
  run_bind HS. unfold SaveStep in HS.
  destruct (retryOnBusy_post "steps"
              (update_completed (WorkflowID ctx1) stepKey out') w3)
    as (Hu4 & [k' Hl4] & Hs).
  destruct (retryOnBusy _ w3) as [err w4]; simpl in *.
  assert (∃ r, r ∈ steps (db w4) ∧ step_key r = stepKey) as Hr4.
  { destruct Hs as [[_ ->]|[_ ->]]; rewrite Hd3; [|done].
    eapply has_key_idents; [apply update_completed_idents | done]. }
  destruct err as [e|]; run_ret HS; by apply (Hfin _ k').
Qed.

End step_order.

Section step_frame.

Context {U : Type} {T : Type} `{!Codec T}.
Implicit Types (w : World U) (d : DB) (ctx : Context) (fn : Body U T).

Lemma step_db_post_workflows workflowID stepKey stepID seqNum d d' :
  step_db_post workflowID stepKey stepID seqNum d d' →
  workflows d' = workflows d.
Proof.
  assert (workflows (upsert_in_progress workflowID stepKey stepID seqNum d)
          = workflows d) as Hup.
  { unfold upsert_in_progress. by destruct (existsb _ _). }
  by intros [->|[->|[[errMsg ->]|[out ->]]]].
Qed.

(** On a store that answers, [Step] leaves it answering. *)
Lemma Step_healthy ctx id fn w :
  faults w = [] → faults (Step ctx id fn w).2 = [].
Proof.
  intros Hf. destruct w as [d fs u l]; simpl in *; subst fs.
  destruct (completedSteps ctx !! generateStepKey id (assignSeq ctx id).1)
    as [cached|] eqn:Hc.
  - rewrite (Step_cached _ _ _ _ cached Hc).
    by destruct (Unmarshal cached) as [result [e|]].
  - destruct (getStep_result (WorkflowID ctx)
                (generateStepKey id (assignSeq ctx id).1) d)
      as [out [|]] eqn:Hg.
    + rewrite (Step_found _ _ _ _ _ _ out Hc Hg).
      by destruct (Unmarshal out) as [result [e|]].
    + rewrite Step_runs by (done || by rewrite Hg). simpl.
      destruct (fn u) as [[result [e|]] u']; [done|].
      by destruct (Marshal result) as [out' [e|]].
Qed.

End step_frame.

(** X13. The function runs only after the marker is written.  Whatever the
    driver reports, one call of [Step] either does not run the function,
    and then leaves the tables and the user's state as they were and adds
    only store statements and the printed line to the trace; or it runs the
    function exactly once, after the query and the marker statement, on a
    cache miss, and then a record with the step's key is in the tables. *)
Theorem Step_marker_before_function {U T : Type} `{!Codec T} (ctx : Context)
    (id : string) (fn : Body U T) (w : World U) :
  ∃ l', log (Step ctx id fn w).2 = log w ++ l' ∧
    ((user (Step ctx id fn w).2 = user w ∧
      db (Step ctx id fn w).2 = db w ∧
      Forall (λ ev, ev = EvQuery "steps" ∨ ev = EvExec "steps" ∨
                    ev = EvPrint (skipped id)) l') ∨
     (user (Step ctx id fn w).2 = (fn (user w)).2 ∧
      completedSteps ctx !! generateStepKey id (assignSeq ctx id).1 = None ∧
      (∃ r, r ∈ steps (db (Step ctx id fn w).2) ∧
            step_key r = generateStepKey id (assignSeq ctx id).1) ∧
      ∃ k k', l' = EvQuery "steps" :: replicate k (EvExec "steps")
                   ++ EvBody (WorkflowID ctx) id
                   :: replicate k' (EvExec "steps"))).
Proof. apply Step_order. Qed.

(** X14. [Step] only ever adds its own marker.  Whatever the driver reports,
    a call of [Step] leaves table [workflows] alone, removes no row of table
    [steps], changes the workflow, step id, sequence number and key of no
    row, adds at most one row (with the workflow of the context, the step
    id, and the sequence number and key it computed), and keeps the UNIQUE
    constraint on the keys. *)
Theorem Step_adds_only_its_marker {U T : Type} `{!Codec T} (ctx : Context)
    (id : string) (fn : Body U T) (w : World U) :
  workflows (db (Step ctx id fn w).2) = workflows (db w) ∧
  (ident <$> steps (db (Step ctx id fn w).2) = ident <$> steps (db w) ∨
   ident <$> steps (db (Step ctx id fn w).2)
   = (ident <$> steps (db w))
     ++ [(WorkflowID ctx, id, (assignSeq ctx id).1,
          generateStepKey id (assignSeq ctx id).1)]) ∧
  (length (steps (db w)) ≤ length (steps (db (Step ctx id fn w).2))
   ≤ S (length (steps (db w))))%nat ∧
  (unique_step_keys (db w) → unique_step_keys (db (Step ctx id fn w).2)).
Proof.
  destruct (Step_post ctx id fn w) as [_ Hdb].
  pose proof (step_db_post_idents _ _ _ _ _ _ Hdb) as Hid.
  split; [by eapply step_db_post_workflows|]. split; [done|].
  split; [|by eapply step_db_post_unique].
  rewrite <- !(length_fmap ident).
  destruct Hid as [->| ->]; rewrite ?length_app; simpl; lia.
Qed.

(** X15. A failed lookup stops the step before anything is written, but
    uses up the sequence number.  When the cache has no entry for the key
    and the driver answers the query with an error, [Step] returns the zero
    value with that error wrapped twice ("failed to check step in database:
    failed to get step: ..."), the function does not run, the tables are
    unchanged, and the context nevertheless keeps the sequence number it
    looked up or assigned for the step id. *)
Theorem Step_lookup_failure {U T : Type} `{!Codec T} (ctx : Context)
    (id : string) (fn : Body U T) (w : World U) (e : error)
    (fs : list (option error)) :
  completedSteps ctx !! generateStepKey id (assignSeq ctx id).1 = None →
  faults w = Some e :: fs →
  Step ctx id fn w
  = (((assignSeq ctx id).2,
      (zero, Some (wrapError "failed to check step in database"
                     (wrapError "failed to get step" e)))),
     mkWorld (db w) fs (user w) (log w ++ [EvQuery "steps"])) ∧
  stepIDToSeq (assignSeq ctx id).2 !! id = Some (assignSeq ctx id).1.
Proof.
  intros Hc Hf. split; [|apply assignSeq_lookup].
  destruct w as [d fs' u l]; simpl in *; subst fs'. unfold Step.
  rewrite <- (assignSeq_completedSteps ctx id) in Hc.
  destruct (assignSeq ctx id) as [seqNum ctx1]; simpl in *. by rewrite Hc.
Qed.

(** ** Sequence numbers are pairwise distinct *)

Section distinct_facts.

Context {U : Type}.
Implicit Types (w : World U) (d : DB) (ctx : Context).

Lemma assignSeq_distinct ctx id :
  (∀ id' n, stepIDToSeq ctx !! id' = Some n → (n ≤ sequenceNum ctx)%Z) →
  no_wrap ctx → distinct_sequence_numbers ctx →
  distinct_sequence_numbers (assignSeq ctx id).2.
Proof.
  intros Hb Hnw Hd. unfold assignSeq.
  destruct (stepIDToSeq ctx !! id) as [n|] eqn:E; simpl; [done|].
  rewrite Hnw. intros id1 id2 n. simpl.
  destruct (decide (id = id1)) as [<-|H1], (decide (id = id2)) as [<-|H2];
    rewrite ?lookup_insert_eq, ?lookup_insert_ne by done.
  - done.
  - intros [= <-] H%Hb. lia.
  - intros H%Hb [= <-]. lia.
  - apply Hd.
Qed.

Lemma same_steps_of_covers ctx d d' :
  same_steps_of (WorkflowID ctx) d d' → covers ctx d → covers ctx d'.
Proof.
  intros Hs Hc r Hr Hw.
  by apply (same_steps_of_transfer _ _ _
              (λ i, stepIDToSeq ctx !! i.1.1.2 = Some i.1.2) Hs).
Qed.

Lemma same_steps_of_counter_bounds ctx d d' :
  same_steps_of (WorkflowID ctx) d d' →
  counter_bounds ctx d → counter_bounds ctx d'.
Proof.
  intros Hs [Hm Hr]. split; [done|]. intros r Hin Hw.
  by apply (same_steps_of_transfer _ _ _
              (λ i, (i.1.2 ≤ sequenceNum ctx)%Z) Hs).
Qed.

Lemma later_distinct ctx w ctx' w' :
  covers ctx (db w) → counter_bounds ctx (db w) →
  distinct_sequence_numbers ctx →
  later no_wrap (ctx, w) (ctx', w') →
  covers ctx' (db w') ∧ counter_bounds ctx' (db w') ∧
  distinct_sequence_numbers ctx'.
Proof.
  intros Hc Hb Hd Hl.
  remember (ctx, w) as cw eqn:E0. remember (ctx', w') as cw' eqn:E1.
  revert ctx' w' E1.
  induction Hl as [cw|cw c1 w1 T C id1 fn _ IH Hnw
                  |cw c1 w1 c2 w2 _ IH HN|cw c1 w1 w2 _ IH Hs];
    intros ctx' w' E1; subst cw.
  - by simplify_eq.
  - destruct (IH eq_refl c1 w1 eq_refl) as (Hc1 & Hb1 & Hd1).
    destruct (Step_covers c1 id1 fn w1 Hc1) as (_ & Hc' & HM & _).
    simplify_eq. split_and!; [done | by apply Step_counter_bounds |].
    unfold distinct_sequence_numbers. rewrite HM.
    apply assignSeq_distinct; [by destruct Hb1 | done | done].
  - destruct (IH eq_refl c1 w1 eq_refl) as (Hc1 & Hb1 & Hd1).
    destruct (newContext_covers c1 w1 c2 w2 Hc1 HN) as (_ & _ & Hc').
    destruct (newContext_counter_bounds _ _ _ _ HN) as (_ & _ & Hb').
    simplify_eq. split_and!; [done | done |].
    apply newContext_inl in HN as (_ & _ & ->).
    intros ida idb n Ha Hb0. simpl in *.
    apply load_mapping_lookup in Ha as [Ha|(ra & Hra & <- & <-)]; [done|].
    apply load_mapping_lookup in Hb0 as [Hb0|(rb & Hrb & <- & Hn)]; [done|].
    apply elem_of_select_steps in Hra as [Hra Hwa].
    apply elem_of_select_steps in Hrb as [Hrb Hwb].
    apply (Hd1 _ _ (sequence_num ra)); [by apply Hc1|].
    rewrite <- Hn. by apply Hc1.
  - destruct (IH eq_refl c1 w1 eq_refl) as (Hc1 & Hb1 & Hd1).
    simplify_eq. split_and!; [|  | done].
    + by eapply same_steps_of_covers.
    + by eapply same_steps_of_counter_bounds.
Qed.

End distinct_facts.

(** X16. No two step ids of a workflow share a sequence number.  Take a
    context that agrees with the store on the steps of its workflow, whose
    counter bounds the sequence numbers in use, and in which distinct step
    ids have distinct numbers (a context built from a store without steps
    of the workflow is one).  Then after any calls of [Step] whose increments
    do not wrap, restarts and activity of other workflows, distinct step
    ids of the context still have distinct numbers, and two stored steps of
    the workflow with the same sequence number have the same step id. *)
Theorem sequence_numbers_distinct {U : Type} (ctx ctx' : Context)
    (w w' : World U) :
  covers ctx (db w) →
  counter_bounds ctx (db w) →
  distinct_sequence_numbers ctx →
  later no_wrap (ctx, w) (ctx', w') →
  distinct_sequence_numbers ctx' ∧
  ∀ r1 r2, r1 ∈ steps (db w') → r2 ∈ steps (db w') →
           workflow_id r1 = WorkflowID ctx' →
           workflow_id r2 = WorkflowID ctx' →
           sequence_num r1 = sequence_num r2 → step_id r1 = step_id r2.
Proof.
  intros Hc Hb Hd Hl.
  destruct (later_distinct _ _ _ _ Hc Hb Hd Hl) as (Hc' & _ & Hd').
  split; [done|]. intros r1 r2 H1 H2 Hw1 Hw2 Hn.
  apply (Hd' _ _ (sequence_num r1)); [by apply Hc'|].
  rewrite Hn. by apply Hc'.
Qed.

(** ** Memoization *)

Section memo_theorems.

Context {U : Type}.

Lemma stepped_keeps_memo (ctx ctx' : Context) id n out :
  stepped (U:=U) ctx ctx' →
  stepIDToSeq ctx !! id = Some n →
  completedSteps ctx !! generateStepKey id n = Some out →
  stepIDToSeq ctx' !! id = Some n ∧
  completedSteps ctx' !! generateStepKey id n = Some out.
Proof.
  intros Hs Hn Hc. induction Hs as [|ctx ctx' T C id' fn w _ IH]; [done|].
  destruct (IH Hn Hc) as [Hn' Hc']. by apply Step_keeps_memo.
Qed.

End memo_theorems.

(** X17. A step that has succeeded stays memoized in its context.  Once a
    call of [Step] has returned without error, then after any further calls
    of [Step] on the context (whatever the driver reports meanwhile) every
    call with the same step id is served from the cache: it leaves the
    tables, the pending driver outcomes and the user's state as they are,
    and its outcome does not depend on the function it is given. *)
Theorem Step_memoized_in_context {U T : Type} `{!Codec T} (ctx ctx' : Context)
    (id : string) (fn fn' : Body U T) (w w' : World U) :
  (Step ctx id fn w).1.2.2 = None →
  stepped (U:=U) (Step ctx id fn w).1.1 ctx' →
  db (Step ctx' id fn' w').2 = db w' ∧
  user (Step ctx' id fn' w').2 = user w' ∧
  faults (Step ctx' id fn' w').2 = faults w' ∧
  ∀ fn'' : Body U T, Step ctx' id fn'' w' = Step ctx' id fn' w'.
Proof.
  intros Hok Hs.
  destruct (Step_cache_post ctx id fn w) as [_ Hc]. specialize (Hc Hok).
  destruct Hc as [out Hout].
  destruct (Step_context_fields ctx id fn w) as (_ & HM & _).
  pose proof (assignSeq_lookup ctx id) as Hn. rewrite <- HM in Hn.
  destruct (stepped_keeps_memo _ _ _ _ _ Hs Hn Hout) as [Hn' Hout'].
  assert ((assignSeq ctx' id).1 = (assignSeq ctx id).1) as Heq.
  { unfold assignSeq at 1. by rewrite Hn'. }
  rewrite <- Heq in Hout'.
  split_and!; [..|intros fn''; by rewrite !(Step_cached _ _ _ _ out Hout')];
    rewrite (Step_cached _ _ _ _ out Hout');
    by destruct (Unmarshal out) as [result [e|]].
Qed.

(** X18. A completed record memoizes the step across a restart.  Take a
    store in which the rows of the workflow give each step id a single
    sequence number and carry the keys that [generateStepKey] makes of
    their step id and sequence number, and in which the workflow has a
    completed record.  Then in the context that [newContext] builds for
    the workflow from that store, a call of [Step] with the record's step
    id does not run the function: it leaves the tables, the pending driver
    outcomes and the user's state as they are, and its outcome does not
    depend on the function it is given.  (A store in which one step id of
    the workflow has rows with two sequence numbers is not covered.) *)
Theorem Step_memoized_after_restart {U T : Type} `{!Codec T}
    (workflowID : string) (ctx' : Context) (w w' w'' : World U) (r : StepRow)
    (fn : Body U T) :
  one_number_per_step workflowID (db w) →
  well_keyed workflowID (db w) →
  newContext workflowID w = (inl ctx', w') →
  r ∈ steps (db w) → workflow_id r = workflowID →
  status r = "completed" →
  db (Step ctx' (step_id r) fn w'').2 = db w'' ∧
  user (Step ctx' (step_id r) fn w'').2 = user w'' ∧
  faults (Step ctx' (step_id r) fn w'').2 = faults w'' ∧
  ∀ fn' : Body U T,
    Step ctx' (step_id r) fn' w'' = Step ctx' (step_id r) fn w''.
Proof.
  intros H1 Hk HN Hr Hw Hs.
  pose proof (newContext_inl _ _ _ _ HN) as (_ & _ & Hctx).
  assert (stepIDToSeq ctx' !! step_id r = Some (sequence_num r)) as Hmap.
  { rewrite Hctx. simpl.
    apply load_mapping_covers; [|by apply elem_of_select_steps].
    intros r1 r2 [? ?]%elem_of_select_steps [? ?]%elem_of_select_steps.
    by apply H1. }
  assert ((assignSeq ctx' (step_id r)).1 = sequence_num r) as Hn.
  { unfold assignSeq. by rewrite Hmap. }
  assert (is_Some (completedSteps ctx' !! step_key r)) as [out Hout].
  { rewrite Hctx. simpl.
    apply load_completed_lookup. right. exists r. split; [|done].
    unfold select_completed.
    apply list_elem_of_In, filter_In. split.
    - by apply list_elem_of_In, elem_of_select_steps.
    - by apply bool_decide_eq_true. }
  rewrite (Hk r Hr Hw), <- Hn in Hout.
  split_and!; [..|intros fn'; by rewrite !(Step_cached _ _ _ _ out Hout)];
    rewrite (Step_cached _ _ _ _ out Hout);
    by destruct (Unmarshal out) as [result [e|]].
Qed.

(** ** What a fresh context holds *)

Section hydration_facts.

Context {U : Type}.
Implicit Types (w : World U) (d : DB) (r : StepRow).

Lemma load_completed_lookup_inv (l : list StepRow) (m0 : gmap string bytes)
    k out :
  foldl (λ m r, <[step_key r := default [] (output r)]> m) m0 l !! k
  = Some out →
  m0 !! k = Some out ∨
  ∃ r, r ∈ l ∧ step_key r = k ∧ default [] (output r) = out.
Proof.
  revert m0. induction l as [|x l IH]; intros m0 H; simpl in *; [by left|].
  apply IH in H as [H|(r & Hr & ? & ?)].
  - destruct (decide (step_key x = k)) as [<-|Hne].
    + rewrite lookup_insert_eq in H. simplify_eq.
      right. exists x. split; [left | done].
    + rewrite lookup_insert_ne in H by done. by left.
  - right. exists r. split; [by right | done].
Qed.

Lemma load_mapping_is_Some (l : list StepRow) (m0 : gmap string Z) id :
  is_Some (m0 !! id) ∨ (∃ r, r ∈ l ∧ step_id r = id) →
  is_Some (foldl (λ m r, <[step_id r := sequence_num r]> m) m0 l !! id).
Proof.
  revert m0. induction l as [|x l IH]; intros m0 H; simpl.
  - destruct H as [?|(r & Hr & _)]; [done | by apply elem_of_nil in Hr].
  - apply IH. destruct (decide (step_id x = id)) as [<-|Hne].
    + left. rewrite lookup_insert_eq. by eexists.
    + destruct H as [H|(r & Hr & Hk)].
      * left. by rewrite lookup_insert_ne.
      * apply elem_of_cons in Hr as [->|Hr]; [done|]. right. eauto.
Qed.

Lemma elem_of_select_completed r workflowID d :
  r ∈ select_completed workflowID d ↔
  r ∈ steps d ∧ workflow_id r = workflowID ∧ status r = "completed".
Proof.
  unfold select_completed.
  rewrite list_elem_of_In, filter_In, <- list_elem_of_In, elem_of_select_steps.
  rewrite bool_decide_eq_true. tauto.
Qed.

Lemma newContext_frame workflowID w :
  db (newContext workflowID w).2 = db w ∧
  user (newContext workflowID w).2 = user w.
Proof.
  destruct (newContext workflowID w) as [res w'] eqn:HN. simpl.
  unfold newContext in HN. run_bind HN.
  destruct (LoadCompletedSteps_post workflowID w) as (Hd1 & Hu1 & _ & _).
  destruct (LoadCompletedSteps workflowID w) as [[cs [e|]] w1]; simpl in *;
    [by run_ret HN|].
  run_bind HN.
  destruct (LoadStepIDMapping_post workflowID w1) as (Hd2 & Hu2 & _ & _).
  destruct (LoadStepIDMapping workflowID w1) as [[ms [e|]] w2]; simpl in *;
    [run_ret HN; by rewrite Hd2, Hu2|].
  run_bind HN.
  destruct (GetMaxSequenceNum_post workflowID w2) as (Hd3 & Hu3 & _ & _).
  destruct (GetMaxSequenceNum workflowID w2) as [[mx [e|]] w3]; simpl in *;
    run_ret HN; by rewrite Hd3, Hu3, Hd2, Hu2.
Qed.

End hydration_facts.

(** X19. What [newContext] loads.  Building a context never writes to the
    tables and does not touch the user's state, whatever the driver
    reports.  When a context comes out, it is for the given workflow; its
    cache holds an output exactly for the keys of the workflow's completed
    records, each output being that of such a record (empty for NULL);
    its step-id map is defined exactly on the step ids of the workflow's
    rows, each number being that of such a row; its counter bounds the
    sequence numbers of the workflow's rows and is the number of one of
    them, or 0 with empty maps when the workflow has no row. *)
Theorem newContext_hydrates {U : Type} (workflowID : string) (w : World U) :
  db (newContext workflowID w).2 = db w ∧
  user (newContext workflowID w).2 = user w ∧
  ∀ ctx, (newContext workflowID w).1 = inl ctx →
    WorkflowID ctx = workflowID ∧
    (∀ k out, completedSteps ctx !! k = Some out →
       ∃ r, r ∈ steps (db w) ∧ workflow_id r = workflowID ∧
            status r = "completed" ∧ step_key r = k ∧
            default [] (output r) = out) ∧
    (∀ r, r ∈ steps (db w) → workflow_id r = workflowID →
          status r = "completed" →
          is_Some (completedSteps ctx !! step_key r)) ∧
    (∀ id n, stepIDToSeq ctx !! id = Some n →
       ∃ r, r ∈ steps (db w) ∧ workflow_id r = workflowID ∧
            step_id r = id ∧ sequence_num r = n) ∧
    (∀ r, r ∈ steps (db w) → workflow_id r = workflowID →
          is_Some (stepIDToSeq ctx !! step_id r) ∧
          (sequence_num r ≤ sequenceNum ctx)%Z) ∧
    ((∀ r, r ∈ steps (db w) → workflow_id r ≠ workflowID) →
       sequenceNum ctx = 0%Z ∧ completedSteps ctx = ∅ ∧ stepIDToSeq ctx = ∅) ∧
    (∀ r, r ∈ steps (db w) → workflow_id r = workflowID →
       ∃ r', r' ∈ steps (db w) ∧ workflow_id r' = workflowID ∧
             sequence_num r' = sequenceNum ctx).
Proof.
  destruct (newContext_frame workflowID w) as [Hd Hu].
  split; [done|]. split; [done|]. intros ctx Hctx.
  destruct (newContext workflowID w) as [res w'] eqn:HN. simpl in Hctx.
  subst res. apply newContext_inl in HN as (_ & _ & ->). simpl.
  split; [done|]. split.
  { intros k out [H|(r & Hr & Hk & Ho)]%load_completed_lookup_inv; [done|].
    apply elem_of_select_completed in Hr as (? & ? & ?). by exists r. }
  split.
  { intros r Hr Hw Hs. apply load_completed_lookup. right. exists r.
    split; [by apply elem_of_select_completed | done]. }
  split.
  { intros id n [H|(r & Hr & Hi & Hn)]%load_mapping_lookup; [done|].
    apply elem_of_select_steps in Hr as [? ?]. by exists r. }
  split.
  { intros r Hr Hw. split.
    - apply load_mapping_is_Some. right. exists r.
      split; [by apply elem_of_select_steps | done].
    - destruct (select_max_sequence workflowID (db w)) as [m|] eqn:E; simpl.
      + eapply select_max_sequence_upper; [done | by apply elem_of_rows_of].
      + apply select_max_sequence_None in E.
        assert (r ∈ rows_of workflowID (db w)) as Hin
          by by apply elem_of_rows_of.
        rewrite E in Hin. by apply elem_of_nil in Hin. }
  split.
  { intros Hno.
    assert (rows_of workflowID (db w) = []) as Hrows.
    { destruct (rows_of workflowID (db w)) as [|x l] eqn:E; [done|].
      assert (x ∈ rows_of workflowID (db w)) as Hx by (rewrite E; left).
      apply elem_of_rows_of in Hx as [Hx Hw]. by destruct (Hno x Hx). }
    unfold select_completed, select_steps. rewrite Hrows. simpl.
    by apply select_max_sequence_None in Hrows as ->. }
  intros r Hr Hw.
  destruct (select_max_sequence workflowID (db w)) as [m|] eqn:E; simpl.
  - apply select_max_sequence_attained in E as (r' & Hr' & Hm).
    apply elem_of_rows_of in Hr' as [? ?]. by exists r'.
  - apply select_max_sequence_None in E.
    assert (r ∈ rows_of workflowID (db w)) as Hin by by apply elem_of_rows_of.
    rewrite E in Hin. by apply elem_of_nil in Hin.
Qed.

(** ** Storage operations on a held key *)

Section held_key_facts.

Context {U : Type}.
Implicit Types (w : World U) (d : DB) (r : StepRow).

Lemma find_map_frame {A} (p : A → bool) (f : A → A) (l : list A) :
  (∀ x, p (f x) = p x) → (∀ x, p x = true → f x = x) →
  find p (map f l) = find p l.
Proof.
  intros Hp Hf. induction l as [|x l IH]; [done|]. simpl.
  rewrite Hp. destruct (p x) eqn:E; [by rewrite Hf | done].
Qed.

Lemma matches_other workflowID stepKey workflowID' stepKey' r :
  (workflowID', stepKey') ≠ (workflowID, stepKey) →
  matches workflowID' stepKey' r = true → matches workflowID stepKey r = false.
Proof.
  unfold matches. intros Hne [H1%bool_decide_eq_true H2%bool_decide_eq_true]%andb_true_iff.
  apply andb_false_iff.
  destruct (decide (workflowID' = workflowID)) as [->|Hw].
  - right. apply bool_decide_eq_false. congruence.
  - left. apply bool_decide_eq_false. congruence.
Qed.

Lemma select_step_update_completed_other workflowID stepKey out
    workflowID' stepKey' d :
  (workflowID', stepKey') ≠ (workflowID, stepKey) →
  select_step workflowID' stepKey' (update_completed workflowID stepKey out d)
  = select_step workflowID' stepKey' d.
Proof.
  intros Hne. unfold select_step, update_completed. simpl.
  apply find_map_frame.
  - intros x. by destruct (matches workflowID stepKey x).
  - intros x Hx. by rewrite (matches_other _ _ _ _ _ Hne Hx).
Qed.

Lemma select_step_update_failed_other workflowID stepKey errMsg
    workflowID' stepKey' d :
  (workflowID', stepKey') ≠ (workflowID, stepKey) →
  select_step workflowID' stepKey' (update_failed workflowID stepKey errMsg d)
  = select_step workflowID' stepKey' d.
Proof.
  intros Hne. unfold select_step, update_failed. simpl.
  apply find_map_frame.
  - intros x. by destruct (matches workflowID stepKey x).
  - intros x Hx. by rewrite (matches_other _ _ _ _ _ Hne Hx).
Qed.

Lemma getStep_result_update_failed workflowID stepKey errMsg d :
  getStep_result workflowID stepKey (update_failed workflowID stepKey errMsg d)
  = ([], false).
Proof.
  unfold getStep_result.
  destruct (select_step _ _ _) as [r'|] eqn:E; [|done].
  apply select_step_Some in E as (Hin' & Hw' & Hk').
  destruct (update_failed_rows _ _ _ _ _ Hin' Hw' Hk') as [-> _]. done.
Qed.

Lemma GetStep_healthy workflowID stepKey d (u : U) l :
  GetStep workflowID stepKey (mkWorld d [] u l)
  = ((getStep_result workflowID stepKey d, None),
     mkWorld d [] u (l ++ [EvQuery "steps"])).
Proof.
  unfold GetStep, mbind, M_bind. rewrite sqlQuery_healthy.
  unfold getStep_result.
  destruct (select_step _ _ d) as [r|]; [|done].
  by destruct (bool_decide _).
Qed.

End held_key_facts.

(** X20. The marker on a key that is already held.  When some row of table
    [steps] has the key (a row of any workflow, in any state, completed
    included) and the driver reports no error, [MarkStepInProgress] adds no
    row: the workflow, step id, sequence number and key of every row stay
    as they are, and the arguments [workflowID], [stepID] and [sequenceNum]
    are not stored.  Every row with the key is set to "in_progress" with
    its output and error text kept, and every other row is left as it
    is. *)
Theorem MarkStepInProgress_on_held_key {U : Type}
    (workflowID stepKey stepID : string) (seqNum : Z) (w : World U)
    (r : StepRow) :
  faults w = [] →
  r ∈ steps (db w) →
  step_key r = stepKey →
  let w' := (MarkStepInProgress workflowID stepKey stepID seqNum w).2 in
  (MarkStepInProgress workflowID stepKey stepID seqNum w).1 = None ∧
  workflows (db w') = workflows (db w) ∧
  ident <$> steps (db w') = ident <$> steps (db w) ∧
  set_in_progress r ∈ steps (db w') ∧
  (∀ r', r' ∈ steps (db w') → step_key r' = stepKey →
         ∃ r0, r0 ∈ steps (db w) ∧ r' = set_in_progress r0) ∧
  (∀ r', step_key r' ≠ stepKey →
         (r' ∈ steps (db w') ↔ r' ∈ steps (db w))).
Proof.
  intros Hf Hin Hk. destruct w as [d fs u l]. simpl in Hf, Hin. subst fs.
  unfold MarkStepInProgress. rewrite retryOnBusy_healthy. simpl.
  assert (existsb (λ r, bool_decide (step_key r = stepKey)) (steps d) = true)
    as Hex.
  { apply existsb_exists. exists r.
    split; [by apply list_elem_of_In | by apply bool_decide_eq_true]. }
  unfold upsert_in_progress. rewrite Hex. simpl.
  split; [done|]. split; [done|]. split.
  { rewrite <- list_fmap_compose. apply list_fmap_ext.
    intros _ x _. simpl. by destruct (bool_decide _). }
  split.
  { apply list_elem_of_fmap. exists r.
    by rewrite (bool_decide_eq_true_2 _ Hk). }
  split.
  { intros r' (r0 & -> & Hin0)%list_elem_of_fmap Hk'.
    destruct (bool_decide (step_key r0 = stepKey)) eqn:E.
    - by exists r0.
    - by apply bool_decide_eq_false in E. }
  intros r' Hne. split.
  - intros (r0 & -> & Hin0)%list_elem_of_fmap.
    destruct (bool_decide (step_key r0 = stepKey)) eqn:E; [|done].
    by apply bool_decide_eq_true in E.
  - intros Hin'. apply list_elem_of_fmap. exists r'.
    by rewrite (bool_decide_eq_false_2 _ Hne).
Qed.

(** X21. Saving and reading back.  When the workflow has a row under the
    key and the driver reports no error, [GetStep] after [SaveStep] returns
    the saved output with [found] true, and [GetStep] after [SaveStepError]
    returns [found] false.  For any other pair of workflow and key, either
    write leaves the answer of [GetStep] as it was. *)
Theorem SaveStep_then_GetStep {U : Type} (workflowID stepKey : string)
    (out : bytes) (errMsg : string) (w : World U) (r : StepRow) :
  faults w = [] →
  r ∈ steps (db w) →
  workflow_id r = workflowID →
  step_key r = stepKey →
  (GetStep workflowID stepKey (SaveStep workflowID stepKey out w).2).1
  = (out, true, None) ∧
  (GetStep workflowID stepKey
     (SaveStepError workflowID stepKey errMsg w).2).1
  = ([], false, None) ∧
  ∀ workflowID' stepKey',
    (workflowID', stepKey') ≠ (workflowID, stepKey) →
    (GetStep workflowID' stepKey' (SaveStep workflowID stepKey out w).2).1
    = (GetStep workflowID' stepKey' w).1 ∧
    (GetStep workflowID' stepKey'
       (SaveStepError workflowID stepKey errMsg w).2).1
    = (GetStep workflowID' stepKey' w).1.
Proof.
  intros Hf Hin Hw Hk. destruct w as [d fs u l]. simpl in Hf, Hin. subst fs.
  unfold SaveStep, SaveStepError. rewrite !retryOnBusy_healthy. simpl.
  rewrite !GetStep_healthy. simpl.
  split; [by rewrite getStep_result_update_completed by eauto|].
  split; [by rewrite getStep_result_update_failed|].
  intros workflowID' stepKey' Hne. rewrite !GetStep_healthy. simpl.
  unfold getStep_result.
  by rewrite select_step_update_completed_other,
    select_step_update_failed_other.
Qed.

(** X22. A failure that is not a lock.  When the first statement of
    [Execute] fails with an error that is not a busy error, [Execute]
    returns that error wrapped as "failed to create workflow" after one
    attempt: the tables and the user's state are as before, and the
    procedure has not been started. *)
Theorem Execute_create_failure {U : Type} (workflowID : string)
    (workflowFn : Context → M U (option error)) (w : World U) (e : error)
    (fs : list (option error)) :
  faults w = Some e :: fs →
  isSQLiteBusy (Some e) = false →
  Execute workflowID workflowFn w
  = (Some (wrapError "failed to create workflow" e),
     mkWorld (db w) fs (user w) (log w ++ [EvExec "workflows"])).
Proof.
  intros Hf Hb. destruct w as [d fs0 u l]. simpl in Hf. subst fs0.
  unfold Execute. unfold mbind at 1, M_bind at 1.
  unfold CreateWorkflow, retryOnBusy. cbv zeta.
  cbn [retryLoop]. unfold mbind at 1, M_bind at 1.
  assert (sqlExec "workflows" (insert_or_ignore_workflow workflowID "running")
            (mkWorld d (Some e :: fs) u l)
          = (Some e, mkWorld d fs u (l ++ [EvExec "workflows"]))) as ->
    by reflexivity.
  rewrite Hb. reflexivity.
Qed.


(** X24. A result that could not be saved.  With no cached output and no
    row under the key, when the lookup and the marker go through and the
    completion write fails with an error that is not a busy error, [Step]
    has run the function once and returns the zero value with the error
    wrapped as "failed to save step".  The result is not cached, and the
    row of the step is left in progress without output, so that the next
    lookup for the key does not find a completed step. *)
Theorem Step_save_failure {U T : Type} `{!Codec T} (ctx : Context)
    (id : string) (fn : Body U T) (w : World U) (result : T) (out : bytes)
    (u' : U) (e : error) (fs : list (option error)) :
  let stepKey := generateStepKey id (assignSeq ctx id).1 in
  completedSteps ctx !! stepKey = None →
  (∀ r, r ∈ steps (db w) → step_key r ≠ stepKey) →
  faults w = None :: None :: Some e :: fs →
  isSQLiteBusy (Some e) = false →
  fn (user w) = ((result, None), u') →
  Marshal result = (out, None) →
  Step ctx id fn w
  = (((assignSeq ctx id).2,
      (zero, Some (wrapError "failed to save step" e))),
     mkWorld
       (mkDB (workflows (db w))
          (steps (db w) ++
           [mkStepRow (WorkflowID ctx) id (assignSeq ctx id).1 stepKey
              "in_progress" None None]))
       fs u'
       (log w ++ [EvQuery "steps"; EvExec "steps"; EvBody (WorkflowID ctx) id;
                  EvExec "steps"])).
Proof.
  intros stepKey Hc Hno Hf Hb Hfn Hm. subst stepKey.
  destruct w as [d fs0 u l]. simpl in Hno, Hf, Hfn. subst fs0.
  unfold Step.
  rewrite <- (assignSeq_completedSteps ctx id) in Hc.
  rewrite <- (assignSeq_WorkflowID ctx id).
  destruct (assignSeq ctx id) as [seqNum ctx1]; simpl in Hc, Hno |- *.
  rewrite Hc.
  assert (select_step (WorkflowID ctx1) (generateStepKey id seqNum) d = None)
    as Hsel.
  { destruct (select_step _ _ d) as [r|] eqn:E; [|done].
    apply select_step_Some in E as (Hin & _ & Hk). by destruct (Hno r Hin). }
  assert (existsb (λ r, bool_decide (step_key r = generateStepKey id seqNum))
            (steps d) = false) as Hex.
  { destruct (existsb _ _) eqn:E; [|done].
    apply existsb_exists in E
      as (r & Hin%list_elem_of_In & Hk%bool_decide_eq_true).
    by destruct (Hno r Hin). }
  unfold mbind at 1, M_bind at 1.
  assert (GetStep (WorkflowID ctx1) (generateStepKey id seqNum)
            (mkWorld d (None :: None :: Some e :: fs) u l)
          = (([], false, None),
             mkWorld d (None :: Some e :: fs) u (l ++ [EvQuery "steps"])))
    as ->.
  { unfold GetStep, mbind, M_bind, sqlQuery, emit, driver, getDB; simpl.
    unfold mbind, M_bind; simpl. by rewrite Hsel. }
  unfold mbind at 1, M_bind at 1.
  assert (MarkStepInProgress (WorkflowID ctx1) (generateStepKey id seqNum) id
            seqNum
            (mkWorld d (None :: Some e :: fs) u (l ++ [EvQuery "steps"]))
          = (None,
             mkWorld
               (upsert_in_progress (WorkflowID ctx1)
                  (generateStepKey id seqNum) id seqNum d)
               (Some e :: fs) u
               ((l ++ [EvQuery "steps"]) ++ [EvExec "steps"]))) as ->
    by reflexivity.
  unfold mbind at 1, M_bind at 1.
  unfold call at 1, mbind at 1, M_bind at 1, emit at 1. simpl.
  rewrite Hfn, Hm.
  unfold mbind at 1, M_bind at 1.
  unfold SaveStep, retryOnBusy. cbv zeta. cbn [retryLoop].
  unfold mbind at 1, M_bind at 1.
  match goal with
  | |- context [sqlExec ?t ?s ?w0] =>
      assert (sqlExec t s w0
              = (Some e, mkWorld (db w0) fs (user w0)
                           (log w0 ++ [EvExec "steps"]))) as ->
        by reflexivity
  end.
  rewrite Hb. unfold mret, M_ret. simpl.
  unfold upsert_in_progress. rewrite Hex. simpl.
  by rewrite <- !app_assoc.
Qed.

(** ** The properties above on concrete stores *)

Section fixture_facts.

Lemma oneStep_frame id (fn : Body nat bool) ctx (w1 : World nat) :
  workflows (db (oneStep id fn ctx w1).2) = workflows (db w1) ∧
  (faults w1 = [] → faults (oneStep id fn ctx w1).2 = []).
Proof.
  unfold oneStep, mbind, M_bind.
  destruct (Step_post ctx id fn w1) as [_ Hpost].
  pose proof (Step_healthy ctx id fn w1) as Hh.
  destruct (Step ctx id fn w1) as [[c [r e]] w2]; simpl in *.
  split; [by eapply step_db_post_workflows | done].
Qed.

Lemma resumed_covers : covers resumedContext (db resumedWorld).
Proof.
  intros r Hr _. simpl in Hr.
  apply elem_of_cons in Hr as [->|Hr]; [reflexivity|].
  apply list_elem_of_singleton in Hr as ->. reflexivity.
Qed.

Lemma resumed_well_keyed : well_keyed "w" (db resumedWorld).
Proof.
  intros r Hr _. simpl in Hr.
  apply elem_of_cons in Hr as [->|Hr]; [reflexivity|].
  apply list_elem_of_singleton in Hr as ->. reflexivity.
Qed.

Lemma resumed_one_number : one_number_per_step "w" (db resumedWorld).
Proof.
  intros r1 r2 H1 H2 _ _ Hid. simpl in H1, H2.
  apply elem_of_cons in H1 as [->|H1];
    [|apply list_elem_of_singleton in H1 as ->];
    (apply elem_of_cons in H2 as [->|H2];
      [|apply list_elem_of_singleton in H2 as ->]);
    done || discriminate Hid.
Qed.

Lemma resumed_lookup id n :
  stepIDToSeq resumedContext !! id = Some n →
  (id = "a" ∧ n = 1%Z) ∨ (id = "b" ∧ n = 2%Z).
Proof.
  simpl. intros [[<- <-]|[_ H]]%lookup_insert_Some; [by left|].
  apply lookup_singleton_Some in H as [<- <-]. by right.
Qed.

Lemma resumed_counter_bounds : counter_bounds resumedContext (db resumedWorld).
Proof.
  split.
  - intros id n [[_ ->]|[_ ->]]%resumed_lookup; simpl; lia.
  - intros r Hr _. simpl in Hr.
    apply elem_of_cons in Hr as [->|Hr]; [simpl; lia|].
    apply list_elem_of_singleton in Hr as ->. simpl; lia.
Qed.

Lemma resumed_distinct : distinct_sequence_numbers resumedContext.
Proof.
  intros id1 id2 n [[-> ->]|[-> ->]]%resumed_lookup
    [[-> ?]|[-> ?]]%resumed_lookup; done.
Qed.

End fixture_facts.

Lemma isSQLiteBusy_wrapped_witness :
  isSQLiteBusy (Some lockedError) = true ∧
  isSQLiteBusy (Some (wrapError "failed to save step" lockedError)) = true ∧
  isSQLiteBusy (Some (wrapError "max retries exceeded" lockedError)) = true.
Proof.
  split; [reflexivity|].
  apply (isSQLiteBusy_wrapped "failed to save step" lockedError). reflexivity.
Defined.

Lemma retryOnBusy_error_not_busy_witness :
  retryOnBusy (sqlExec "steps" (update_completed "w" "a:1" []))
    (withFaults [Some lockedError; Some diskError; None] resumedWorld)
  = (Some diskError,
     mkWorld (db resumedWorld) [None] 1%nat [EvExec "steps"; EvExec "steps"]).
Proof.
  apply (retryOnBusy_error_not_busy "steps" (update_completed "w" "a:1" [])
           (withFaults [Some lockedError; Some diskError; None] resumedWorld)
           [lockedError] diskError [None]);
    [reflexivity | repeat constructor | simpl; lia | reflexivity].
Defined.

Lemma retryOnBusy_exhausted_witness :
  retryOnBusy (sqlExec "steps" (update_completed "w" "a:1" []))
    (withFaults (replicate 5 (Some lockedError) ++ [None]) resumedWorld)
  = (Some (wrapError "max retries exceeded" lockedError),
     mkWorld (db resumedWorld) [None] 1%nat (replicate 5 (EvExec "steps"))).
Proof.
  apply (retryOnBusy_exhausted "steps" (update_completed "w" "a:1" [])
           (withFaults (replicate 5 (Some lockedError) ++ [None]) resumedWorld)
           (replicate 4 lockedError) lockedError [None]);
    [reflexivity | repeat constructor | reflexivity].
Defined.

Lemma retryOnBusy_recovers_after_busy_witness :
  retryOnBusy (sqlExec "steps" (update_completed "w" "a:1" []))
    (withFaults [Some lockedError; Some lockedError] resumedWorld)
  = (None,
     mkWorld (update_completed "w" "a:1" [] (db resumedWorld)) [] 1%nat
       (replicate 3 (EvExec "steps"))).
Proof.
  apply (retryOnBusy_recovers_after_busy "steps"
           (update_completed "w" "a:1" [])
           (withFaults [Some lockedError; Some lockedError] resumedWorld)
           [lockedError; lockedError] []);
    [reflexivity | repeat constructor | simpl; lia | left; reflexivity].
Defined.

Lemma GetWorkflowStatus_reads_back_witness :
  faults resumedWorld = [] ∧
  (GetWorkflowStatus "w" (CreateWorkflow "w" resumedWorld).2).1
  = ("failed", None) ∧
  (GetWorkflowStatus "w"
     (UpdateWorkflowStatus "w" "completed" resumedWorld).2).1
  = ("completed", None).
Proof.
  destruct (GetWorkflowStatus_reads_back "w" "completed" resumedWorld eq_refl)
    as (Hc & Hu & _).
  split; [reflexivity|]. split; [exact Hc|].
  apply Hu. exists "failed". reflexivity.
Defined.

Lemma Execute_lifecycle_witness :
  faults resumedWorld = [] ∧
  workflows (db resumedWorld) !! "w" ≠ Some "completed" ∧
  ∃ ctx (w1 : World nat),
    (newContext "w" resumedWorld).1 = inl ctx ∧
    steps (db w1) = steps (db resumedWorld) ∧
    user (Execute "w" (oneStep "c" (counted true)) resumedWorld).2
    = user (oneStep "c" (counted true) ctx w1).2.
Proof.
  assert (workflows (db resumedWorld) !! "w" ≠ Some "completed") as Hst
    by discriminate.
  destruct (Execute_lifecycle "w" (oneStep "c" (counted true)) resumedWorld
              eq_refl Hst)
    as (ctx & w1 & Hctx & Hsteps & _ & _ & _ & _ & _ & Hu & _).
  { intros ctx w1 Hf.
    destruct (oneStep_frame "c" (counted true) ctx w1) as [Hw Hh].
    split; [exact (Hh Hf) | exact Hw]. }
  split; [reflexivity|]. split; [exact Hst|]. exists ctx, w1.
  split; [exact Hctx|]. split; [exact Hsteps | exact Hu].
Defined.


Lemma Step_served_from_store_witness :
  faults resumedWorld = [] ∧
  unique_step_keys (db resumedWorld) ∧
  completedSteps coldContext !! "b:2" = None ∧
  db (Step coldContext "b" (counted false) resumedWorld).2 = db resumedWorld ∧
  user (Step coldContext "b" (counted false) resumedWorld).2 = 1%nat ∧
  (Step coldContext "b" (counted false) resumedWorld).1.2 = (true, None).
Proof.
  assert (unique_step_keys (db resumedWorld)) as Huniq.
  { unfold unique_step_keys. simpl. apply (bool_decide_unpack _). by vm_compute. }
  assert (completedRow ∈ steps (db resumedWorld)) as Hin
    by (right; left).
  destruct (Step_served_from_store coldContext "b" (counted false)
              resumedWorld completedRow eq_refl Huniq eq_refl Hin eq_refl
              eq_refl eq_refl)
    as (Hd & Hu & _ & Hres & _).
  split; [reflexivity|]. split; [exact Huniq|]. split; [reflexivity|].
  split; [exact Hd|]. split; [exact Hu | exact Hres].
Defined.

Lemma Step_marshal_failure_witness :
  faults resumedWorld = [] ∧
  completedSteps resumedContext !! "a:1" = None ∧
  (Step (Codec0 := unsupported_Codec) resumedContext "a" countedUnit
     resumedWorld).1.2
  = (tt, Some (wrapError "failed to marshal result"
            (errorString "json: unsupported type: chan int"))) ∧
  user (Step (Codec0 := unsupported_Codec) resumedContext "a" countedUnit
          resumedWorld).2 = 2%nat ∧
  (GetStep "w" "a:1"
     (Step (Codec0 := unsupported_Codec) resumedContext "a" countedUnit
        resumedWorld).2).1 = ([], false, None).
Proof.
  assert (∀ r, r ∈ steps (db resumedWorld) → step_key r = "a:1" →
               workflow_id r = WorkflowID resumedContext ∧
               status r ≠ "completed") as Hown.
  { intros r Hr Hkey. simpl in Hr.
    apply elem_of_cons in Hr as [->|Hr]; [done|].
    apply list_elem_of_singleton in Hr as ->. discriminate Hkey. }
  destruct (Step_marshal_failure (Codec0 := unsupported_Codec) resumedContext
              "a" countedUnit resumedWorld tt []
              (errorString "json: unsupported type: chan int") 2%nat
              eq_refl eq_refl Hown eq_refl eq_refl)
    as (Hres & Hu & _ & _ & _ & Hget).
  split; [reflexivity|]. split; [reflexivity|].
  split; [exact Hres|]. split; [exact Hu | exact Hget].
Defined.

Lemma Step_lookup_failure_witness :
  completedSteps resumedContext !! "a:1" = None ∧
  Step resumedContext "a" (counted true)
    (withFaults [Some diskError] resumedWorld)
  = ((resumedContext,
      (false, Some (wrapError "failed to check step in database"
                      (wrapError "failed to get step" diskError)))),
     mkWorld (db resumedWorld) [] 1%nat [EvQuery "steps"]).
Proof.
  destruct (Step_lookup_failure resumedContext "a" (counted true)
              (withFaults [Some diskError] resumedWorld) diskError []
              eq_refl eq_refl) as [HS _].
  split; [reflexivity | exact HS].
Defined.

Lemma sequence_numbers_distinct_witness :
  covers resumedContext (db resumedWorld) ∧
  counter_bounds resumedContext (db resumedWorld) ∧
  distinct_sequence_numbers resumedContext ∧
  distinct_sequence_numbers restartedContext ∧
  ∀ r1 r2, r1 ∈ steps (db restartedWorld) → r2 ∈ steps (db restartedWorld) →
           workflow_id r1 = WorkflowID restartedContext →
           workflow_id r2 = WorkflowID restartedContext →
           sequence_num r1 = sequence_num r2 → step_id r1 = step_id r2.
Proof.
  split; [exact resumed_covers|]. split; [exact resumed_counter_bounds|].
  split; [exact resumed_distinct|].
  apply (sequence_numbers_distinct resumedContext restartedContext resumedWorld
           restartedWorld resumed_covers resumed_counter_bounds
           resumed_distinct).
  apply (later_restart _ _ afterStep.1.1 afterStep.2); [|by vm_compute].
  apply (later_Step _ _ resumedContext resumedWorld bool _ "c" (counted true));
    [apply later_refl | reflexivity].
Defined.

Lemma Step_memoized_in_context_witness :
  (Step resumedContext "c" (counted true) resumedWorld).1.2.2 = None ∧
  db (Step (Step afterStep.1.1 "d" (counted true) afterStep.2).1.1 "c"
        (counted false) resumedWorld).2 = db resumedWorld ∧
  user (Step (Step afterStep.1.1 "d" (counted true) afterStep.2).1.1 "c"
          (counted false) resumedWorld).2 = 1%nat.
Proof.
  assert ((Step resumedContext "c" (counted true) resumedWorld).1.2.2 = None)
    as Hok by (by vm_compute).
  destruct (Step_memoized_in_context resumedContext
              (Step afterStep.1.1 "d" (counted true) afterStep.2).1.1
              "c" (counted true) (counted false) resumedWorld resumedWorld Hok)
    as (Hd & Hu & _).
  { apply (stepped_Step _ _ bool _ "d" (counted true)). apply stepped_refl. }
  split; [exact Hok|]. split; [exact Hd | exact Hu].
Defined.

Lemma Step_memoized_after_restart_witness :
  one_number_per_step "w" (db resumedWorld) ∧
  well_keyed "w" (db resumedWorld) ∧
  (newContext "w" resumedWorld).1 = inl resumedContext ∧
  db (Step resumedContext "b" (counted false) resumedWorld).2
  = db resumedWorld ∧
  user (Step resumedContext "b" (counted false) resumedWorld).2 = 1%nat.
Proof.
  assert (newContext "w" resumedWorld
          = (inl resumedContext, (newContext "w" resumedWorld).2)) as HN
    by (by vm_compute).
  assert (completedRow ∈ steps (db resumedWorld)) as Hin
    by (right; left).
  destruct (Step_memoized_after_restart "w" resumedContext
              resumedWorld _ resumedWorld completedRow (counted false)
              resumed_one_number resumed_well_keyed HN Hin eq_refl eq_refl)
    as (Hd & Hu & _).
  split; [exact resumed_one_number|]. split; [exact resumed_well_keyed|].
  split; [by rewrite HN|]. split; [exact Hd | exact Hu].
Defined.

Lemma MarkStepInProgress_on_held_key_witness :
  faults resumedWorld = [] ∧
  completedRow ∈ steps (db resumedWorld) ∧
  (MarkStepInProgress "other" "b:2" "b" 2 resumedWorld).1 = None ∧
  set_in_progress completedRow
  ∈ steps (db (MarkStepInProgress "other" "b:2" "b" 2 resumedWorld).2) ∧
  ident <$> steps (db (MarkStepInProgress "other" "b:2" "b" 2 resumedWorld).2)
  = ident <$> steps (db resumedWorld).
Proof.
  assert (completedRow ∈ steps (db resumedWorld)) as Hin
    by (right; left).
  destruct (MarkStepInProgress_on_held_key "other" "b:2" "b" 2 resumedWorld
              completedRow eq_refl Hin eq_refl)
    as (Hres & _ & Hid & Hrow & _).
  split; [reflexivity|]. split; [exact Hin|]. split; [exact Hres|].
  split; [exact Hrow | exact Hid].
Defined.

Lemma SaveStep_then_GetStep_witness :
  faults resumedWorld = [] ∧
  markerRow ∈ steps (db resumedWorld) ∧
  (GetStep "w" "a:1"
     (SaveStep "w" "a:1" (String.list_byte_of_string "true")
        resumedWorld).2).1
  = (String.list_byte_of_string "true", true, None) ∧
  (GetStep "w" "b:2"
     (SaveStepError "w" "a:1" "boom" resumedWorld).2).1
  = (GetStep "w" "b:2" resumedWorld).1.
Proof.
  assert (markerRow ∈ steps (db resumedWorld)) as Hin by left.
  destruct (SaveStep_then_GetStep "w" "a:1"
              (String.list_byte_of_string "true") "boom" resumedWorld
              markerRow eq_refl Hin eq_refl eq_refl)
    as (Hget & _ & Hother).
  destruct (Hother "w" "b:2") as [_ Hb]; [discriminate|].
  split; [reflexivity|]. split; [exact Hin|]. split; [exact Hget | exact Hb].
Defined.

Lemma Execute_create_failure_witness :
  isSQLiteBusy (Some diskError) = false ∧
  Execute "w" (oneStep "c" (counted true))
    (withFaults [Some diskError] resumedWorld)
  = (Some (wrapError "failed to create workflow" diskError),
     mkWorld (db resumedWorld) [] 1%nat [EvExec "workflows"]).
Proof.
  split; [reflexivity|].
  apply (Execute_create_failure "w" (oneStep "c" (counted true))
           (withFaults [Some diskError] resumedWorld) diskError []);
    reflexivity.
Defined.


Lemma Step_save_failure_witness :
  completedSteps resumedContext !! "c:3" = None ∧
  isSQLiteBusy (Some diskError) = false ∧
  (Step resumedContext "c" (counted true)
     (withFaults [None; None; Some diskError] resumedWorld)).1.2
  = (false, Some (wrapError "failed to save step" diskError)) ∧
  user (Step resumedContext "c" (counted true)
          (withFaults [None; None; Some diskError] resumedWorld)).2 = 2%nat.
Proof.
  assert (∀ r, r ∈ steps (db (withFaults [None; None; Some diskError]
                                resumedWorld)) → step_key r ≠ "c:3") as Hno.
  { intros r Hr Hkey. simpl in Hr.
    apply elem_of_cons in Hr as [->|Hr]; [discriminate Hkey|].
    apply list_elem_of_singleton in Hr as ->. discriminate Hkey. }
  pose proof (Step_save_failure resumedContext "c" (counted true)
                (withFaults [None; None; Some diskError] resumedWorld)
                true (String.list_byte_of_string "true") 2%nat diskError []
                eq_refl Hno eq_refl eq_refl eq_refl eq_refl) as HS.
  split; [reflexivity|]. split; [reflexivity|].
  rewrite HS. split; reflexivity.
Defined.

(** ** Two workflows that share a step id *)

(** C4. The sequence number of a step id changes between two runs.  The
    first onboarding has stored step "create-user-record" under key
    "create-user-record:1".  The first run of the second onboarding gives
    its steps "create-user-record" and "send-welcome-email" the numbers 1
    and 2; the marker of the first step lands on the row of the first
    onboarding, so the second onboarding gets no row for it, although
    [Step] returns the result.  The resumed run finds only the row of
    "send-welcome-email", seeds the counter with 2 and gives
    "create-user-record" the number 3: the same step ids in the same order
    receive the numbers 1, 2 in one run and 3, 2 in the next, and the
    function of the first step has run in both. *)
Theorem sequence_number_changes_across_runs :
  (renumbered_onboarding emptyWorld).1
  = (Some {["create-user-record" := 1%Z; "send-welcome-email" := 2%Z]},
     Some {["create-user-record" := 3%Z; "send-welcome-email" := 2%Z]}) ∧
  length (filter (λ ev, ev = EvBody "onboarding-employee-002" "create-user-record")
            (log (renumbered_onboarding emptyWorld).2)) = 2%nat ∧
  steps (db (renumbered_onboarding emptyWorld).2)
  = [mkStepRow "onboarding-employee-001" "create-user-record" 1
       "create-user-record:1" "in_progress"
       (Some (String.list_byte_of_string "true")) None;
     mkStepRow "onboarding-employee-002" "send-welcome-email" 2
       "send-welcome-email:2" "completed"
       (Some (String.list_byte_of_string "true")) None;
     mkStepRow "onboarding-employee-002" "create-user-record" 3
       "create-user-record:3" "completed"
       (Some (String.list_byte_of_string "true")) None].
Proof. by vm_compute. Qed.

(** C7. The error of a function is not recorded when another workflow
    holds the key.  The first onboarding has completed step
    "create-user-record" under key "create-user-record:1".  In the second
    onboarding the function of that step fails: [Step] returns the error
    itself, which [Execute] wraps, but the marker has landed on the row of
    the first onboarding and the update of [SaveStepError] (for the workflow
    and the key) matches no row.  Table [steps] holds no record of the
    second onboarding and no record with status failed or an error text;
    the only trace of the failure is the status of the workflow. *)
Theorem body_error_not_recorded :
  (failed_onboarding emptyWorld).1
  = (None,
     Some (wrapError "workflow execution failed"
             (errorString "database unavailable"))) ∧
  length (filter (λ ev, ev = EvBody "onboarding-employee-002" "create-user-record")
            (log (failed_onboarding emptyWorld).2)) = 1%nat ∧
  steps (db (failed_onboarding emptyWorld).2)
  = [mkStepRow "onboarding-employee-001" "create-user-record" 1
       "create-user-record:1" "in_progress"
       (Some (String.list_byte_of_string "true")) None] ∧
  workflows (db (failed_onboarding emptyWorld).2) !! "onboarding-employee-002"
  = Some "failed".
Proof. by vm_compute. Qed.

(** The rows of a step id come by sequence number: with two rows for one
    step id of a workflow, the later number is the one the map keeps,
    whatever the order in the table. *)
Example LoadStepIDMapping_index_order :
  (LoadStepIDMapping "w"
     (mkWorld
        (mkDB ∅ [mkStepRow "w" "x" 5 "x:5" "in_progress" None None;
                 mkStepRow "w" "x" 3 "x:3" "completed" None None])
        [] 0%nat [])).1
  = ({["x" := 5%Z]}, None).
Proof. by vm_compute. Qed.

Example unmarshal_bool_white_space :
  unmarshal_bool (String.list_byte_of_string " true ") = (true, None) ∧
  unmarshal_bool (String.list_byte_of_string "null") = (false, None) ∧
  unmarshal_bool (String.list_byte_of_string "")
  = (false, Some (errorString "unexpected end of JSON input")).
Proof. by vm_compute. Qed.
